(** * AIA signal-analysis pipeline: a shallow embedding

    The TypeScript sources embedded here are
    - [lib/gemini.ts]: [sanitizeAnalysis], [enrichWithIndicators],
      [parseJsonResponse], [analyzeWithGemini], [rankModels];
    - [lib/alpha-vantage.ts]: [calculateEMA], [calculateMACD];
    - [app/api/analyze/route.ts]: the cache check of [POST] and the row it
      inserts into [suggestions].

    Conventions.
    - A JavaScript string is the list of its UTF-16 code units ([jsstring]).
    - A number read by [JSON.parse], a price and a close are the exact
      rationals they denote ([Q]).  [JSON.parse] never yields NaN, and
      rounding to a double is monotone and fixes 0, 1/2 and 1, so the order
      facts proved about the clamp carry over.
    - Where the outcome depends on how a double rounds, the arithmetic is
      that of binary64: the score of [rankModels] is computed in [Double], a
      model of the doubles by their exact values with round-to-nearest-even
      after every operation, and [calculateEMA] and [calculateMACD] are
      written over any arithmetic ([Arithmetic]), with the exact rationals
      and the doubles as instances.
    - A JavaScript object is the list of its property definitions in the order
      they were made; a later definition of a key overrides an earlier one
      ([lookup]).  This is how an object literal with a spread is evaluated, and
      how [JSON.parse] treats duplicate keys.
    - [undefined] is [None] in an [option json]; [null] is [JNull].
    - A function that can throw returns a [result]. *)

From Stdlib Require Import String Ascii Bool Arith ZArith NArith QArith Qround Qabs
  Qpower SpecFloat DecimalString Lia Lqa Permutation Sorted List.
Import ListNotations.

Close Scope Q_scope.
Local Open Scope list_scope.
Set Warnings "-register-all".

(* ================================================================== *)
(** * Part I: definitions *)
(* ================================================================== *)

(** ** JavaScript strings *)

Module Js.

Definition jsstring := list N.

(** A source literal, code unit by code unit (ASCII literals only). *)
Definition js (s : string) : jsstring :=
  map N_of_ascii (list_ascii_of_string s).

(** A source literal in which the apostrophe stands for the double quote. *)
Definition jsq (s : string) : jsstring :=
  map (fun c => if N.eqb c 39 then 34%N else c) (js s).

Fixpoint str_eqb (a b : jsstring) : bool :=
  match a, b with
  | [], [] => true
  | x :: a', y :: b' => N.eqb x y && str_eqb a' b'
  | _, _ => false
  end.

(** [WhiteSpace] and [LineTerminator] code units: what [String.prototype.trim]
    strips and what [\s] matches. *)
Definition is_space (c : N) : bool :=
  existsb (N.eqb c)
    [9; 10; 11; 12; 13; 32; 160; 5760; 8232; 8233; 8239; 8287; 12288; 65279]%N
  || (N.leb 8192 c && N.leb c 8202).

Fixpoint trimStart (s : jsstring) : jsstring :=
  match s with
  | c :: s' => if is_space c then trimStart s' else s
  | [] => []
  end.

Definition trimEnd (s : jsstring) : jsstring := rev (trimStart (rev s)).

Definition trim (s : jsstring) : jsstring := trimEnd (trimStart s).

Fixpoint starts_with (p s : jsstring) : bool :=
  match p, s with
  | [], _ => true
  | x :: p', y :: s' => N.eqb x y && starts_with p' s'
  | _ :: _, [] => false
  end.

(** [s.includes(p)] *)
Fixpoint includes (p s : jsstring) : bool :=
  starts_with p s ||
  match s with
  | [] => false
  | _ :: s' => includes p s'
  end.

(** [s.replace(p, r)] with a string pattern: the first occurrence only. *)
Fixpoint replace_first (p r s : jsstring) : jsstring :=
  if starts_with p s then r ++ skipn (length p) s
  else match s with
       | [] => []
       | c :: s' => c :: replace_first p r s'
       end.

(** Case mapping of the ASCII letters; other code units are left as they
    are. *)
Definition lower_unit (c : N) : N :=
  if N.leb 65 c && N.leb c 90 then (c + 32)%N else c.
Definition upper_unit (c : N) : N :=
  if N.leb 97 c && N.leb c 122 then (c - 32)%N else c.
Definition toLowerCase (s : jsstring) : jsstring := map lower_unit s.
Definition toUpperCase (s : jsstring) : jsstring := map upper_unit s.

(** [xs.join(sep)] *)
Fixpoint join (sep : jsstring) (xs : list jsstring) : jsstring :=
  match xs with
  | [] => []
  | [x] => x
  | x :: xs' => x ++ sep ++ join sep xs'
  end.

(** Decimal rendering of an integer, as a template literal prints it. *)
Definition nat_to_js (n : nat) : jsstring :=
  js (NilZero.string_of_uint (Nat.to_uint n)).
Definition Z_to_js (z : Z) : jsstring :=
  js (NilZero.string_of_int (Z.to_int z)).

(** ** Loosely typed values: what [JSON.parse] returns *)

Inductive json : Type :=
| JNull
| JBool (b : bool)
| JNum (q : Q)
| JStr (s : jsstring)
| JArr (l : list json)
| JObj (m : list (jsstring * json)).

Definition object := list (jsstring * json).

(** Property lookup; the last definition of a key wins. *)
Fixpoint lookup (k : jsstring) (m : object) : option json :=
  match m with
  | [] => None
  | (k', v) :: m' =>
      match lookup k m' with
      | Some v' => Some v'
      | None => if str_eqb k k' then Some v else None
      end
  end.

(** [v?.k] for the keys the pipeline reads ([trend], [text], ...), none of
    which is a property of a string, array, number or boolean prototype:
    [undefined] and [null] short-circuit, an object is looked up, any other
    value has no such property. *)
Definition opt_prop (v : option json) (k : jsstring) : option json :=
  match v with
  | Some (JObj m) => lookup k m
  | _ => None
  end.

(** [v ?? d] *)
Definition nullish (v : option json) (d : json) : json :=
  match v with
  | None | Some JNull => d
  | Some x => x
  end.

Fixpoint indexed {A} (f : A -> json) (i : nat) (l : list A) : object :=
  match l with
  | [] => []
  | x :: l' => (nat_to_js i, f x) :: indexed f (S i) l'
  end.

(** The own enumerable properties an object spread [...v] copies. *)
Definition own_props (v : option json) : object :=
  match v with
  | Some (JObj m) => m
  | Some (JArr l) => indexed (fun x => x) 0 l
  | Some (JStr s) => indexed (fun c => JStr [c]) 0 s
  | _ => []
  end.

(** [Array.isArray(v) ? v : []] *)
Definition array_or_empty (v : option json) : json :=
  match v with Some (JArr l) => JArr l | _ => JArr [] end.

(** ** Exceptions *)

Inductive exn : Type :=
| TypeError                 (* raised by the runtime *)
| SyntaxError               (* raised by [JSON.parse] *)
| Error (msg : jsstring).   (* [throw new Error(msg)] *)

Inductive result (A : Type) : Type :=
| Ok (a : A)
| Throw (e : exn).
Arguments Ok {A} a.
Arguments Throw {A} e.

Definition bind {A B} (r : result A) (k : A -> result B) : result B :=
  match r with
  | Ok a => k a
  | Throw e => Throw e
  end.

End Js.

Import Js.

Notation "'try!' x <- r ; k" := (bind r (fun x => k))
  (at level 10, x name, r at level 100, k at level 200).

(** ** Doubles *)

Module Double.

Local Open Scope Q_scope.

(** A double by its exact value.  The two zeros are one value here: only a
    division by zero reads the sign of a zero, and none of the functions
    embedded below divides by a zero that could be negative. *)
Inductive number : Type :=
| Finite (q : Q)
| PosInf
| NegInf
| NaN.

Definition pow2 (k : Z) : Q := 2 ^ k.

(** The exponent [e] with [2^e <= a < 2^(e+1)], for a positive [a]. *)
Definition floor_log2 (a : Q) : Z :=
  let e := (Z.log2 (Qnum a) - Z.log2 (Zpos (Qden a)))%Z in
  if Qle_bool (pow2 e) a then e else (e - 1)%Z.

(** The nearest integer, the even one of two that are equally near. *)
Definition rne (y : Q) : Z :=
  let f := Qfloor y in
  match Qcompare (y - inject_Z f) (1 # 2) with
  | Lt => f
  | Gt => (f + 1)%Z
  | Eq => if Z.even f then f else (f + 1)%Z
  end.

(** The exponent of the last place of the doubles around a positive [a]:
    53 significant bits, and no place below 2^-1074. *)
Definition quantum (a : Q) : Z := Z.max (floor_log2 a - 52) (-1074).

(** The double nearest to a positive [a], or none when it would reach
    2^1024. *)
Definition round_magnitude (a : Q) : option Q :=
  let q := quantum a in
  let r := inject_Z (rne (a / pow2 q)) * pow2 q in
  if Qle_bool (pow2 1024) r then None else Some (Qred r).

(** Round to nearest, ties to even: what every arithmetic operation and
    every conversion of a decimal text does to its exact result. *)
Definition round64 (x : Q) : number :=
  match Qcompare x 0 with
  | Eq => Finite 0
  | Gt => match round_magnitude x with Some r => Finite r | None => PosInf end
  | Lt => match round_magnitude (- x) with Some r => Finite (- r) | None => NegInf end
  end.

Definition neg (a : number) : number :=
  match a with
  | Finite x => Finite (- x)
  | PosInf => NegInf
  | NegInf => PosInf
  | NaN => NaN
  end.

(** [a + b] *)
Definition add (a b : number) : number :=
  match a, b with
  | NaN, _ | _, NaN => NaN
  | Finite x, Finite y => round64 (x + y)
  | PosInf, NegInf | NegInf, PosInf => NaN
  | PosInf, _ | _, PosInf => PosInf
  | NegInf, _ | _, NegInf => NegInf
  end.

(** [a - b] *)
Definition sub (a b : number) : number := add a (neg b).

(** [a * b] *)
Definition mul (a b : number) : number :=
  match a, b with
  | NaN, _ | _, NaN => NaN
  | Finite x, Finite y => round64 (x * y)
  | Finite x, PosInf | PosInf, Finite x =>
      match Qcompare x 0 with Eq => NaN | Gt => PosInf | Lt => NegInf end
  | Finite x, NegInf | NegInf, Finite x =>
      match Qcompare x 0 with Eq => NaN | Gt => NegInf | Lt => PosInf end
  | PosInf, PosInf | NegInf, NegInf => PosInf
  | PosInf, NegInf | NegInf, PosInf => NegInf
  end.

(** [a / b], a zero divisor being the positive zero. *)
Definition div (a b : number) : number :=
  match a, b with
  | NaN, _ | _, NaN => NaN
  | Finite x, Finite y =>
      match Qcompare y 0 with
      | Eq => match Qcompare x 0 with Eq => NaN | Gt => PosInf | Lt => NegInf end
      | _ => round64 (x / y)
      end
  | Finite _, _ => Finite 0
  | PosInf, Finite y => if Qle_bool 0 y then PosInf else NegInf
  | NegInf, Finite y => if Qle_bool 0 y then NegInf else PosInf
  | _, _ => NaN
  end.

(** [a < b] *)
Definition ltb (a b : number) : bool :=
  match a, b with
  | NaN, _ | _, NaN => false
  | Finite x, Finite y => negb (Qle_bool y x)
  | _, NegInf => false
  | NegInf, _ => true
  | PosInf, _ => false
  | _, PosInf => true
  end.

(** [a <= b] *)
Definition leb (a b : number) : bool :=
  match a, b with
  | NaN, _ | _, NaN => false
  | _, _ => negb (ltb b a)
  end.

(** [a === b] *)
Definition eqb (a b : number) : bool :=
  match a, b with
  | Finite x, Finite y => Qeq_bool x y
  | PosInf, PosInf | NegInf, NegInf => true
  | _, _ => false
  end.

(** An integer literal, a length or a period. *)
Definition of_Z (z : Z) : number := round64 (inject_Z z).

(** The reference implementation of IEEE 754 of the Standard Library, to
    compare with: a number as a [spec_float] and back. *)
Definition to_spec (a : number) : spec_float :=
  match a with
  | Finite x =>
      binary_normalize 53 1024 (Qnum x) (- Z.log2 (Zpos (Qden x))) false
  | PosInf => S754_infinity false
  | NegInf => S754_infinity true
  | NaN => S754_nan
  end.

Definition of_spec (f : spec_float) : number :=
  match f with
  | S754_zero _ => Finite 0
  | S754_infinity false => PosInf
  | S754_infinity true => NegInf
  | S754_nan => NaN
  | S754_finite s m e =>
      Finite (Qred ((if s then - inject_Z (Zpos m) else inject_Z (Zpos m)) * pow2 e))
  end.

End Double.

(** ** Output sanitizer ([sanitizeAnalysis], [enrichWithIndicators]) *)

Module Sanitizer.

Record AnalysisResponse : Type := {
  symbol : json;
  signal_level : jsstring;
  action : jsstring;
  suggested_buy_price : json;
  suggested_sell_price : json;
  stop_loss_price : json;
  risk_estimation : jsstring;
  reasoning : jsstring;
  technical_summary : object;
  confidence : Q;
  time_horizon : jsstring
}.

Definition VALID_SIGNALS := [js "weak"; js "medium"; js "strong"; js "very_strong"].
Definition VALID_ACTIONS := [js "buy"; js "sell"; js "hold"; js "watch"].
Definition VALID_RISKS := [js "low"; js "moderate"; js "high"; js "very_high"].
Definition VALID_TRENDS := [js "bullish"; js "bearish"; js "neutral"; js "sideways"].

(** [VALID.includes(v)]: SameValueZero against string constants, so only a
    string can be found. *)
Definition arr_includes (valid : list jsstring) (v : option json) : bool :=
  match v with
  | Some (JStr s) => existsb (str_eqb s) valid
  | _ => false
  end.

(** [VALID.includes(v) ? v : dflt] *)
Definition enum_or (valid : list jsstring) (v : option json) (dflt : jsstring)
  : jsstring :=
  match v with
  | Some (JStr s) => if existsb (str_eqb s) valid then s else dflt
  | _ => dflt
  end.

(** [v?.trim() || dflt]: [undefined] and [null] short-circuit the call, a
    string is trimmed and replaced when the outcome is empty, and any other
    value has no [trim] method, so the call throws. *)
Definition trim_or (v : option json) (dflt : result jsstring) : result jsstring :=
  match v with
  | None | Some JNull => dflt
  | Some (JStr s) =>
      match trim s with
      | [] => dflt
      | t => Ok t
      end
  | Some _ => Throw TypeError
  end.

Definition math_max (a b : Q) : Q := if Qle_bool a b then b else a.
Definition math_min (a b : Q) : Q := if Qle_bool a b then a else b.

(** [typeof v === "number" ? Math.min(1, Math.max(0, v)) : 0.5] *)
Definition clamp_confidence (v : option json) : Q :=
  match v with
  | Some (JNum c) => math_min 1 (math_max 0 c)
  | _ => 1 # 2
  end.

Section Runtime.

(** [Number::toString], the shortest decimal that reads back as the same
    double, is left to the runtime. *)
Variable num_toString : Q -> jsstring.

Definition pad2 (n : Z) : jsstring :=
  if (n <? 10)%Z then js "0" ++ Z_to_js n else Z_to_js n.

(** [x.toFixed(2)], of the double nearest to [x]: the [n/100] nearest to the
    exact value of that double, the larger one of two equally near; from
    1e21 on, [Number::toString]. *)
Definition toFixed2 (x : Q) : jsstring :=
  match Double.round64 x with
  | Double.Finite d =>
      let s := if Qle_bool 0 d then [] else js "-" in
      let a := Qabs d in
      if Qle_bool (inject_Z (10 ^ 21)) a then s ++ num_toString a
      else
        let n := Qfloor (a * inject_Z 100 + (1 # 2))%Q in
        s ++ Z_to_js (n / 100) ++ js "." ++ pad2 (n mod 100)
  | Double.PosInf => js "Infinity"
  | Double.NegInf => js "-Infinity"
  | Double.NaN => js "NaN"
  end.

(** [ToString(v)] as a template literal applies it.  An object converts
    through [Object.prototype.toString] unless it has an own [toString]
    property, which in parsed JSON is never callable: then [valueOf] returns
    the object itself and the conversion throws.  An array is joined with
    commas, [null] elements printing as empty. *)
Fixpoint toString (v : json) : result jsstring :=
  match v with
  | JNull => Ok (js "null")
  | JBool true => Ok (js "true")
  | JBool false => Ok (js "false")
  | JNum q => Ok (num_toString q)
  | JStr s => Ok s
  | JArr l =>
      try! ss <-
        (fix elems (l : list json) : result (list jsstring) :=
           match l with
           | [] => Ok []
           | x :: l' =>
               try! s <- match x with JNull => Ok [] | _ => toString x end;
               try! ss <- elems l';
               Ok (s :: ss)
           end) l;
      Ok (join (js ",") ss)
  | JObj m =>
      match lookup (js "toString") m with
      | Some _ => Throw TypeError
      | None => Ok (js "[object Object]")
      end
  end.

(** The template literal that stands in for a missing [reasoning]. *)
Definition synthesized_reasoning (symbol : jsstring) (currentPrice : Q)
  (lvl : jsstring) : jsstring :=
  js "Analysis for " ++ symbol ++ js " at $" ++ toFixed2 currentPrice ++ js ". "
  ++ js "Signal: " ++ lvl ++ js ". "
  ++ js "No detailed reasoning was returned by the AI model.".

Definition sanitizeAnalysis (raw : json) (symbol : jsstring) (currentPrice : Q)
  : result AnalysisResponse :=
  match raw with
  | JNull => Throw TypeError
  | _ =>
    let r := Some raw in
    let ts := opt_prop r (js "technical_summary") in
    try! reasoning <-
      trim_or (opt_prop r (js "reasoning"))
        (try! lvl <- toString (nullish (opt_prop r (js "signal_level")) (JStr (js "weak")));
         Ok (synthesized_reasoning symbol currentPrice lvl));
    try! time_horizon <-
      trim_or (opt_prop r (js "time_horizon")) (Ok (js "N/A"));
    Ok {|
      symbol := nullish (opt_prop r (js "symbol")) (JStr symbol);
      signal_level := enum_or VALID_SIGNALS (opt_prop r (js "signal_level")) (js "weak");
      action := enum_or VALID_ACTIONS (opt_prop r (js "action")) (js "watch");
      suggested_buy_price := nullish (opt_prop r (js "suggested_buy_price")) JNull;
      suggested_sell_price := nullish (opt_prop r (js "suggested_sell_price")) JNull;
      stop_loss_price := nullish (opt_prop r (js "stop_loss_price")) JNull;
      risk_estimation := enum_or VALID_RISKS (opt_prop r (js "risk_estimation")) (js "moderate");
      reasoning := reasoning;
      technical_summary :=
        [ (js "trend", JStr (enum_or VALID_TRENDS (opt_prop ts (js "trend")) (js "neutral")));
          (js "support_levels", array_or_empty (opt_prop ts (js "support_levels")));
          (js "resistance_levels", array_or_empty (opt_prop ts (js "resistance_levels")));
          (js "key_indicators", nullish (opt_prop ts (js "key_indicators")) (JStr [])) ]
        ++ own_props ts;
      confidence := clamp_confidence (opt_prop r (js "confidence"));
      time_horizon := time_horizon
    |}
  end.

End Runtime.

End Sanitizer.

(** ** [JSON.parse] *)

Module Json.

Local Open Scope N_scope.

Definition ch (a : ascii) : N := N_of_ascii a.
Definition QUOTE : N := 34.
Definition BACKSLASH : N := 92.

(** JSON whitespace: space, tab, line feed, carriage return. *)
Definition is_ws (c : N) : bool :=
  (c =? 32) || (c =? 9) || (c =? 10) || (c =? 13).

Fixpoint skip_ws (s : jsstring) : jsstring :=
  match s with
  | c :: s' => if is_ws c then skip_ws s' else s
  | [] => []
  end.

Definition is_digit (c : N) : bool := (48 <=? c) && (c <=? 57).

Definition hex_val (c : N) : option N :=
  if is_digit c then Some (c - 48)
  else if (97 <=? c) && (c <=? 102) then Some (c - 87)
  else if (65 <=? c) && (c <=? 70) then Some (c - 55)
  else None.

Definition hex4 (a b c d : N) : option N :=
  match hex_val a, hex_val b, hex_val c, hex_val d with
  | Some x, Some y, Some z, Some w => Some (((x * 16 + y) * 16 + z) * 16 + w)
  | _, _, _, _ => None
  end.

(** The code unit a two-character escape stands for. *)
Definition unescape (e : N) : option N :=
  if e =? QUOTE then Some QUOTE
  else if e =? BACKSLASH then Some BACKSLASH
  else if e =? ch "/" then Some (ch "/")
  else if e =? ch "b" then Some 8
  else if e =? ch "f" then Some 12
  else if e =? ch "n" then Some 10
  else if e =? ch "r" then Some 13
  else if e =? ch "t" then Some 9
  else None.

Definition cons_fst {A B} (a : A) (r : option (list A * B)) : option (list A * B) :=
  match r with
  | Some (l, b) => Some (a :: l, b)
  | None => None
  end.

(** The characters of a string after its opening quote, up to and including
    the closing quote; yields the decoded string and what follows it. *)
Fixpoint parse_string (s : jsstring) : option (jsstring * jsstring) :=
  match s with
  | [] => None
  | c :: s' =>
      if c =? QUOTE then Some ([], s')
      else if c =? BACKSLASH then
        match s' with
        | [] => None
        | e :: s'' =>
            if e =? ch "u" then
              match s'' with
              | h1 :: h2 :: h3 :: h4 :: s3 =>
                  match hex4 h1 h2 h3 h4 with
                  | Some u => cons_fst u (parse_string s3)
                  | None => None
                  end
              | _ => None
              end
            else
              match unescape e with
              | Some u => cons_fst u (parse_string s'')
              | None => None
              end
        end
      else if c <? 32 then None
      else cons_fst c (parse_string s')
  end.

Fixpoint take_digits (s : jsstring) : list N * jsstring :=
  match s with
  | c :: s' =>
      if is_digit c then let (ds, r) := take_digits s' in (c - 48 :: ds, r)
      else ([], s)
  | [] => ([], [])
  end.

Definition digits_value (ds : list N) : N :=
  fold_left (fun acc d => acc * 10 + d) ds 0.

(** The integer part: a lone [0], or a digit [1-9] followed by digits. *)
Definition parse_int (s : jsstring) : option (list N * jsstring) :=
  match s with
  | c :: s' =>
      if c =? 48 then Some ([0], s')
      else if is_digit c then Some (take_digits s)
      else None
  | [] => None
  end.

Definition parse_frac (s : jsstring) : option (list N * jsstring) :=
  match s with
  | c :: s' =>
      if c =? ch "." then
        match take_digits s' with
        | ([], _) => None
        | r => Some r
        end
      else Some ([], s)
  | [] => Some ([], [])
  end.

Definition parse_exp (s : jsstring) : option (Z * jsstring) :=
  match s with
  | c :: s' =>
      if (c =? ch "e") || (c =? ch "E") then
        let '(neg, s1) :=
          match s' with
          | d :: s'' =>
              if d =? ch "-" then (true, s'')
              else if d =? ch "+" then (false, s'')
              else (false, s')
          | [] => (false, s')
          end in
        match take_digits s1 with
        | ([], _) => None
        | (ds, r) =>
            let e := Z.of_N (digits_value ds) in
            Some (if neg then (- e)%Z else e, r)
        end
      else Some (0%Z, s)
  | [] => Some (0%Z, [])
  end.

(** [mant * 10^e10] as a rational. *)
Definition decimal (mant : Z) (e10 : Z) : Q :=
  match e10 with
  | Zneg p => Qmake mant (Pos.pow 10 p)
  | _ => inject_Z (mant * 10 ^ e10)
  end.

Definition parse_number (s : jsstring) : option (Q * jsstring) :=
  let '(neg, s0) :=
    match s with
    | c :: s' => if c =? ch "-" then (true, s') else (false, s)
    | [] => (false, s)
    end in
  match parse_int s0 with
  | None => None
  | Some (ip, s1) =>
      match parse_frac s1 with
      | None => None
      | Some (fp, s2) =>
          match parse_exp s2 with
          | None => None
          | Some (e, s3) =>
              let m := Z.of_N (digits_value (ip ++ fp)) in
              Some (decimal (if neg then (- m)%Z else m)
                            (e - Z.of_nat (length fp)), s3)
          end
      end
  end.

Definition expect (lit : jsstring) (v : json) (s : jsstring)
  : option (json * jsstring) :=
  if starts_with lit s then Some (v, skipn (length lit) s) else None.

(** Recursive descent.  Every call that spends a unit of fuel has consumed a
    character since the call two levels up, so twice the length of the text
    is enough fuel ([parse]). *)
Fixpoint parse_value (fuel : nat) (s : jsstring) {struct fuel}
  : option (json * jsstring) :=
  match fuel with
  | O => None
  | S f =>
      match s with
      | [] => None
      | c :: s' =>
          if c =? ch "{" then
            match skip_ws s' with
            | d :: s'' =>
                if d =? ch "}" then Some (JObj [], s'')
                else parse_members f (d :: s'') []
            | [] => None
            end
          else if c =? ch "[" then
            match skip_ws s' with
            | d :: s'' =>
                if d =? ch "]" then Some (JArr [], s'')
                else parse_elements f (d :: s'') []
            | [] => None
            end
          else if c =? QUOTE then
            match parse_string s' with
            | Some (str, r) => Some (JStr str, r)
            | None => None
            end
          else if c =? ch "t" then expect (js "true") (JBool true) s
          else if c =? ch "f" then expect (js "false") (JBool false) s
          else if c =? ch "n" then expect (js "null") JNull s
          else
            match parse_number s with
            | Some (q, r) => Some (JNum q, r)
            | None => None
            end
      end
  end

with parse_elements (fuel : nat) (s : jsstring) (acc : list json) {struct fuel}
  : option (json * jsstring) :=
  match fuel with
  | O => None
  | S f =>
      match parse_value f s with
      | None => None
      | Some (v, r) =>
          match skip_ws r with
          | c :: r' =>
              if c =? ch "," then parse_elements f (skip_ws r') (v :: acc)
              else if c =? ch "]" then Some (JArr (rev (v :: acc)), r')
              else None
          | [] => None
          end
      end
  end

with parse_members (fuel : nat) (s : jsstring) (acc : object) {struct fuel}
  : option (json * jsstring) :=
  match fuel with
  | O => None
  | S f =>
      match s with
      | q :: s' =>
          if q =? QUOTE then
            match parse_string s' with
            | None => None
            | Some (k, r) =>
                match skip_ws r with
                | c :: r' =>
                    if c =? ch ":" then
                      match parse_value f (skip_ws r') with
                      | None => None
                      | Some (v, r2) =>
                          match skip_ws r2 with
                          | d :: r3 =>
                              if d =? ch "," then
                                parse_members f (skip_ws r3) ((k, v) :: acc)
                              else if d =? ch "}" then
                                Some (JObj (rev ((k, v) :: acc)), r3)
                              else None
                          | [] => None
                          end
                      end
                    else None
                | [] => None
                end
            end
          else None
      | [] => None
      end
  end.

(** [JSON.parse(text)] *)
Definition parse (text : jsstring) : result json :=
  match parse_value (2 * length text + 2) (skip_ws text) with
  | Some (v, r) =>
      match skip_ws r with
      | [] => Ok v
      | _ :: _ => Throw SyntaxError
      end
  | None => Throw SyntaxError
  end.

End Json.

(** ** Response repair parser ([parseJsonResponse]) *)

Module Repair.

Import Json.
Local Open Scope N_scope.

Fixpoint count_leading_space (s : jsstring) : nat :=
  match s with
  | c :: s' => if is_space c then S (count_leading_space s') else O
  | [] => O
  end.

(** Case-insensitive prefix test against a lower-case ASCII pattern (the [i]
    flag without [u] folds ASCII letters only against ASCII letters). *)
Fixpoint starts_with_ci (p s : jsstring) : bool :=
  match p, s with
  | [], _ => true
  | x :: p', y :: s' => (x =? lower_unit y) && starts_with_ci p' s'
  | _ :: _, [] => false
  end.

(** Length of the match of [/<fence>\s*/] at the head of [s], if any. *)
Definition match_fence (ci : bool) (fence : jsstring) (s : jsstring) : option nat :=
  if (if ci then starts_with_ci fence s else starts_with fence s)
  then Some (length fence + count_leading_space (skipn (length fence) s))%nat
  else None.

(** [s.replace(re, "")] for a global [re] whose matches are never empty:
    scan left to right, dropping each match.  Every step consumes a code
    unit, so [length s] steps suffice. *)
Fixpoint remove_all (m : jsstring -> option nat) (fuel : nat) (s : jsstring)
  : jsstring :=
  match fuel with
  | O => s
  | S f =>
      match s with
      | [] => []
      | c :: s' =>
          match m s with
          | Some (S k) => remove_all m f (skipn k s')
          | _ => c :: remove_all m f s'
          end
      end
  end.

Definition strip_fences (text : jsstring) : jsstring :=
  let a := remove_all (match_fence true (js "```json")) (length text) text in
  let b := remove_all (match_fence false (js "```")) (length a) a in
  trim b.

(** [s.indexOf(c)] and [s.lastIndexOf(c)] for a one-unit [c]; -1 when absent. *)
Fixpoint indexOf_from (c : N) (i : Z) (s : jsstring) : Z :=
  match s with
  | [] => (-1)%Z
  | x :: s' => if x =? c then i else indexOf_from c (i + 1)%Z s'
  end.
Definition indexOf (c : N) (s : jsstring) : Z := indexOf_from c 0%Z s.

Fixpoint lastIndexOf_from (c : N) (i last : Z) (s : jsstring) : Z :=
  match s with
  | [] => last
  | x :: s' => lastIndexOf_from c (i + 1)%Z (if x =? c then i else last) s'
  end.
Definition lastIndexOf (c : N) (s : jsstring) : Z :=
  lastIndexOf_from c 0%Z (-1)%Z s.

(** [s.slice(a, b)] for [0 <= a <= b]. *)
Definition slice (a b : Z) (s : jsstring) : jsstring :=
  firstn (Z.to_nat (b - a)) (skipn (Z.to_nat a) s).

Definition count_unit (c : N) (s : jsstring) : nat :=
  length (filter (N.eqb c) s).

(** [s.replace(re, r)] for a regular expression anchored at the end of the
    text: [suffix_ok] tells whether the pattern matches a whole suffix, and
    the leftmost such suffix is replaced. *)
Fixpoint replace_suffix (suffix_ok : jsstring -> bool) (r : jsstring) (s : jsstring)
  : jsstring :=
  match s with
  | [] => []
  | c :: s' => if suffix_ok s then r else c :: replace_suffix suffix_ok r s'
  end.

(** [/,\s*$/] *)
Definition trailing_comma (s : jsstring) : bool :=
  match s with
  | c :: s' => (c =? ch ",") && forallb is_space s'
  | [] => false
  end.

(** The second pattern of the repair: a comma, blanks, an opening double
    quote and then no further double quote up to the end of the text. *)
Definition trailing_partial_key (s : jsstring) : bool :=
  match s with
  | c :: s' =>
      (c =? ch ",") &&
      match trimStart s' with
      | q :: k => (q =? QUOTE) && forallb (fun x => negb (x =? QUOTE)) k
      | [] => false
      end
  | [] => false
  end.

(** [/:\s*$/] *)
Definition trailing_colon (s : jsstring) : bool :=
  match s with
  | c :: s' => (c =? ch ":") && forallb is_space s'
  | [] => false
  end.

(** Number of matches of the quote pattern with its negative lookbehind:
    double quotes not preceded by a backslash. *)
Fixpoint count_unescaped_quotes (prev_backslash : bool) (s : jsstring) : nat :=
  match s with
  | [] => O
  | c :: s' =>
      let rest := count_unescaped_quotes (c =? BACKSLASH) s' in
      if (c =? QUOTE) && negb prev_backslash then S rest else rest
  end.

Definition repair (cleaned : jsstring) : jsstring :=
  let opens := count_unit (ch "{") cleaned in
  let closes := count_unit (ch "}") cleaned in
  let r1 := replace_suffix trailing_comma [] cleaned in
  let r2 := replace_suffix trailing_partial_key [] r1 in
  let r3 := replace_suffix trailing_colon (js ": null") r2 in
  let r4 := if Nat.odd (count_unescaped_quotes false r3) then r3 ++ [QUOTE] else r3 in
  r4 ++ repeat (ch "}") (opens - closes).

Definition extract_object (cleaned : jsstring) : jsstring :=
  let jsonStart := indexOf (ch "{") cleaned in
  let jsonEnd := lastIndexOf (ch "}") cleaned in
  if negb (jsonStart =? -1)%Z && (jsonStart <? jsonEnd)%Z
  then slice jsonStart (jsonEnd + 1) cleaned
  else cleaned.

Definition parseJsonResponse (text : jsstring) : result json :=
  let cleaned := extract_object (strip_fences text) in
  match parse cleaned with
  | Ok v => Ok v
  | Throw _ =>
      match parse (repair cleaned) with
      | Ok v => Ok v
      | Throw _ =>
          Throw (Error (js "Failed to parse AI response as JSON. "
                        ++ js "Raw response (first 500 chars): "
                        ++ firstn 500 text))
      end
  end.

End Repair.

(** ** Model directory ([rankModels]) *)

Module Ranking.

Import Json.

Record GeminiModel : Type := {
  name : jsstring;
  displayName : jsstring;
  supportedGenerationMethods : option (list jsstring)
}.

Definition EXCLUDE_PATTERNS :=
  [js "tts"; js "imagen"; js "veo"; js "embedding"; js "aqa"; js "bisheng"].

(** The predicate of the [filter] call. *)
Definition is_text_model (m : GeminiModel) : bool :=
  match supportedGenerationMethods m with
  | None => false
  | Some methods =>
      if existsb (str_eqb (js "generateContent")) methods
      then
        let id := toLowerCase (name m) in
        negb (existsb (fun p => includes p id) EXCLUDE_PATTERNS)
      else false
  end.

Definition textModels (available : list GeminiModel) : list jsstring :=
  map (fun m => replace_first (js "models/") [] (name m))
      (filter is_text_model available).

(** The capture of [gemini-(\d+(?:\.\d+)?)] at the head of [s], by the
    decimal number it writes: digits, then a dot and digits when both are
    there. *)
Definition version_here (s : jsstring) : option Q :=
  if starts_with (js "gemini-") s then
    match take_digits (skipn 7 s) with
    | ([], _) => None
    | (ip, r) =>
        let fp :=
          match r with
          | c :: r' => if N.eqb c (ch ".") then fst (take_digits r') else []
          | [] => []
          end in
        Some (decimal (Z.of_N (digits_value (ip ++ fp))) (- Z.of_nat (length fp)))
    end
  else None.

(** [m.match(...)]: the leftmost position where the pattern matches. *)
Fixpoint match_version (s : jsstring) : option Q :=
  match version_here s with
  | Some v => Some v
  | None =>
      match s with
      | [] => None
      | _ :: s' => match_version s'
      end
  end.

(** The function [score] of [rankModels]: a double, accumulated with [+=].
    [parseFloat] rounds the decimal number of the capture to the nearest
    double. *)
Definition score (model : jsstring) : Double.number :=
  let m := toLowerCase model in
  let s := Double.of_Z 0 in
  let s := if includes (js "latest") m then Double.add s (Double.of_Z 10000) else s in
  let version :=
    match match_version m with
    | Some v => Double.round64 v
    | None => Double.of_Z 0
    end in
  let s := Double.add s (Double.mul version (Double.of_Z 1000)) in
  let s := if includes (js "flash") m then Double.add s (Double.of_Z 100) else s in
  let s :=
    if negb (includes (js "preview") m) && negb (includes (js "exp") m)
    then Double.add s (Double.of_Z 50)
    else if includes (js "preview") m then Double.add s (Double.of_Z 20)
    else s in
  s.

(** [score(b) - score(a) < 0]: the comparator puts [a] strictly before [b].
    A comparator value of NaN (the difference of two infinite scores) is
    read by the sort as 0. *)
Definition before (a b : jsstring) : bool :=
  Double.ltb (Double.sub (score b) (score a)) (Double.of_Z 0).

(** [Array.prototype.sort] is stable, and for a comparator that orders by a
    key the stable sorted arrangement is unique; insertion from the right is
    one way to compute it. *)
Fixpoint insert (x : jsstring) (l : list jsstring) : list jsstring :=
  match l with
  | [] => [x]
  | y :: l' => if before y x then y :: insert x l' else x :: l
  end.

Fixpoint sort (l : list jsstring) : list jsstring :=
  match l with
  | [] => []
  | x :: l' => insert x (sort l')
  end.

Definition rankModels (available : list GeminiModel) : list jsstring :=
  match textModels available with
  | [] => []
  | ms => sort ms
  end.

(** The decimal number that the version pattern captures in an id, 0 when
    it captures none; [score] rounds it to a double. *)
Definition version_number (id : jsstring) : Q :=
  match match_version (toLowerCase id) with Some v => v | None => 0%Q end.

End Ranking.

(** ** The ranking rule, in words *)

Module RankingSpec.

Import Double.

(** The text [p] occurs in [s]. *)
Definition mentions (p s : jsstring) : Prop := exists a b, s = a ++ p ++ b.

(** An amount that is added when a condition holds, and left out when it
    does not. *)
Inductive bonus (applies : Prop) (amount : number) : list number -> Prop :=
| bonus_added : applies -> bonus applies amount [amount]
| bonus_none : ~ applies -> bonus applies amount [].

Definition digit (c : N) : Prop := (48 <= c <= 57)%N.

(** The text does not go on with a digit. *)
Definition no_digit_ahead (rest : jsstring) : Prop :=
  match rest with
  | c :: _ => ~ digit c
  | [] => True
  end.

(** The integer that a run of digits writes. *)
Definition numeral (cs : list N) : Z :=
  fold_left (fun n c => (10 * n + (Z.of_N c - 48))%Z) cs 0%Z.

(** The fraction at the head of a text: a dot and the whole run of digits
    behind it, when there is at least one; none otherwise. *)
Inductive fraction_of : jsstring -> list N -> Prop :=
| fraction_some fp rest :
    fp <> [] -> Forall digit fp -> no_digit_ahead rest ->
    fraction_of (Json.ch "." :: fp ++ rest) fp
| fraction_none r :
    (forall c r', r = Json.ch "." :: c :: r' -> ~ digit c) ->
    fraction_of r [].

(** The text [t] starts with a version: the whole run of digits [ip], not
    empty, and the fraction [fp]. *)
Definition writes (t : jsstring) (ip fp : list N) : Prop :=
  exists rest,
    t = ip ++ rest /\ ip <> [] /\ Forall digit ip /\ no_digit_ahead rest
    /\ fraction_of rest fp.

(** Behind [a], the text [s] goes on with [gemini-] and a digit. *)
Definition version_starts (s a : jsstring) : Prop :=
  exists c t, s = a ++ js "gemini-" ++ c :: t /\ digit c.

(** The decimal number [ip.fp]. *)
Definition decimal_value (ip fp : list N) : Q :=
  Json.decimal (numeral (ip ++ fp)) (- Z.of_nat (length fp)).

(** The version number of a lower-cased id: the double nearest to the
    decimal number behind the first [gemini-] that a digit follows, and 0
    when there is no such place. *)
Inductive version_of (s : jsstring) : number -> Prop :=
| version_found a t ip fp :
    s = a ++ js "gemini-" ++ t ->
    writes t ip fp ->
    (forall a', version_starts s a' -> length a <= length a') ->
    version_of s (round64 (decimal_value ip fp))
| version_absent :
    (forall a, ~ version_starts s a) -> version_of s (of_Z 0).

(** The last amount: 50 without a preview or experimental tag, 20 with a
    preview tag (an experimental tag beside it or not), nothing with an
    experimental tag alone. *)
Inductive stability (m : jsstring) : list number -> Prop :=
| stable_id :
    ~ mentions (js "preview") m -> ~ mentions (js "exp") m ->
    stability m [of_Z 50]
| preview_id : mentions (js "preview") m -> stability m [of_Z 20]
| experimental_id :
    ~ mentions (js "preview") m -> mentions (js "exp") m -> stability m [].

(** The amended rule: the amounts are added up in doubles, from 0, in this
    order. *)
Definition scored (id : jsstring) (s : number) : Prop :=
  let m := toLowerCase id in
  exists latest version flash stable,
    bonus (mentions (js "latest") m) (of_Z 10000) latest
    /\ version_of m version
    /\ bonus (mentions (js "flash") m) (of_Z 100) flash
    /\ stability m stable
    /\ s = fold_left add
             (latest ++ [mul version (of_Z 1000)] ++ flash ++ stable) (of_Z 0).

(** *** The rule as first claimed *)

Local Open Scope Q_scope.

(** The decimal number at the head of a text, if it starts with a digit. *)
Definition numeral_at (s : jsstring) : option Q :=
  match Json.take_digits s with
  | ([], _) => None
  | (ip, r) =>
      let fp :=
        match r with
        | c :: r' => if N.eqb c (Json.ch ".") then fst (Json.take_digits r') else []
        | [] => []
        end in
      Some (Json.decimal (Z.of_N (Json.digits_value (ip ++ fp)))
                         (- Z.of_nat (length fp)))
  end.

(** The version number parsed from an id, from a [name-<major>[.<minor>]]
    pattern: the number behind the first hyphen that a digit follows, 0
    when there is none. *)
Fixpoint claimed_version (s : jsstring) : Q :=
  match s with
  | [] => 0
  | c :: s' =>
      if N.eqb c (Json.ch "-") then
        match numeral_at s' with
        | Some v => v
        | None => claimed_version s'
        end
      else claimed_version s'
  end.

(** The score as the claim words it: a sum of real numbers, with 20 for an
    id that is only preview. *)
Definition claimed_score (id : jsstring) : Q :=
  let m := toLowerCase id in
  (if includes (js "latest") m then inject_Z 10000 else 0)
  + inject_Z 1000 * claimed_version m
  + (if includes (js "flash") m then inject_Z 100 else 0)
  + (if negb (includes (js "preview") m) && negb (includes (js "exp") m)
     then inject_Z 50
     else if includes (js "preview") m && negb (includes (js "exp") m)
          then inject_Z 20
          else 0).

(** Descending by that score, ties keeping discovery order. *)
Fixpoint claimed_insert (x : jsstring) (l : list jsstring) : list jsstring :=
  match l with
  | [] => [x]
  | y :: l' =>
      if Qle_bool (claimed_score y) (claimed_score x) then x :: l
      else y :: claimed_insert x l'
  end.

Definition claimed_ranking (ids : list jsstring) : list jsstring :=
  fold_right claimed_insert [] ids.

End RankingSpec.

(** ** Indicator calculator ([calculateEMA], [calculateMACD]) *)

Module Indicators.

Local Open Scope Q_scope.

Record StockDailyData : Type := {
  date : jsstring;
  open : Q;
  high : Q;
  low : Q;
  close : Q;
  volume : Q
}.

Record MACD (T : Type) : Type := {
  macd : T;
  signal : T;
  histogram : T
}.

Arguments macd {T} m.
Arguments signal {T} m.
Arguments histogram {T} m.

Definition of_nat (n : nat) : Q := inject_Z (Z.of_nat n).

(** The arithmetic of the runtime: the numbers and the four operations, a
    count (a length, a period, a small integer literal) as a number, and a
    decimal literal [m * 10^e] as a number. *)
Record Arithmetic : Type := {
  value : Type;
  plus : value -> value -> value;
  minus : value -> value -> value;
  times : value -> value -> value;
  over : value -> value -> value;
  count : nat -> value;
  literal : Z -> Z -> value
}.

(** The exact rationals. *)
Definition exact : Arithmetic :=
  {| value := Q; plus := Qplus; minus := Qminus; times := Qmult; over := Qdiv;
     count := of_nat; literal := Json.decimal |}.

(** The doubles. *)
Definition binary64 : Arithmetic :=
  {| value := Double.number;
     plus := Double.add; minus := Double.sub;
     times := Double.mul; over := Double.div;
     count := fun n => Double.of_Z (Z.of_nat n);
     literal := fun m e => Double.round64 (Json.decimal m e) |}.

Section Arithmetic.

Variable A : Arithmetic.

(** [xs.reduce((sum, v) => sum + v, 0)] *)
Definition sum (xs : list (value A)) : value A :=
  fold_left (plus A) xs (count A 0).

(** The [for] loop of [calculateEMA]: [n] iterations left, index [i]. *)
Fixpoint ema_loop (values : list (value A)) (multiplier : value A) (n i : nat)
  (ema : value A) : value A :=
  match n with
  | O => ema
  | S n' =>
      ema_loop values multiplier n' (S i)
        (plus A (times A (minus A (nth i values (count A 0)) ema) multiplier) ema)
  end.

(** [period + 1] is a sum of two small integers, which no arithmetic
    rounds: it is taken on the counts. *)
Definition calculateEMA (values : list (value A)) (period : nat)
  : option (value A) :=
  if (length values <? period)%nat then None
  else
    let multiplier := over A (count A 2) (count A (period + 1)) in
    let ema := over A (sum (firstn period values)) (count A period) in
    Some (ema_loop values multiplier (length values - period) period ema).

(** The bars and how a close is read off one: [d => d.close]. *)
Variable bar : Type.
Variable close_of : bar -> value A.

Definition calculateMACD (data : list bar) : option (MACD (value A)) :=
  if (length data <? 26)%nat then None
  else
    match calculateEMA (map close_of data) 12,
          calculateEMA (map close_of data) 26 with
    | Some ema12, Some ema26 =>
        let macd := minus A ema12 ema26 in
        let signal := times A macd (literal A 85 (-2)) in
        let histogram := minus A macd signal in
        Some {| macd := macd; signal := signal; histogram := histogram |}
    | _, _ => None
    end.

End Arithmetic.

(** What [buildTechnicalIndicators] hands to the prompt and to
    [enrichWithIndicators], on the exact rationals. *)
Record Bands : Type := { upper : Q; middle : Q; lower : Q }.

Record TechnicalIndicators : Type := {
  sma_20 : option Q;
  sma_50 : option Q;
  sma_200 : option Q;
  rsi : option Q;
  bb : option Bands;
  ind_macd : option (MACD Q)
}.

End Indicators.

(** ** The moving averages, in words *)

Module IndicatorSpec.

Import Indicators.

Section Words.

Variable A : Arithmetic.

(** The values added up one after the other, from [acc] on. *)
Fixpoint total_from (acc : value A) (xs : list (value A)) : value A :=
  match xs with
  | [] => acc
  | x :: xs' => total_from (plus A acc x) xs'
  end.

(** The simple average: the total of the values, from 0, over their
    number. *)
Definition simple_average (xs : list (value A)) : value A :=
  over A (total_from (count A 0) xs) (count A (length xs)).

(** The recursive exponential average: every later value [v] moves the
    average by [(v - previous) * k]. *)
Fixpoint ema_rec (k : value A) (previous : value A) (later : list (value A))
  : value A :=
  match later with
  | [] => previous
  | v :: later' =>
      ema_rec k (plus A (times A (minus A v previous) k) previous) later'
  end.

(** EMA(period): seeded with the simple average of the first [period]
    values, and moved over the later ones with the multiplier
    [2 / (period + 1)]. *)
Definition EMA (period : nat) (values : list (value A)) : value A :=
  ema_rec (over A (count A 2) (count A (period + 1)))
          (simple_average (firstn period values))
          (skipn period values).

End Words.

(** The textbook form of the recurrence, on the exact rationals:
    [v * k + previous * (1 - k)]. *)
Fixpoint ema_textbook (k : Q) (previous : Q) (later : list Q) : Q :=
  match later with
  | [] => previous
  | v :: later' => ema_textbook k (v * k + previous * (1 - k))%Q later'
  end.

End IndicatorSpec.

(** ** [enrichWithIndicators] *)

Module Enrich.

Import Sanitizer Indicators.

(** The enriched response: the fields of the analysis, with a technical
    summary in which a property can hold [undefined] ([None]), as the
    indicator properties do when the history is too short. *)
Record EnrichedResponse : Type := {
  analysis : AnalysisResponse;
  enriched_summary : list (jsstring * option json)
}.

Definition num (q : option Q) : option json := option_map JNum q.

Definition enrichWithIndicators (a : AnalysisResponse) (ind : TechnicalIndicators)
  : EnrichedResponse :=
  {| analysis := a;
     enriched_summary :=
       map (fun kv => (fst kv, Some (snd kv))) (technical_summary a)
       ++ [ (js "bb_upper", num (option_map upper (bb ind)));
            (js "bb_lower", num (option_map lower (bb ind)));
            (js "bb_middle", num (option_map middle (bb ind)));
            (js "sma_20", num (sma_20 ind));
            (js "sma_50", num (sma_50 ind));
            (js "sma_200", num (sma_200 ind));
            (js "rsi", num (rsi ind));
            (js "macd", num (option_map macd (ind_macd ind))) ] |}.

End Enrich.

(** ** Market data cache of the analysis route ([POST]) *)

Module Cache.

Inductive data_type : Type := quote | daily.

Definition data_type_eqb (a b : data_type) : bool :=
  match a, b with
  | quote, quote | daily, daily => true
  | _, _ => false
  end.

(** A row of [stock_data_cache]; [fetched_at] in milliseconds since the
    epoch (an ISO timestamp and its millisecond count determine each other). *)
Record row : Type := {
  symbol : jsstring;
  kind : data_type;
  data : json;
  fetched_at : Z
}.

Definition table := list row.

Definition same_key (a b : row) : bool :=
  str_eqb (symbol a) (symbol b) && data_type_eqb (kind a) (kind b).

(** [.select("*").eq("symbol", s).eq("data_type", k).gte("fetched_at", since)] *)
Definition select (t : table) (s : jsstring) (k : data_type) (since : Z) : list row :=
  filter (fun r => str_eqb (symbol r) s && data_type_eqb (kind r) k
                   && (since <=? fetched_at r)%Z) t.

(** [.single()]: the row when exactly one matches, otherwise no data. *)
Definition single (rows : list row) : option row :=
  match rows with
  | [r] => Some r
  | _ => None
  end.

(** [.upsert(r, { onConflict: "symbol,data_type" })] *)
Fixpoint upsert (r : row) (t : table) : table :=
  match t with
  | [] => [r]
  | x :: t' => if same_key x r then r :: t' else x :: upsert r t'
  end.

Definition TWO_HOURS : Z := 2 * 60 * 60 * 1000.

Inductive event : Type :=
| LiveFetch (k : data_type) (s : jsstring)   (* getStockQuote / getDailyData *)
| CacheWrite (r : row).

Record loaded : Type := {
  outcome : result (json * json);   (* quote, dailyData *)
  events : list event;
  cache_after : table
}.

Section Route.

(** The market-data provider, and the clock: [now] is read once for the
    cache check, [t_quote] and [t_daily] when the rows are written. *)
Variable getStockQuote getDailyData : jsstring -> result json.
Variables now t_quote t_daily : Z.

Definition load_market_data (t : table) (sym : jsstring) : loaded :=
  let SYM := toUpperCase sym in
  let twoHoursAgo := (now - TWO_HOURS)%Z in
  let cachedQuote := single (select t SYM quote twoHoursAgo) in
  let cachedDaily := single (select t SYM daily twoHoursAgo) in
  match cachedQuote, cachedDaily with
  | Some q, Some d =>
      {| outcome := Ok (data q, data d); events := []; cache_after := t |}
  | _, _ =>
      let fetches := [LiveFetch quote SYM; LiveFetch daily SYM] in
      match getStockQuote SYM, getDailyData SYM with
      | Ok q, Ok d =>
          let rq := {| symbol := SYM; kind := quote; data := q; fetched_at := t_quote |} in
          let rd := {| symbol := SYM; kind := daily; data := d; fetched_at := t_daily |} in
          {| outcome := Ok (q, d);
             events := fetches ++ [CacheWrite rq; CacheWrite rd];
             cache_after := upsert rd (upsert rq t) |}
      | Throw e, _ | Ok _, Throw e =>
          {| outcome := Throw e; events := fetches; cache_after := t |}
      end
  end.

End Route.

(** The row the route inserts into [suggestions] once the analysis has
    returned. *)
Record suggestion_row : Type := {
  row_symbol : jsstring;
  row_signal_level : jsstring;
  row_action : jsstring;
  row_suggested_buy_price : json;
  row_suggested_sell_price : json;
  row_stop_loss_price : json;
  row_current_price : option json;
  row_risk_estimation : jsstring;
  row_reasoning : jsstring;
  row_technical_summary : list (jsstring * option json);
  row_confidence : Q;
  row_time_horizon : jsstring
}.

Definition suggestion_insert (sym : jsstring) (quote_data : json)
  (e : Enrich.EnrichedResponse) : suggestion_row :=
  let a := Enrich.analysis e in
  {| row_symbol := toUpperCase sym;
     row_signal_level := Sanitizer.signal_level a;
     row_action := Sanitizer.action a;
     row_suggested_buy_price := Sanitizer.suggested_buy_price a;
     row_suggested_sell_price := Sanitizer.suggested_sell_price a;
     row_stop_loss_price := Sanitizer.stop_loss_price a;
     row_current_price := opt_prop (Some quote_data) (js "price");
     row_risk_estimation := Sanitizer.risk_estimation a;
     row_reasoning := Sanitizer.reasoning a;
     row_technical_summary := Enrich.enriched_summary e;
     row_confidence := Sanitizer.confidence a;
     row_time_horizon := Sanitizer.time_horizon a |}.

End Cache.

(** ** Provider invoker with fallback ([analyzeWithGemini]) *)

Module Fallback.

Import Ranking Enrich.

Inductive api_version : Type := v1beta | v1.

Definition version_name (v : api_version) : jsstring :=
  match v with
  | v1beta => js "v1beta"
  | v1 => js "v1"
  end.

Definition VERSIONS : list api_version := [v1beta; v1].

Record request : Type := {
  req_model : jsstring;
  req_version : api_version
}.

(** What awaiting [fetch] gives: the promise rejects, or a response arrives
    with its status and body. *)
Inductive fetch_result : Type :=
| NetworkFailure
| Response (status : Z) (body : jsstring).

Definition attempt : Type := request * fetch_result.

(** [res.ok] *)
Definition ok (status : Z) : bool := (200 <=? status)%Z && (status <=? 299)%Z.

(** [v?.[0]] *)
Definition opt_first (v : option json) : option json :=
  match v with
  | Some (JArr (x :: _)) => Some x
  | Some (JStr (c :: _)) => Some (JStr [c])
  | Some (JObj m) => lookup (js "0") m
  | _ => None
  end.

(** [result.candidates?.[0]?.content?.parts?.[0]?.text] *)
Definition response_text (result : json) : Js.result (option json) :=
  match result with
  | JNull => Throw TypeError
  | _ =>
      let candidates := opt_prop (Some result) (js "candidates") in
      let content := opt_prop (opt_first candidates) (js "content") in
      let parts := opt_prop content (js "parts") in
      Ok (opt_prop (opt_first parts) (js "text"))
  end.

(** [!v] *)
Definition falsy (v : option json) : bool :=
  match v with
  | None | Some JNull | Some (JBool false) | Some (JStr []) => true
  | Some (JNum q) => Qeq_bool q 0
  | _ => false
  end.

(** How one iteration of the inner loop ends. *)
Inductive verdict : Type :=
| Leave (r : Js.result EnrichedResponse)   (* [return] or [throw] *)
| NextVersion                              (* [continue] *)
| NextModel (err : jsstring).              (* [errors.push(err); break] *)

Definition label (rq : request) : jsstring :=
  req_model rq ++ js "/" ++ version_name (req_version rq).

Definition QUOTA_ZERO : jsstring :=
  js "Gemini quota is 0 for your project. Enable billing at "
  ++ js "https://console.cloud.google.com/billing".
Definition RATE_LIMIT : jsstring :=
  js "Gemini rate limit hit. Wait a moment and try again.".

Section Search.

Variable num_toString : Q -> jsstring.

(** The request under analysis: its symbol, the quote price and the
    indicators of its price history. *)
Variable symbol : jsstring.
Variable price : Q.
Variable ind : Indicators.TechnicalIndicators.

(** The network: a world that answers one request at a time. *)
Variable world : Type.
Variable fetch : world -> request -> fetch_result * world.

(** Lines 488-490: parse, sanitize, enrich. *)
Definition complete (text : jsstring) : Js.result EnrichedResponse :=
  try! raw <- Repair.parseJsonResponse text;
  try! analysis <- Sanitizer.sanitizeAnalysis num_toString raw symbol price;
  Ok (enrichWithIndicators analysis ind).

(** The body of the inner loop after [fetch] has answered. *)
Definition judge (rq : request) (r : fetch_result) : verdict :=
  match r with
  | NetworkFailure => Leave (Throw TypeError)
  | Response status body =>
      if ok status then
        match Json.parse body with
        | Throw e => Leave (Throw e)
        | Ok result =>
            match response_text result with
            | Throw e => Leave (Throw e)
            | Ok text =>
                if falsy text then NextModel (label rq ++ js ": empty response")
                else
                  match text with
                  | Some (JStr t) => Leave (complete t)
                  | _ => Leave (Throw TypeError)
                  end
            end
        end
      else if (status =? 429)%Z then
        Leave (Throw (Error (if includes (js "limit: 0") body
                             then QUOTA_ZERO else RATE_LIMIT)))
      else if (status =? 404)%Z then NextVersion
      else NextModel (label rq ++ js ": HTTP " ++ Z_to_js status)
  end.

(** How a loop ends: by leaving the function, or by running on with the
    errors it pushed. *)
Inductive loop_exit : Type :=
| Left (r : Js.result EnrichedResponse)
| Continue (errors : list jsstring).

Record run : Type := {
  exit : loop_exit;
  trace : list attempt;
  world_after : world
}.

(** [for (const version of ...)]: the inner loop for one model. *)
Fixpoint try_versions (model : jsstring) (versions : list api_version) (w : world)
  : run :=
  match versions with
  | [] => {| exit := Continue []; trace := []; world_after := w |}
  | v :: versions' =>
      let rq := {| req_model := model; req_version := v |} in
      let (r, w1) := fetch w rq in
      match judge rq r with
      | Leave res => {| exit := Left res; trace := [(rq, r)]; world_after := w1 |}
      | NextModel err =>
          {| exit := Continue [err]; trace := [(rq, r)]; world_after := w1 |}
      | NextVersion =>
          let k := try_versions model versions' w1 in
          {| exit := exit k; trace := (rq, r) :: trace k;
             world_after := world_after k |}
      end
  end.

(** [for (const model of candidates)]: the outer loop. *)
Fixpoint try_models (candidates : list jsstring) (w : world) : run :=
  match candidates with
  | [] => {| exit := Continue []; trace := []; world_after := w |}
  | model :: candidates' =>
      let k := try_versions model VERSIONS w in
      match exit k with
      | Left res => k
      | Continue errs =>
          let k' := try_models candidates' (world_after k) in
          {| exit := match exit k' with
                     | Left res => Left res
                     | Continue errs' => Continue (errs ++ errs')
                     end;
             trace := trace k ++ trace k';
             world_after := world_after k' |}
      end
  end.

Definition all_failed (candidates errors : list jsstring) : jsstring :=
  js "All Gemini models failed. Tried: " ++ join (js ", ") candidates ++ js ". "
  ++ js "Errors: " ++ join (js "; ") errors ++ js ". "
  ++ js "Set AI_PROVIDER=groq in .env.local as a free alternative.".

Definition no_usable_model (available : list GeminiModel) : jsstring :=
  let allNames :=
    join (js ", ") (map (fun m => replace_first (js "models/") [] (name m)) available) in
  js "No Gemini model supports text generateContent for your API key. "
  ++ js "Available models: [" ++ (match allNames with [] => js "none" | _ => allNames end)
  ++ js "]. "
  ++ js "Make sure billing is enabled and the Generative Language API is active. "
  ++ js "Or set AI_PROVIDER=groq in .env.local as a free alternative.".

(** What a call of [analyzeWithGemini] comes to: what it returns or throws,
    and the requests it made, in order, each with its answer. *)
Record call : Type := {
  result : Js.result EnrichedResponse;
  requests : list attempt;
  final_world : world
}.

(** [analyzeWithGemini], from the list of discovered models on (the key
    lookup, the prompt and the discovery request come before). *)
Definition analyzeWithGemini (available : list GeminiModel) (w : world) : call :=
  let candidates := rankModels available in
  match candidates with
  | [] => {| result := Throw (Error (no_usable_model available));
             requests := []; final_world := w |}
  | _ =>
      let k := try_models candidates w in
      {| result := match exit k with
                   | Left res => res
                   | Continue errors => Throw (Error (all_failed candidates errors))
                   end;
         requests := trace k;
         final_world := world_after k |}
  end.

End Search.

Arguments exit {world} r.
Arguments trace {world} r.
Arguments world_after {world} r.
Arguments result {world} c.
Arguments requests {world} c.
Arguments final_world {world} c.

End Fallback.

(* ================================================================== *)
(** * Part II: properties *)
(* ================================================================== *)

(** ** Strings and objects *)

Module JsFacts.

(** A literal evaluates to the list of its code units, so a string that
    starts with one is not empty. *)
Lemma literal_prefix_nonempty (c : ascii) (s : string) (rest : jsstring) :
  js (String c s) ++ rest <> [].
Proof. unfold js. simpl. discriminate. Qed.

Lemma lookup_app (k : jsstring) (a b : object) :
  lookup k (a ++ b) =
  match lookup k b with
  | Some v => Some v
  | None => lookup k a
  end.
Proof.
  induction a as [ | [k' v] a IH]; simpl.
  - now destruct (lookup k b).
  - rewrite IH. now destruct (lookup k b).
Qed.

Lemma str_eqb_eq (a b : jsstring) : str_eqb a b = true <-> a = b.
Proof.
  revert b. induction a as [ | x a IH]; intros [ | y b]; simpl;
    try (split; [discriminate | discriminate]); [tauto | ].
  rewrite andb_true_iff, N.eqb_eq, IH. split.
  - intros [-> ->]. reflexivity.
  - intros H. injection H as -> ->. auto.
Qed.

Lemma opt_prop_object (m : object) (k : jsstring) :
  opt_prop (Some (JObj m)) k = lookup k m.
Proof. reflexivity. Qed.

End JsFacts.

(** ** The sanitizer *)

Module SanitizerFacts.

Import Sanitizer JsFacts.

(** [toFixed] prints the double, not the decimal it was written as:
    [2.675.toFixed(2)] is 2.67, the double lying just below 2.675. *)
Lemma toFixed2_prints_the_double :
  toFixed2 (fun _ => []) (2675 # 1000) = js "2.67"
  /\ toFixed2 (fun _ => []) (2665 # 1000) = js "2.67"
  /\ toFixed2 (fun _ => []) (inject_Z 100) = js "100.00"
  /\ toFixed2 (fun _ => []) (- (1 # 1000)) = js "-0.00".
Proof. repeat split; vm_compute; reflexivity. Qed.

Lemma math_max_lower (a b : Q) : (a <= math_max a b)%Q.
Proof.
  unfold math_max. destruct (Qle_bool a b) eqn:E.
  - now apply Qle_bool_iff.
  - apply Qle_refl.
Qed.

Lemma math_min_bounds (lo hi x : Q) :
  (lo <= hi)%Q -> (lo <= x)%Q -> (lo <= math_min hi x <= hi)%Q.
Proof.
  intros Hlh Hx. unfold math_min. destruct (Qle_bool hi x) eqn:E.
  - split; [exact Hlh | apply Qle_refl].
  - split; [exact Hx |].
    destruct (Qlt_le_dec x hi) as [H | H].
    + now apply Qlt_le_weak.
    + apply Qle_bool_iff in H. congruence.
Qed.

Lemma clamp_confidence_range (v : option json) :
  (0 <= clamp_confidence v <= 1)%Q.
Proof.
  unfold clamp_confidence.
  destruct v as [[ | b | c | s | l | m] | ];
    try (split; discriminate).
  apply math_min_bounds; [discriminate | apply math_max_lower].
Qed.

(** The field is absent, [null] or a string: what its declared type
    [string | undefined] admits once the value has gone through JSON. *)
Definition string_if_present (v : option json) : Prop :=
  v = None \/ v = Some JNull \/ exists s, v = Some (JStr s).

(** The field is absent, [null] or a string of blanks. *)
Definition absent_or_blank (v : option json) : Prop :=
  v = None \/ v = Some JNull \/ exists s, v = Some (JStr s) /\ trim s = [].

Definition numeric (v : option json) : Prop := exists q, v = Some (JNum q).

Lemma trim_or_string (v : option json) (d : jsstring) :
  string_if_present v -> d <> [] ->
  exists t, trim_or v (Ok d) = Ok t /\ t <> [] /\ (absent_or_blank v -> t = d).
Proof.
  intros Hv Hd. destruct Hv as [-> | [-> | [s ->]]].
  - exists d. simpl. auto.
  - exists d. simpl. auto.
  - simpl. destruct (trim s) as [ | c t] eqn:E.
    + exists d. auto.
    + exists (c :: t). repeat split; [discriminate |].
      intros [H | [H | [s' [H1 H2]]]]; try discriminate.
      injection H1 as <-. congruence.
Qed.

Lemma enum_or_valid (valid : list jsstring) (s dflt : jsstring) :
  existsb (str_eqb s) valid = true -> enum_or valid (Some (JStr s)) dflt = s.
Proof. intros H. simpl. now rewrite H. Qed.

Lemma enum_or_invalid (valid : list jsstring) (v : option json) (dflt : jsstring) :
  arr_includes valid v = false -> enum_or valid v dflt = dflt.
Proof.
  destruct v as [[ | b | c | s | l | m] | ]; simpl; try reflexivity.
  now intros ->.
Qed.

Section Guarantees.

Variable num_toString : Q -> jsstring.

(** The signal level, or the literal that stands in for a missing one,
    converts to a string without throwing. *)
Definition convertible (v : option json) : Prop :=
  exists s, toString num_toString (nullish v (JStr (js "weak"))) = Ok s.

Lemma convertible_primitive (v : option json) :
  match v with Some (JArr _) | Some (JObj _) => False | _ => True end ->
  convertible v.
Proof.
  unfold convertible.
  destruct v as [[ | [ | ] | c | s | l | m] | ]; simpl; intros H;
    try contradiction; eauto.
Qed.

(** What the sanitizer is said to guarantee about one call. *)
Definition guarantees (raw : json) (symbol : jsstring) (currentPrice : Q) : Prop :=
  exists r,
    sanitizeAnalysis num_toString raw symbol currentPrice = Ok r
    /\ reasoning r <> []
    /\ time_horizon r <> []
    /\ (absent_or_blank (opt_prop (Some raw) (js "time_horizon")) ->
        time_horizon r = js "N/A")
    /\ (0 <= confidence r <= 1)%Q
    /\ (~ numeric (opt_prop (Some raw) (js "confidence")) ->
        confidence r = (1 # 2)%Q).

Lemma trim_or_cases (v : option json) (d : result jsstring) :
  string_if_present v ->
  (absent_or_blank v /\ trim_or v d = d)
  \/ (exists t, trim_or v d = Ok t /\ t <> [] /\ ~ absent_or_blank v).
Proof.
  intros [-> | [-> | [s ->]]].
  - left. split; [now left | reflexivity].
  - left. split; [right; now left | reflexivity].
  - simpl. destruct (trim s) as [ | c t] eqn:E.
    + left. split; [ | reflexivity]. right. right. now exists s.
    + right. exists (c :: t). split; [reflexivity | ]. split; [discriminate | ].
      intros [H | [H | (s' & H1 & H2)]]; try discriminate.
      injection H1 as <-. congruence.
Qed.

(** What holds of well-typed fields.  For every parsed object whose
    [reasoning] and [time_horizon] are each absent, null or a string, and
    whose [signal_level], when the reasoning is absent or blank and the
    level has to be printed, converts to a string without throwing,
    [sanitizeAnalysis] returns a result whose [reasoning] is a non-empty
    string, whose [time_horizon] is a non-empty string (the literal N/A when
    the field is absent or blank), and whose [confidence] lies in [0,1], a
    non-numeric confidence being replaced by 0.5.  The empty object is such
    an object. *)
Theorem sanitize_guarantees_typed (m : object) (symbol : jsstring) (currentPrice : Q) :
  string_if_present (lookup (js "reasoning") m) ->
  string_if_present (lookup (js "time_horizon") m) ->
  (absent_or_blank (lookup (js "reasoning") m) ->
   convertible (lookup (js "signal_level") m)) ->
  guarantees (JObj m) symbol currentPrice.
Proof.
  intros Hr Ht Hlvl.
  unfold guarantees, sanitizeAnalysis.
  cbv beta iota zeta. rewrite !opt_prop_object.
  assert (Hreason : exists t,
             trim_or (lookup (js "reasoning") m)
               (try! lvl <- toString num_toString
                              (nullish (lookup (js "signal_level") m) (JStr (js "weak")));
                Ok (synthesized_reasoning num_toString symbol currentPrice lvl))
             = Ok t /\ t <> []).
  { destruct (trim_or_cases (lookup (js "reasoning") m)
                (try! lvl <- toString num_toString
                               (nullish (lookup (js "signal_level") m) (JStr (js "weak")));
                 Ok (synthesized_reasoning num_toString symbol currentPrice lvl)) Hr)
      as [[Hblank E] | (t & E & Hne & _)].
    - destruct (Hlvl Hblank) as [lvl El]. rewrite E, El. cbv beta iota delta [bind].
      eexists. split; [reflexivity | apply literal_prefix_nonempty].
    - now exists t. }
  destruct Hreason as (t & Et & Hne). rewrite Et. cbv beta iota delta [bind].
  assert (Hna : js "N/A" <> []) by discriminate.
  destruct (trim_or_string (lookup (js "time_horizon") m) (js "N/A") Ht Hna)
    as (h & Eh & Hh & Hdef).
  rewrite Eh.
  eexists. split; [reflexivity |]. cbn [reasoning time_horizon confidence].
  repeat split; try assumption.
  - apply clamp_confidence_range.
  - apply clamp_confidence_range.
  - intros Hn. unfold clamp_confidence.
    destruct (lookup (js "confidence") m) as [[ | b | c | s | l | o] | ];
      try reflexivity.
    exfalso. apply Hn. now exists c.
Qed.

End Guarantees.

(** A [Number::toString] to run the examples with; none of them prints a
    number through it. *)
Definition no_digits (q : Q) : jsstring := [].

Lemma sanitize_guarantees_typed_witness :
  guarantees no_digits (JObj []) (js "AAPL") (inject_Z 100).
Proof.
  apply (sanitize_guarantees_typed no_digits [] (js "AAPL") (inject_Z 100)).
  - left. reflexivity.
  - left. reflexivity.
  - intros _. exists (js "weak"). reflexivity.
Defined.

(** C1.  The sanitizer does not return a result for every parsed object: on
    [{reasoning: 5}], which [JSON.parse] can produce, [raw.reasoning?.trim()]
    is called on a number and throws a TypeError, so no result with a
    non-empty reasoning is returned, against the comment that a non-empty
    string is always supplied there; the same happens on [{time_horizon:
    5}]; and the sibling field [confidence] guards the type of what it
    reads: on [{confidence: '5'}] a result is returned, with confidence
    0.5. *)
Theorem sanitize_throws_on_numeric_reasoning :
  sanitizeAnalysis no_digits (JObj [(js "reasoning", JNum (inject_Z 5))])
                   (js "AAPL") (inject_Z 100) = Throw TypeError
  /\ ~ guarantees no_digits (JObj [(js "reasoning", JNum (inject_Z 5))])
                  (js "AAPL") (inject_Z 100)
  /\ sanitizeAnalysis no_digits (JObj [(js "time_horizon", JNum (inject_Z 5))])
                      (js "AAPL") (inject_Z 100) = Throw TypeError
  /\ guarantees no_digits (JObj [(js "confidence", JStr (js "5"))])
                (js "AAPL") (inject_Z 100).
Proof.
  assert (E : sanitizeAnalysis no_digits (JObj [(js "reasoning", JNum (inject_Z 5))])
                (js "AAPL") (inject_Z 100) = Throw TypeError)
    by (vm_compute; reflexivity).
  split; [exact E |].
  split; [intros (r & Hr & _); rewrite E in Hr; discriminate | ].
  split; [vm_compute; reflexivity | ].
  apply sanitize_guarantees_typed.
  - left. reflexivity.
  - left. reflexivity.
  - intros _. exists (js "weak"). reflexivity.
Qed.

(** The refinement of the hypothesis matters: with a reasoning of its own,
    an object whose [signal_level] cannot be printed is sanitized all the
    same. *)
Lemma sanitize_unprintable_signal_with_reasoning :
  guarantees no_digits
    (JObj [ (js "reasoning", JStr (js "Fine."));
            (js "signal_level", JObj [(js "toString", JNull)]) ])
    (js "AAPL") (inject_Z 100).
Proof.
  apply sanitize_guarantees_typed.
  - right. right. now exists (js "Fine.").
  - left. reflexivity.
  - intros [H | [H | (s & H1 & H2)]]; try discriminate.
    injection H1 as <-. vm_compute in H2. discriminate.
Qed.

(** *** Enumerated fields *)

Lemma sanitize_object_inv (ns : Q -> jsstring) (m : object) (sym : jsstring)
  (price : Q) (r : AnalysisResponse) :
  sanitizeAnalysis ns (JObj m) sym price = Ok r ->
  symbol r = nullish (lookup (js "symbol") m) (JStr sym)
  /\ signal_level r = enum_or VALID_SIGNALS (lookup (js "signal_level") m) (js "weak")
  /\ action r = enum_or VALID_ACTIONS (lookup (js "action") m) (js "watch")
  /\ risk_estimation r
     = enum_or VALID_RISKS (lookup (js "risk_estimation") m) (js "moderate")
  /\ lookup (js "trend") (technical_summary r)
     = match lookup (js "trend") (own_props (lookup (js "technical_summary") m)) with
       | Some v => Some v
       | None =>
           Some (JStr (enum_or VALID_TRENDS
                         (opt_prop (lookup (js "technical_summary") m) (js "trend"))
                         (js "neutral")))
       end.
Proof.
  unfold sanitizeAnalysis. cbv beta iota zeta. rewrite !opt_prop_object.
  destruct (trim_or (lookup (js "reasoning") m) _) as [t | e]; [ | discriminate].
  cbv beta iota delta [bind].
  destruct (trim_or (lookup (js "time_horizon") m) _) as [h | e]; [ | discriminate].
  intros H. injection H as <-.
  cbn [symbol signal_level action risk_estimation technical_summary].
  repeat split.
  match goal with
  | |- lookup _ (?a :: ?b :: ?c :: ?d :: ?rest) = _ =>
      change (a :: b :: c :: d :: rest) with ([a; b; c; d] ++ rest)
  end.
  rewrite lookup_app.
  destruct (lookup (js "trend") (own_props _)); reflexivity.
Qed.

Lemma enum_or_in (valid : list jsstring) (v : option json) (d : jsstring) :
  In d valid -> In (enum_or valid v d) valid.
Proof.
  intros Hd. unfold enum_or.
  destruct v as [[ | b | c | s | l | o] | ]; try exact Hd.
  destruct (existsb (str_eqb s) valid) eqn:Ex; [ | exact Hd].
  apply existsb_exists in Ex. destruct Ex as (x & Hx & Hsx).
  apply str_eqb_eq in Hsx. now subst.
Qed.

(** The three top-level enumerated fields always end up inside their
    enumerated sets. *)
Lemma top_level_enums (ns : Q -> jsstring) (m : object) (sym : jsstring)
  (price : Q) (r : AnalysisResponse) :
  sanitizeAnalysis ns (JObj m) sym price = Ok r ->
  In (signal_level r) VALID_SIGNALS
  /\ In (action r) VALID_ACTIONS
  /\ In (risk_estimation r) VALID_RISKS.
Proof.
  intros H. destruct (sanitize_object_inv _ _ _ _ _ H) as (_ & -> & -> & -> & _).
  repeat split; apply enum_or_in; vm_compute; tauto.
Qed.

(** C2: evaluation at the failing input.  The parsed object
    [{technical_summary: {trend: up}}] has a trend outside the enumerated
    set; the spread of [raw.technical_summary] comes after the validated
    [trend] in the object literal and overrides it, so the result keeps the
    trend [up] instead of the default [neutral].  The three top-level
    enumerated fields, absent here, do get their defaults. *)
Lemma sanitize_keeps_invalid_trend :
  exists r,
    sanitizeAnalysis no_digits
      (JObj [(js "technical_summary", JObj [(js "trend", JStr (js "up"))])])
      (js "AAPL") (inject_Z 100) = Ok r
    /\ signal_level r = js "weak"
    /\ action r = js "watch"
    /\ risk_estimation r = js "moderate"
    /\ lookup (js "trend") (technical_summary r) = Some (JStr (js "up"))
    /\ lookup (js "trend") (technical_summary r) <> Some (JStr (js "neutral")).
Proof.
  eexists. split; [vm_compute; reflexivity | ].
  repeat split; try (vm_compute; reflexivity).
  vm_compute. discriminate.
Qed.

(** *** The symbol *)

(** C10.  When [sanitizeAnalysis] returns, the symbol of the result is the
    parsed object's own [symbol] whenever that is present (defined and not
    null, which is what the nullish test checks), whatever its value, and the
    caller's symbol only when it is absent; so an echoed symbol that differs
    from the requested one is kept.  The row inserted into [suggestions]
    carries the requested symbol in upper case, whatever the analysis
    holds. *)
Theorem sanitize_symbol_from_parsed (ns : Q -> jsstring) (m : object)
  (sym : jsstring) (price : Q) (r : AnalysisResponse) :
  sanitizeAnalysis ns (JObj m) sym price = Ok r ->
  (forall v, lookup (js "symbol") m = Some v -> v <> JNull -> symbol r = v)
  /\ (lookup (js "symbol") m = None \/ lookup (js "symbol") m = Some JNull ->
      symbol r = JStr sym)
  /\ (forall v, lookup (js "symbol") m = Some v -> v <> JNull -> v <> JStr sym ->
      symbol r <> JStr sym)
  /\ (forall quote_data ind,
        Cache.row_symbol
          (Cache.suggestion_insert sym quote_data (Enrich.enrichWithIndicators r ind))
        = toUpperCase sym).
Proof.
  intros H. destruct (sanitize_object_inv _ _ _ _ _ H) as (Hs & _).
  rewrite Hs. repeat split.
  - intros v -> Hv. destruct v; try reflexivity. now elim Hv.
  - intros [-> | ->]; reflexivity.
  - intros v -> Hv Hd. destruct v; try exact Hd. now elim Hv.
Qed.

Lemma sanitize_symbol_from_parsed_witness :
  exists r,
    sanitizeAnalysis no_digits (JObj [(js "symbol", JStr (js "MSFT"))])
                     (js "aapl") (inject_Z 100) = Ok r
    /\ symbol r = JStr (js "MSFT")
    /\ symbol r <> JStr (js "aapl")
    /\ Cache.row_symbol
         (Cache.suggestion_insert (js "aapl") JNull
            (Enrich.enrichWithIndicators r
               {| Indicators.sma_20 := None; Indicators.sma_50 := None;
                  Indicators.sma_200 := None; Indicators.rsi := None;
                  Indicators.bb := None; Indicators.ind_macd := None |}))
       = js "AAPL".
Proof.
  eexists. split; [vm_compute; reflexivity | ].
  match goal with
  | |- symbol ?r = _ /\ _ =>
      destruct (sanitize_symbol_from_parsed no_digits
                  [(js "symbol", JStr (js "MSFT"))] (js "aapl") (inject_Z 100) r)
        as (Hp & _ & Hd & Hrow)
  end.
  - vm_compute; reflexivity.
  - split; [apply Hp; [reflexivity | discriminate] | ].
    split; [apply (Hd (JStr (js "MSFT")));
            [reflexivity | discriminate | vm_compute; discriminate] | ].
    rewrite Hrow. vm_compute; reflexivity.
Defined.

(** The condition on the signal level is needed as well: with no reasoning,
    the template literal converts the signal level to a string, and an
    object with an own [toString] property cannot be converted. *)
Lemma sanitize_throws_on_unprintable_signal :
  sanitizeAnalysis no_digits
    (JObj [(js "signal_level", JObj [(js "toString", JNull)])])
    (js "AAPL") (inject_Z 100) = Throw TypeError.
Proof. vm_compute. reflexivity. Qed.

End SanitizerFacts.

(** ** The repair parser *)

Module RepairFacts.

Import Repair.

Definition truncated : jsstring := jsq "{'symbol':'AAPL','signal_level':'buy".

(** C8.  On the truncated text [{'symbol':'AAPL','signal_level':'buy] (read
    each apostrophe as a double quote) there is no fence and no closing brace
    to cut at, the strict parse fails, the repair finds one open brace and an
    odd number of quotes, closes the string and appends the brace, and
    [parseJsonResponse] returns the parsed object with its two properties
    instead of raising. *)
Theorem parseJsonResponse_repairs_truncated :
  extract_object (strip_fences truncated) = truncated
  /\ Json.parse truncated = Throw SyntaxError
  /\ count_unit (Json.ch "{") truncated = 1
  /\ count_unit (Json.ch "}") truncated = 0
  /\ count_unescaped_quotes false truncated = 7
  /\ repair truncated = truncated ++ [Json.QUOTE; Json.ch "}"]
  /\ parseJsonResponse truncated
     = Ok (JObj [ (js "symbol", JStr (js "AAPL"));
                  (js "signal_level", JStr (js "buy")) ]).
Proof.
  assert (Hclean : extract_object (strip_fences truncated) = truncated)
    by (vm_compute; reflexivity).
  assert (Hstrict : Json.parse truncated = Throw SyntaxError)
    by (vm_compute; reflexivity).
  assert (Hrepair : repair truncated = truncated ++ [Json.QUOTE; Json.ch "}"])
    by (vm_compute; reflexivity).
  split; [exact Hclean | ]. split; [exact Hstrict | ].
  split; [vm_compute; reflexivity | ]. split; [vm_compute; reflexivity | ].
  split; [vm_compute; reflexivity | ]. split; [exact Hrepair | ].
  unfold parseJsonResponse. rewrite Hclean, Hstrict, Hrepair.
  vm_compute. reflexivity.
Qed.

End RepairFacts.

(** ** Model ranking *)

Module DoubleFacts.

Import Double.
Local Open Scope Q_scope.

Lemma pow2_pos (k : Z) : 0 < pow2 k.
Proof. apply Qpower_0_lt. reflexivity. Qed.

Lemma pow2_add (a b : Z) : pow2 (a + b) == pow2 a * pow2 b.
Proof. apply Qpower_plus. discriminate. Qed.

Lemma pow2_le (a b : Z) : (a <= b)%Z -> pow2 a <= pow2 b.
Proof. intros H. apply Qpower_le_compat_l; [exact H | discriminate]. Qed.

Lemma pow2_Z (k : Z) : (0 <= k)%Z -> pow2 k == inject_Z (2 ^ k).
Proof. intros H. unfold pow2. now rewrite Zpower_Qpower. Qed.

Lemma pow2_cancel (k : Z) : pow2 k * pow2 (- k) == 1.
Proof. rewrite <- pow2_add. now replace (k + - k)%Z with 0%Z by lia. Qed.

(** Rounding to the nearest integer keeps to the side of an integer bound. *)
Lemma rne_floor (y : Q) : (Qfloor y <= rne y <= Qfloor y + 1)%Z.
Proof.
  unfold rne. destruct (Qcompare _ _); [destruct (Z.even _) | | ]; lia.
Qed.

Lemma rne_ge (y : Q) (k : Z) : inject_Z k <= y -> (k <= rne y)%Z.
Proof.
  intros H. apply Qfloor_resp_le in H. rewrite Qfloor_Z in H.
  pose proof (rne_floor y). lia.
Qed.

Lemma rne_le (y : Q) (k : Z) : y <= inject_Z k -> (rne y <= k)%Z.
Proof.
  intros H. destruct (Qlt_le_dec y (inject_Z k)) as [Hlt | Hge].
  - assert (Hf : (Qfloor y < k)%Z).
    { destruct (Z_lt_le_dec (Qfloor y) k) as [ | Hk]; [assumption | ].
      exfalso. pose proof (Qfloor_le y) as Hfl.
      assert (inject_Z k <= inject_Z (Qfloor y)) by (rewrite <- Zle_Qle; exact Hk).
      lra. }
    pose proof (rne_floor y). lia.
  - assert (E : y == inject_Z k) by lra.
    assert (Hfl : Qfloor y = k) by (rewrite (Qfloor_comp _ _ E); apply Qfloor_Z).
    unfold rne. rewrite Hfl.
    assert (C : Qcompare (y - inject_Z k) (1 # 2) = Lt).
    { apply (proj1 (Qlt_alt _ _)). lra. }
    rewrite C. lia.
Qed.

Lemma floor_log2_le (a : Q) : 0 < a -> pow2 (floor_log2 a) <= a.
Proof.
  intros Ha. unfold floor_log2. cbv zeta.
  destruct (Qle_bool (pow2 _) a) eqn:E; [now apply Qle_bool_iff | ].
  destruct a as [n d]. cbn [Qnum Qden].
  assert (Hn : (0 < n)%Z) by (unfold Qlt in Ha; simpl in Ha; lia).
  pose proof (Z.log2_spec n Hn) as [Hn1 _].
  pose proof (Z.log2_spec (Zpos d) (Pos2Z.is_pos d)) as [_ Hd2].
  pose proof (Z.log2_nonneg n) as Ln. pose proof (Z.log2_nonneg (Zpos d)) as Ld.
  (* n / d >= 2^ln / 2^(ld+1) *)
  assert (H1 : pow2 (Z.log2 n) <= inject_Z n).
  { rewrite pow2_Z by lia. rewrite <- Zle_Qle. exact Hn1. }
  assert (H2 : inject_Z (Zpos d) <= pow2 (Z.log2 (Zpos d) + 1)).
  { rewrite pow2_Z by lia. rewrite <- Zle_Qle. unfold Z.succ in Hd2. lia. }
  assert (E1 : pow2 (Z.log2 n - Z.log2 (Zpos d) - 1) * pow2 (Z.log2 (Zpos d) + 1)
               == pow2 (Z.log2 n)).
  { rewrite <- pow2_add. now replace (Z.log2 n - Z.log2 (Z.pos d) - 1
                                       + (Z.log2 (Z.pos d) + 1))%Z
      with (Z.log2 n) by lia. }
  pose proof (pow2_pos (Z.log2 n - Z.log2 (Zpos d) - 1)) as P.
  assert (Hq : n # d == inject_Z n / inject_Z (Zpos d)) by apply Qmake_Qdiv.
  rewrite Hq. apply Qle_shift_div_l.
  - unfold Qlt. simpl. lia.
  - assert (pow2 (Z.log2 n - Z.log2 (Z.pos d) - 1) * inject_Z (Z.pos d)
            <= pow2 (Z.log2 n - Z.log2 (Z.pos d) - 1) * pow2 (Z.log2 (Z.pos d) + 1)).
    { apply Qmult_le_l; [exact P | exact H2]. }
    lra.
Qed.

Lemma quantum_bounds (a : Q) :
  0 < a -> (-1074 <= quantum a)%Z /\ (quantum a = (-1074)%Z \/ pow2 (quantum a + 52) <= a).
Proof.
  intros Ha. unfold quantum. split; [lia | ].
  destruct (Z.max_spec (floor_log2 a - 52) (-1074)) as [[_ ->] | [_ ->]].
  - now left.
  - right. replace (floor_log2 a - 52 + 52)%Z with (floor_log2 a) by lia.
    now apply floor_log2_le.
Qed.

(** The value that [round_magnitude] stands for. *)
Lemma round_magnitude_value (a : Q) :
  let r := inject_Z (rne (a / pow2 (quantum a))) * pow2 (quantum a) in
  match round_magnitude a with
  | None => pow2 1024 <= r
  | Some r' => r' == r /\ r < pow2 1024
  end.
Proof.
  cbv zeta. unfold round_magnitude. cbv zeta.
  destruct (Qle_bool (pow2 1024) _) eqn:E.
  - now apply Qle_bool_iff.
  - split; [apply Qred_correct | ].
    apply Qnot_le_lt. intros H. apply Qle_bool_iff in H. congruence.
Qed.

(** An integer of at most 53 bits is a double: rounding does not cross it. *)
Lemma round_magnitude_ge (a : Q) (n : Z) :
  (0 < n < 2 ^ 53)%Z -> inject_Z n <= a ->
  match round_magnitude a with
  | None => True
  | Some r => inject_Z n <= r
  end.
Proof.
  intros Hn Hna.
  assert (Ha : 0 < a).
  { assert (0 < inject_Z n) by (unfold Qlt; simpl; lia). lra. }
  pose proof (round_magnitude_value a) as Hv. cbv zeta in Hv.
  destruct (round_magnitude a) as [r | ]; [ | exact I].
  destruct Hv as [Hr _]. rewrite Hr.
  set (q := quantum a) in *.
  pose proof (pow2_pos q) as Pq.
  destruct (Z_le_gt_dec q 0) as [Hq | Hq].
  - (* n is a multiple of the quantum *)
    assert (Hk : inject_Z n == inject_Z (n * 2 ^ (- q)) * pow2 q).
    { rewrite inject_Z_mult, <- pow2_Z by lia.
      rewrite <- Qmult_assoc, (Qmult_comm (pow2 (- q))), pow2_cancel. ring. }
    rewrite Hk. apply Qmult_le_r; [exact Pq | ].
    rewrite <- Zle_Qle. apply rne_ge.
    apply Qle_shift_div_l; [exact Pq | ]. rewrite <- Hk. exact Hna.
  - destruct (quantum_bounds a Ha) as [_ [Hc | Hc]]; [fold q in Hc; lia | ].
    fold q in Hc.
    assert (H52 : inject_Z (2 ^ 52) <= a / pow2 q).
    { apply Qle_shift_div_l; [exact Pq | ].
      rewrite <- pow2_Z by lia. rewrite <- pow2_add.
      now replace (52 + q)%Z with (q + 52)%Z by lia. }
    apply rne_ge in H52.
    assert (inject_Z (2 ^ 52) <= inject_Z (rne (a / pow2 q)))
      by (rewrite <- Zle_Qle; exact H52).
    assert (Hp1 : 2 <= pow2 q).
    { change 2 with (pow2 1). apply pow2_le. lia. }
    assert (Hn' : inject_Z n <= inject_Z (2 ^ 53)) by (rewrite <- Zle_Qle; lia).
    assert (E53 : inject_Z (2 ^ 53) == inject_Z (2 ^ 52) * 2) by reflexivity.
    assert (0 < inject_Z (2 ^ 52)) by reflexivity.
    rewrite E53 in Hn'.
    set (c := inject_Z (2 ^ 52)) in *. set (R := inject_Z (rne (a / pow2 q))) in *.
    nra.
Qed.

Lemma round_magnitude_le (a : Q) (n : Z) :
  (0 < n < 2 ^ 53)%Z -> 0 < a -> a <= inject_Z n ->
  exists r, round_magnitude a = Some r /\ r <= inject_Z n.
Proof.
  intros Hn Ha Hna.
  pose proof (round_magnitude_value a) as Hv. cbv zeta in Hv.
  set (q := quantum a) in *.
  pose proof (pow2_pos q) as Pq.
  assert (Hq : (q <= 0)%Z).
  { destruct (Z_le_gt_dec q 0) as [ | Hq]; [assumption | exfalso].
    destruct (quantum_bounds a Ha) as [_ [Hc | Hc]]; fold q in Hc; [lia | ].
    assert (pow2 53 <= pow2 (q + 52)) by (apply pow2_le; lia).
    assert (inject_Z n < pow2 53).
    { rewrite pow2_Z by lia. rewrite <- Zlt_Qlt. lia. }
    lra. }
  assert (Hk : inject_Z n == inject_Z (n * 2 ^ (- q)) * pow2 q).
  { rewrite inject_Z_mult, <- pow2_Z by lia.
    rewrite <- Qmult_assoc, (Qmult_comm (pow2 (- q))), pow2_cancel. ring. }
  assert (Hle : inject_Z (rne (a / pow2 q)) * pow2 q <= inject_Z n).
  { rewrite Hk. apply Qmult_le_r; [exact Pq | ].
    rewrite <- Zle_Qle. apply rne_le.
    apply Qle_shift_div_r; [exact Pq | ]. rewrite <- Hk. exact Hna. }
  destruct (round_magnitude a) as [r | ].
  - exists r. split; [reflexivity | ]. destruct Hv as [Hr _]. now rewrite Hr.
  - exfalso.
    assert (inject_Z n < pow2 1024).
    { rewrite pow2_Z by lia. rewrite <- Zlt_Qlt.
      assert (2 ^ 53 < 2 ^ 1024)%Z by (apply Z.pow_lt_mono_r; lia). lia. }
    lra.
Qed.


(** ** Numbers *)

Definition nonneg (a : number) : Prop :=
  match a with
  | Finite x => 0 <= x
  | PosInf => True
  | _ => False
  end.

(** [a] is a number, and at least the integer [n]. *)
Definition at_least (n : Z) (a : number) : Prop :=
  match a with
  | Finite x => inject_Z n <= x
  | PosInf => True
  | _ => False
  end.

(** [a] is a finite number between 0 and the integer [n]. *)
Definition at_most (n : Z) (a : number) : Prop :=
  match a with
  | Finite x => 0 <= x <= inject_Z n
  | _ => False
  end.

Lemma round64_at_least (x : Q) (n : Z) :
  (0 < n < 2 ^ 53)%Z -> inject_Z n <= x -> at_least n (round64 x).
Proof.
  intros Hn Hx.
  assert (Hx0 : 0 < x).
  { assert (0 < inject_Z n) by (unfold Qlt; simpl; lia). lra. }
  unfold round64. apply Qgt_alt in Hx0. rewrite Hx0.
  pose proof (round_magnitude_ge x n Hn Hx) as H.
  destruct (round_magnitude x); simpl; auto.
Qed.

Lemma round64_nonneg (x : Q) : 0 <= x -> nonneg (round64 x).
Proof.
  intros Hx. unfold round64.
  destruct (Qcompare x 0) eqn:E.
  - simpl. lra.
  - apply Qlt_alt in E. lra.
  - apply Qgt_alt in E.
    pose proof (round_magnitude_value x) as Hv. cbv zeta in Hv.
    destruct (round_magnitude x) as [r | ]; simpl; [ | exact I].
    destruct Hv as [Hr _]. rewrite Hr.
    apply Qmult_le_0_compat; [ | apply Qlt_le_weak, pow2_pos].
    change 0 with (inject_Z 0). rewrite <- Zle_Qle. apply rne_ge.
    apply Qle_shift_div_l; [apply pow2_pos | ].
    change (inject_Z 0) with 0. rewrite Qmult_0_l. lra.
Qed.

Lemma round64_at_most (x : Q) (n : Z) :
  (0 < n < 2 ^ 53)%Z -> 0 <= x <= inject_Z n -> at_most n (round64 x).
Proof.
  intros Hn [Hx0 Hx].
  pose proof (round64_nonneg x Hx0) as Hnn.
  unfold round64 in *. destruct (Qcompare x 0) eqn:E.
  - simpl. split; [lra | ]. change 0 with (inject_Z 0). rewrite <- Zle_Qle. lia.
  - apply Qlt_alt in E. lra.
  - apply Qgt_alt in E.
    destruct (round_magnitude_le x n Hn E Hx) as (r & Er & Hr).
    rewrite Er in *. simpl in *. split; assumption.
Qed.

Lemma at_least_nonneg (n : Z) (a : number) : (0 <= n)%Z -> at_least n a -> nonneg a.
Proof.
  intros Hn. destruct a; simpl; auto.
  intros H. assert (0 <= inject_Z n) by (change 0 with (inject_Z 0); rewrite <- Zle_Qle; lia).
  lra.
Qed.

Lemma at_most_nonneg (n : Z) (a : number) : at_most n a -> nonneg a.
Proof. destruct a; simpl; tauto. Qed.

Lemma add_nonneg (a b : number) : nonneg a -> nonneg b -> nonneg (add a b).
Proof.
  destruct a as [x | | | ], b as [y | | | ]; simpl; try tauto.
  intros Hx Hy. apply round64_nonneg. lra.
Qed.

Lemma add_at_least (n : Z) (a b : number) :
  (0 < n < 2 ^ 53)%Z -> at_least n a -> nonneg b -> at_least n (add a b).
Proof.
  intros Hn. destruct a as [x | | | ], b as [y | | | ]; simpl; try tauto.
  intros Hx Hy. apply round64_at_least; [exact Hn | lra].
Qed.

Lemma add_at_most (n m : Z) (a b : number) :
  (0 < n + m < 2 ^ 53)%Z -> at_most n a -> at_most m b -> at_most (n + m) (add a b).
Proof.
  intros Hn. destruct a as [x | | | ], b as [y | | | ]; simpl; try tauto.
  intros Hx Hy. apply round64_at_most; [exact Hn | ].
  rewrite inject_Z_plus. lra.
Qed.

Lemma mul_nonneg (a : number) (y : Q) :
  nonneg a -> 0 < y -> nonneg (mul a (Finite y)).
Proof.
  intros Ha Hy. destruct a as [x | | | ]; simpl in *; try tauto.
  - apply round64_nonneg. apply Qmult_le_0_compat; lra.
  - assert (E : Qcompare y 0 = Gt) by (apply Qgt_alt; exact Hy).
    now rewrite E.
Qed.

Lemma mul_at_most (n m : Z) (a b : number) :
  (0 < n * m < 2 ^ 53)%Z -> at_most n a -> at_most m b ->
  at_most (n * m) (mul a b).
Proof.
  intros Hn. destruct a as [x | | | ], b as [y | | | ]; simpl; try tauto.
  intros [Hx0 Hx] [Hy0 Hy]. apply round64_at_most; [exact Hn | ].
  rewrite inject_Z_mult. split; [apply Qmult_le_0_compat; assumption | ].
  nra.
Qed.

Lemma at_most_below_at_least (n m : Z) (a b : number) :
  (n < m)%Z -> at_most n a -> at_least m b -> ltb a b = true.
Proof.
  intros Hnm. destruct a as [x | | | ], b as [y | | | ]; simpl; try tauto.
  intros [_ Hx] Hy. apply negb_true_iff.
  destruct (Qle_bool y x) eqn:E; [ | reflexivity].
  apply Qle_bool_iff in E. rewrite Zlt_Qlt in Hnm. lra.
Qed.

(** *** Order *)

Definition real (a : number) : Prop := a <> NaN.

Lemma nonneg_real (a : number) : nonneg a -> real a.
Proof. destruct a; simpl; try tauto; discriminate. Qed.

Lemma ltb_irrefl (a : number) : ltb a a = false.
Proof.
  destruct a as [x | | | ]; simpl; try reflexivity.
  apply negb_false_iff. apply Qle_bool_iff. apply Qle_refl.
Qed.

Lemma ltb_asym (a b : number) : ltb a b = true -> ltb b a = false.
Proof.
  destruct a as [x | | | ], b as [y | | | ]; simpl; try reflexivity; try discriminate.
  rewrite negb_true_iff, negb_false_iff. intros H.
  apply Qle_bool_iff. destruct (Qlt_le_dec y x) as [Hlt | Hle].
  - apply Qlt_le_weak in Hlt. apply Qle_bool_iff in Hlt. congruence.
  - exact Hle.
Qed.

Lemma leb_real (a b : number) : real a -> real b -> leb a b = negb (ltb b a).
Proof. destruct a, b; unfold real; simpl; congruence. Qed.

Lemma leb_trans (a b c : number) :
  leb a b = true -> leb b c = true -> leb a c = true.
Proof.
  destruct a as [x | | | ], b as [y | | | ], c as [z | | | ]; simpl;
    try reflexivity; try discriminate.
  rewrite !negb_involutive, !Qle_bool_iff. apply Qle_trans.
Qed.

Lemma leb_total (a b : number) : real a -> real b -> leb a b = true \/ leb b a = true.
Proof.
  destruct a as [x | | | ], b as [y | | | ]; unfold real; simpl; auto; try congruence.
  intros _ _. rewrite !negb_involutive, !Qle_bool_iff.
  destruct (Qlt_le_dec x y) as [H | H]; [left; now apply Qlt_le_weak | now right].
Qed.

Lemma eqb_leb (a b : number) : eqb a b = true -> leb a b = true.
Proof.
  destruct a as [x | | | ], b as [y | | | ]; simpl; try reflexivity; try discriminate.
  rewrite negb_involutive. intros H. apply Qeq_bool_iff in H.
  apply Qle_bool_iff. rewrite H. apply Qle_refl.
Qed.

Lemma eqb_sym (a b : number) : eqb a b = eqb b a.
Proof.
  destruct a as [x | | | ], b as [y | | | ]; simpl; try reflexivity.
  destruct (Qeq_bool x y) eqn:E.
  - symmetry. apply Qeq_bool_iff. apply Qeq_bool_iff in E. now symmetry.
  - destruct (Qeq_bool y x) eqn:E'; [ | reflexivity].
    apply Qeq_bool_iff in E'. symmetry in E'. apply Qeq_bool_iff in E'. congruence.
Qed.

(** Two numbers equal to a third are not one below the other. *)
Lemma eqb_not_ltb (a b s : number) :
  eqb a s = true -> eqb b s = true -> ltb a b = false.
Proof.
  destruct a as [x | | | ], b as [y | | | ], s as [z | | | ]; simpl;
    try reflexivity; try discriminate.
  intros H1 H2. apply Qeq_bool_iff in H1. apply Qeq_bool_iff in H2.
  apply negb_false_iff. apply Qle_bool_iff. rewrite H1, H2. apply Qle_refl.
Qed.

(** *** The grid of the subnormal numbers *)

(** Every finite double is a multiple of 2^-1074. *)
Definition on_grid (x : Q) : Prop := exists k : Z, x == inject_Z k * pow2 (-1074).

Lemma round_magnitude_grid (a : Q) (r : Q) :
  0 < a -> round_magnitude a = Some r -> on_grid r.
Proof.
  intros Ha E. pose proof (round_magnitude_value a) as Hv. cbv zeta in Hv.
  rewrite E in Hv. destruct Hv as [Hr _].
  destruct (quantum_bounds a Ha) as [Hq _].
  exists (rne (a / pow2 (quantum a)) * 2 ^ (quantum a + 1074))%Z.
  rewrite Hr, inject_Z_mult, <- pow2_Z by lia.
  rewrite <- Qmult_assoc, <- pow2_add.
  now replace (quantum a + 1074 + -1074)%Z with (quantum a) by lia.
Qed.

Lemma on_grid_opp (x : Q) : on_grid x -> on_grid (- x).
Proof.
  intros [k Hk]. exists (- k)%Z. rewrite inject_Z_opp, Hk. ring.
Qed.

Lemma round64_grid (x : Q) :
  match round64 x with
  | Finite r => on_grid r
  | _ => True
  end.
Proof.
  unfold round64. destruct (Qcompare x 0) eqn:E.
  - exists 0%Z. ring.
  - apply Qlt_alt in E.
    destruct (round_magnitude (- x)) as [r | ] eqn:Er; [ | exact I].
    apply on_grid_opp. apply (round_magnitude_grid (- x)); [lra | exact Er].
  - apply Qgt_alt in E.
    destruct (round_magnitude x) as [r | ] eqn:Er; [ | exact I].
    now apply (round_magnitude_grid x).
Qed.

(** A positive multiple of 2^-1074 does not round to zero. *)
Lemma round_magnitude_positive (a r : Q) :
  0 < a -> on_grid a -> round_magnitude a = Some r -> 0 < r.
Proof.
  intros Ha [k Hk] E. pose proof (round_magnitude_value a) as Hv. cbv zeta in Hv.
  rewrite E in Hv. destruct Hv as [Hr _]. rewrite Hr.
  pose proof (pow2_pos (quantum a)) as Pq.
  assert (H1 : (1 <= rne (a / pow2 (quantum a)))%Z).
  { apply rne_ge. apply Qle_shift_div_l; [exact Pq | ].
    destruct (quantum_bounds a Ha) as [_ [Hc | Hc]].
    - rewrite Hc. assert (Hk1 : (1 <= k)%Z).
      { destruct (Z_lt_le_dec k 1) as [Hk0 | ]; [exfalso | assumption].
        assert (inject_Z k <= 0)
          by (change 0 with (inject_Z 0); rewrite <- Zle_Qle; lia).
        pose proof (pow2_pos (-1074)). nra. }
      rewrite Hk. apply Qmult_le_r; [apply pow2_pos | ].
      rewrite <- Zle_Qle. exact Hk1.
    - assert (pow2 (quantum a) <= pow2 (quantum a + 52))
        by (apply pow2_le; lia).
      change (inject_Z 1) with 1. lra. }
  rewrite Zle_Qle in H1. change (inject_Z 1) with 1 in H1. nra.
Qed.

(** The values a score can take: the non-negative doubles and Infinity. *)
Definition amount (a : number) : Prop :=
  match a with
  | Finite x => 0 <= x /\ on_grid x
  | PosInf => True
  | _ => False
  end.

Lemma round64_amount (x : Q) : 0 <= x -> amount (round64 x).
Proof.
  intros Hx. pose proof (round64_nonneg x Hx) as H1.
  pose proof (round64_grid x) as H2.
  destruct (round64 x); simpl in *; tauto.
Qed.

(** The sign of a difference tells which amount is the larger one. *)
Lemma sub_negative (a b : number) :
  amount a -> amount b -> ltb (sub a b) (Finite 0) = ltb a b.
Proof.
  destruct a as [x | | | ], b as [y | | | ]; simpl; try tauto;
    try (intros _ _; reflexivity).
  - intros [Hx [kx Gx]] [Hy [ky Gy]].
    unfold round64. destruct (Qcompare (x + - y) 0) eqn:E.
    + apply Qeq_alt in E. simpl.
      assert (H : y <= x) by lra. apply Qle_bool_iff in H. now rewrite H.
    + apply Qlt_alt in E.
      assert (Hlt : Qle_bool y x = false).
      { destruct (Qle_bool y x) eqn:E'; [ | reflexivity].
        apply Qle_bool_iff in E'. lra. }
      rewrite Hlt.
      destruct (round_magnitude (- (x + - y))) as [r | ] eqn:Er; [ | reflexivity].
      simpl. apply negb_true_iff.
      assert (Hr : 0 < r).
      { apply (round_magnitude_positive (- (x + - y))); [lra | | exact Er].
        exists (ky - kx)%Z. unfold Z.sub. rewrite inject_Z_plus, inject_Z_opp, Gx, Gy. ring. }
      destruct (Qle_bool 0 (- r)) eqn:E'; [ | reflexivity].
      apply Qle_bool_iff in E'. lra.
    + apply Qgt_alt in E.
      assert (H : y <= x) by lra. apply Qle_bool_iff in H. rewrite H.
      pose proof (round64_nonneg (x + - y)) as Hn. unfold round64 in Hn.
      assert (C : Qcompare (x + - y) 0 = Gt) by (apply Qgt_alt; exact E).
      rewrite C in Hn.
      destruct (round_magnitude (x + - y)) as [r | ]; [ | reflexivity].
      simpl in *. apply negb_false_iff. apply Qle_bool_iff. apply Hn. lra.
Qed.

(** *** Against the reference implementation *)

(** On these operands the four operations give what the IEEE 754
    operations of the Standard Library give, among them the product that
    separates 16.1 * 1000 from 16100. *)
Definition samples : list (number * number) :=
  [ (round64 (161 # 10), of_Z 1000);
    (round64 (1001 # 10), round64 (1001 # 10));
    (round64 (1 # 10), round64 (2 # 10));
    (of_Z 1, of_Z 3);
    (round64 (85 # 100), round64 (- (1 # 3)));
    (Finite (pow2 (-1074)), of_Z 3);
    (Finite (pow2 (-1074)), Finite (pow2 (-1022)));
    (Finite (inject_Z (2 ^ 53 - 1) * pow2 971), Finite (pow2 970));
    (Finite (inject_Z (2 ^ 53 - 1) * pow2 971), Finite (pow2 969));
    (of_Z 9007199254740993, of_Z 1);
    (PosInf, of_Z 5);
    (PosInf, NegInf) ].

Definition same_as_reference (ab : number * number) : bool :=
  let (a, b) := ab in
  let same r f :=
    match r, of_spec f with
    | NaN, NaN => true
    | r, r' => eqb r r'
    end in
  same (add a b) (SFadd 53 1024 (to_spec a) (to_spec b))
  && same (sub a b) (SFsub 53 1024 (to_spec a) (to_spec b))
  && same (mul a b) (SFmul 53 1024 (to_spec a) (to_spec b))
  && same (div a b) (SFdiv 53 1024 (to_spec a) (to_spec b)).

Lemma samples_same_as_reference : forallb same_as_reference samples = true.
Proof. vm_compute. reflexivity. Qed.

Lemma product_16_1 :
  mul (round64 (161 # 10)) (of_Z 1000) = Finite (8851068603596801 # 549755813888)
  /\ ltb (of_Z 16100) (mul (round64 (161 # 10)) (of_Z 1000)) = true.
Proof. split; vm_compute; reflexivity. Qed.

End DoubleFacts.


(** ** Model ranking *)

Module RankingFacts.

Import Ranking RankingSpec Double DoubleFacts.

Definition gen_content (id : string) : GeminiModel :=
  {| name := js id; displayName := js id;
     supportedGenerationMethods := Some [js "generateContent"] |}.

(** Descending order of score. *)
Definition desc (a b : jsstring) : Prop := leb (score b) (score a) = true.

(** The ids of a given score, in the order of the list. *)
Definition with_score (s : number) (l : list jsstring) : list jsstring :=
  filter (fun id => eqb (score id) s) l.

(** *** The score is a non-negative double or Infinity *)

Lemma decimal_nonneg (mant : N) (e10 : Z) : (0 <= Json.decimal (Z.of_N mant) e10)%Q.
Proof.
  unfold Json.decimal. destruct e10 as [ | p | p].
  - unfold Qle. simpl. lia.
  - unfold Qle. simpl. pose proof (Z.pow_pos_nonneg 10 (Z.pos p)). lia.
  - unfold Qle. simpl. lia.
Qed.

Lemma version_here_nonneg (s : jsstring) (v : Q) :
  version_here s = Some v -> (0 <= v)%Q.
Proof.
  unfold version_here. destruct (starts_with (js "gemini-") s); [ | discriminate].
  destruct (Json.take_digits (skipn 7 s)) as [[ | d ip] r]; [discriminate | ].
  intros H. injection H as <-. apply decimal_nonneg.
Qed.

Lemma match_version_nonneg (s : jsstring) (v : Q) :
  match_version s = Some v -> (0 <= v)%Q.
Proof.
  induction s as [ | c s IH].
  - simpl. discriminate.
  - cbn [match_version].
    destruct (version_here (c :: s)) as [v' | ] eqn:E; [ | exact IH].
    intros H. injection H as <-. exact (version_here_nonneg _ _ E).
Qed.

Lemma version_number_nonneg (id : jsstring) : (0 <= version_number id)%Q.
Proof.
  unfold version_number.
  destruct (match_version (toLowerCase id)) as [v | ] eqn:E; [ | apply Qle_refl].
  exact (match_version_nonneg _ _ E).
Qed.

Lemma of_Z_amount (n : Z) : (0 <= n)%Z -> amount (of_Z n).
Proof.
  intros H. apply round64_amount. change 0%Q with (inject_Z 0).
  now rewrite <- Zle_Qle.
Qed.

Lemma add_amount (a b : number) : amount a -> amount b -> amount (add a b).
Proof.
  destruct a as [x | | | ], b as [y | | | ]; simpl; try tauto.
  intros [Hx _] [Hy _]. apply round64_amount. lra.
Qed.

Lemma times_1000_amount (a : number) : amount a -> amount (mul a (of_Z 1000)).
Proof.
  change (of_Z 1000) with (Finite (inject_Z 1000)).
  destruct a as [x | | | ]; simpl; try tauto.
  intros [Hx _]. apply round64_amount.
  apply Qmult_le_0_compat; [exact Hx | discriminate].
Qed.

(** The double that [score] multiplies by 1000. *)
Definition version_double (id : jsstring) : number :=
  match match_version (toLowerCase id) with
  | Some v => round64 v
  | None => of_Z 0
  end.

Lemma version_double_amount (id : jsstring) : amount (version_double id).
Proof.
  unfold version_double.
  destruct (match_version (toLowerCase id)) as [v | ] eqn:E.
  - apply round64_amount. exact (match_version_nonneg _ _ E).
  - now apply of_Z_amount.
Qed.

(** Adding up amounts gives an amount. *)
Lemma accumulate_amount (s0 c1 t c2 c3 c4 : number) (latest flash preview exp : bool) :
  amount s0 -> amount c1 -> amount t -> amount c2 -> amount c3 -> amount c4 ->
  amount
    (let s := if latest then add s0 c1 else s0 in
     let s := add s t in
     let s := if flash then add s c2 else s in
     if negb preview && negb exp then add s c3
     else if preview then add s c4 else s).
Proof.
  intros H0 H1 Ht H2 H3 H4. cbv zeta.
  destruct latest; destruct flash; destruct preview; destruct exp;
    cbn [negb andb]; repeat apply add_amount; assumption.
Qed.

Lemma score_amount (id : jsstring) : amount (score id).
Proof.
  unfold score. cbv zeta. fold (version_double id).
  apply (accumulate_amount (of_Z 0) (of_Z 10000)
           (mul (version_double id) (of_Z 1000)) (of_Z 100) (of_Z 50) (of_Z 20)).
  - apply of_Z_amount. lia.
  - apply of_Z_amount. lia.
  - apply times_1000_amount, version_double_amount.
  - apply of_Z_amount. lia.
  - apply of_Z_amount. lia.
  - apply of_Z_amount. lia.
Qed.

Lemma amount_real (a : number) : amount a -> real a.
Proof. destruct a; simpl; try tauto; discriminate. Qed.

Lemma score_real (id : jsstring) : real (score id).
Proof. apply amount_real, score_amount. Qed.

(** The comparator orders by score. *)
Lemma before_spec (a b : jsstring) : before a b = ltb (score b) (score a).
Proof.
  unfold before. change (of_Z 0) with (Finite 0).
  apply sub_negative; apply score_amount.
Qed.

Lemma before_true (a b : jsstring) :
  before a b = true -> desc a b /\ ltb (score b) (score a) = true.
Proof.
  rewrite before_spec. intros H. split; [ | exact H].
  unfold desc. rewrite leb_real by apply score_real.
  now rewrite (ltb_asym _ _ H).
Qed.

Lemma before_false (a b : jsstring) : before a b = false -> desc b a.
Proof.
  rewrite before_spec. intros H. unfold desc.
  rewrite leb_real by apply score_real. now rewrite H.
Qed.

(** *** The sort *)

Lemma insert_perm (x : jsstring) (l : list jsstring) :
  Permutation (x :: l) (insert x l).
Proof.
  induction l as [ | y l IH]; simpl.
  - apply Permutation_refl.
  - destruct (before y x).
    + eapply Permutation_trans; [apply perm_swap | ]. now apply perm_skip.
    + apply Permutation_refl.
Qed.

Lemma sort_perm (l : list jsstring) : Permutation l (sort l).
Proof.
  induction l as [ | x l IH]; simpl.
  - apply perm_nil.
  - eapply Permutation_trans; [ | apply insert_perm]. now apply perm_skip.
Qed.

Lemma insert_sorted (x : jsstring) (l : list jsstring) :
  StronglySorted desc l -> StronglySorted desc (insert x l).
Proof.
  induction 1 as [ | y l Hs IH Hy]; simpl.
  - constructor; constructor.
  - destruct (before y x) eqn:E.
    + constructor; [exact IH | ].
      apply (Permutation_Forall (insert_perm x l)).
      constructor; [ | exact Hy].
      now apply before_true in E.
    + apply before_false in E.
      constructor; [now constructor | ].
      constructor; [exact E | ].
      eapply Forall_impl; [ | exact Hy].
      intros z Hz. unfold desc in *. eapply leb_trans; eassumption.
Qed.

Lemma sort_sorted (l : list jsstring) : StronglySorted desc (sort l).
Proof.
  induction l as [ | x l IH]; simpl.
  - constructor.
  - now apply insert_sorted.
Qed.

Lemma with_score_insert (s : number) (x : jsstring) (l : list jsstring) :
  with_score s (insert x l) = with_score s (x :: l).
Proof.
  induction l as [ | y l IH]; [reflexivity | ].
  simpl insert. destruct (before y x) eqn:E; [ | reflexivity].
  unfold with_score in *. simpl filter in *. rewrite IH.
  destruct (eqb (score x) s) eqn:Ex; [ | reflexivity].
  destruct (eqb (score y) s) eqn:Ey; [ | reflexivity].
  exfalso. rewrite before_spec in E.
  rewrite (eqb_not_ltb _ _ _ Ex Ey) in E. discriminate.
Qed.

Lemma with_score_sort (s : number) (l : list jsstring) :
  with_score s (sort l) = with_score s l.
Proof.
  induction l as [ | x l IH]; [reflexivity | ].
  simpl sort. rewrite with_score_insert.
  unfold with_score in *. simpl. now rewrite IH.
Qed.

Lemma rankModels_sort (available : list GeminiModel) :
  rankModels available = sort (textModels available).
Proof. unfold rankModels. now destruct (textModels available). Qed.

(** *** The rule in words *)

Lemma starts_with_prefix (p s : jsstring) :
  starts_with p s = true <-> exists t, s = p ++ t.
Proof.
  revert s. induction p as [ | x p IH]; intros s.
  - simpl. split; [intros _; now exists s | reflexivity].
  - destruct s as [ | y s]; simpl.
    + split; [discriminate | intros [t H]; discriminate].
    + rewrite andb_true_iff, N.eqb_eq, IH. split.
      * intros [-> [t ->]]. now exists t.
      * intros [t H]. injection H as -> ->. split; [reflexivity | now exists t].
Qed.

Lemma includes_mentions (p s : jsstring) : includes p s = true <-> mentions p s.
Proof.
  induction s as [ | c s IH].
  - cbn [includes]. rewrite orb_false_r, starts_with_prefix. split.
    + intros [t H]. now exists [], t.
    + intros (a & b & H). destruct a; [ | discriminate]. now exists b.
  - cbn [includes]. rewrite orb_true_iff, starts_with_prefix, IH. split.
    + intros [[t H] | (a & b & H)].
      * now exists [], t.
      * exists (c :: a), b. simpl. now rewrite H.
    + intros (a & b & H). destruct a as [ | x a].
      * left. now exists b.
      * right. injection H as -> H. now exists a, b.
Qed.

Lemma includes_bonus (p m : jsstring) (amount : number) :
  bonus (mentions p m) amount (if includes p m then [amount] else []).
Proof.
  destruct (includes p m) eqn:E.
  - apply bonus_added. now apply includes_mentions.
  - apply bonus_none. intros H. apply includes_mentions in H. congruence.
Qed.

Lemma is_digit_digit (c : N) : Json.is_digit c = true <-> digit c.
Proof.
  unfold Json.is_digit, digit. rewrite andb_true_iff, !N.leb_le. tauto.
Qed.

(** [take_digits] takes the whole run of digits at the head. *)
Lemma take_digits_spec (s : jsstring) :
  exists cs,
    s = cs ++ snd (Json.take_digits s)
    /\ Forall digit cs
    /\ no_digit_ahead (snd (Json.take_digits s))
    /\ fst (Json.take_digits s) = map (fun c => (c - 48)%N) cs.
Proof.
  induction s as [ | c s (cs & E & Hd & Hn & Hv)].
  - exists []. simpl. auto.
  - cbn [Json.take_digits]. destruct (Json.is_digit c) eqn:D.
    + destruct (Json.take_digits s) as [ds r]. cbn [fst snd] in *.
      exists (c :: cs). split; [simpl; now rewrite <- E | ].
      split; [constructor; [now apply is_digit_digit | exact Hd] | ].
      split; [exact Hn | ]. simpl. now rewrite Hv.
    + exists []. cbn [fst snd]. split; [reflexivity | ]. split; [constructor | ].
      split; [ | reflexivity].
      simpl. intros H. apply is_digit_digit in H. congruence.
Qed.

Lemma digits_value_numeral (cs : list N) :
  Forall digit cs ->
  Z.of_N (Json.digits_value (map (fun c => (c - 48)%N) cs)) = numeral cs.
Proof.
  unfold Json.digits_value, numeral.
  assert (G : forall (n : N) (z : Z),
             Z.of_N n = z -> Forall digit cs ->
             Z.of_N (fold_left (fun acc d => (acc * 10 + d)%N)
                               (map (fun c => (c - 48)%N) cs) n)
             = fold_left (fun n c => (10 * n + (Z.of_N c - 48))%Z) cs z).
  { induction cs as [ | c cs IH]; intros n z Hn Hd; cbn [fold_left map];
      [exact Hn | ].
    inversion Hd as [ | ? ? Hc Hcs]; subst.
    apply IH; [ | exact Hcs]. unfold digit in Hc. lia. }
  intros Hd. now apply G.
Qed.

(** The fraction that [version_here] reads behind the integer part. *)
Lemma fraction_spec (r : jsstring) :
  exists fp,
    fraction_of r fp
    /\ Forall digit fp
    /\ match r with
       | c :: r' => if N.eqb c (Json.ch ".") then fst (Json.take_digits r') else []
       | [] => []
       end = map (fun c => (c - 48)%N) fp.
Proof.
  destruct r as [ | c r'].
  - exists []. split; [ | split; [constructor | reflexivity]].
    apply fraction_none. discriminate.
  - destruct (N.eqb c (Json.ch ".")) eqn:E.
    + apply N.eqb_eq in E. subst c.
      destruct (take_digits_spec r') as (fp & Er & Hd & Hn & Hv).
      destruct fp as [ | f fp].
      * exists []. split; [ | split; [constructor | exact Hv]].
        apply fraction_none. intros c0 r0 H. injection H as H.
        simpl in Er. rewrite <- Er, H in Hn. exact Hn.
      * exists (f :: fp). split; [ | split; [exact Hd | exact Hv]].
        rewrite Er at 1. apply fraction_some; [discriminate | exact Hd | exact Hn].
    + exists []. split; [ | split; [constructor | reflexivity]].
      apply fraction_none. intros c0 r0 H. injection H as -> _.
      rewrite N.eqb_refl in E. discriminate.
Qed.

Lemma version_here_some (s : jsstring) (v : Q) :
  version_here s = Some v ->
  exists t ip fp,
    s = js "gemini-" ++ t /\ writes t ip fp /\ v = decimal_value ip fp.
Proof.
  unfold version_here.
  destruct (starts_with (js "gemini-") s) eqn:P; [ | discriminate].
  apply starts_with_prefix in P. destruct P as [t ->].
  change (skipn 7 (js "gemini-" ++ t)) with t.
  destruct (take_digits_spec t) as (ip & Et & Hip & Hn & Hv).
  destruct (Json.take_digits t) as [vals r]. cbn [fst snd] in *.
  destruct vals as [ | d vals]; [discriminate | ].
  destruct (fraction_spec r) as (fp & Hf & Hfp & Ef).
  rewrite Ef. intros H. injection H as <-.
  exists t, ip, fp. split; [reflexivity | ]. split.
  - exists r. split; [exact Et | ]. split.
    + intros ->. discriminate.
    + split; [exact Hip | ]. split; [exact Hn | exact Hf].
  - unfold decimal_value.
    change (d :: vals ++ map (fun c => (c - 48)%N) fp)
      with ((d :: vals) ++ map (fun c => (c - 48)%N) fp).
    rewrite Hv, <- map_app, length_map.
    rewrite digits_value_numeral; [reflexivity | ].
    apply Forall_app. now split.
Qed.

Lemma version_here_none (s : jsstring) :
  version_here s = None -> ~ version_starts s [].
Proof.
  intros Hn (c & t & -> & Hd). unfold version_here in Hn.
  assert (P : starts_with (js "gemini-") ([] ++ js "gemini-" ++ c :: t) = true).
  { apply starts_with_prefix. now exists (c :: t). }
  rewrite P in Hn.
  change (skipn 7 ([] ++ js "gemini-" ++ c :: t)) with (c :: t) in Hn.
  cbn [Json.take_digits] in Hn.
  apply is_digit_digit in Hd. rewrite Hd in Hn.
  destruct (Json.take_digits t). discriminate.
Qed.

Lemma version_starts_cons (c : N) (s a : jsstring) :
  version_starts (c :: s) (c :: a) <-> version_starts s a.
Proof.
  unfold version_starts. split; intros (d & t & E & Hd); exists d, t.
  - injection E as E. auto.
  - split; [simpl; now rewrite E | exact Hd].
Qed.

Lemma match_version_some (s : jsstring) (v : Q) :
  match_version s = Some v ->
  exists a t ip fp,
    s = a ++ js "gemini-" ++ t
    /\ writes t ip fp
    /\ (forall a', version_starts s a' -> length a <= length a')
    /\ v = decimal_value ip fp.
Proof.
  revert v. induction s as [ | c s IH]; intros v.
  - simpl. discriminate.
  - cbn [match_version]. destruct (version_here (c :: s)) as [v' | ] eqn:E.
    + intros H. injection H as <-.
      destruct (version_here_some _ _ E) as (t & ip & fp & Es & Hw & Hv).
      exists [], t, ip, fp. split; [exact Es | ]. split; [exact Hw | ].
      split; [intros a' _; simpl; lia | exact Hv].
    + intros H. destruct (IH v H) as (a & t & ip & fp & Es & Hw & Hl & Hv).
      exists (c :: a), t, ip, fp. split; [simpl; now rewrite Es | ].
      split; [exact Hw | ]. split; [ | exact Hv].
      intros a' Ha'. destruct a' as [ | x a'].
      * exfalso. exact (version_here_none _ E Ha').
      * assert (x = c) by (destruct Ha' as (d & u & Eu & _); now injection Eu).
        subst x. apply version_starts_cons in Ha'.
        simpl. apply le_n_S. now apply Hl.
Qed.

Lemma match_version_none (s : jsstring) :
  match_version s = None -> forall a, ~ version_starts s a.
Proof.
  induction s as [ | c s IH]; intros H a Ha.
  - destruct Ha as (d & t & E & _). destruct a; discriminate.
  - cbn [match_version] in H.
    destruct (version_here (c :: s)) as [v' | ] eqn:E; [discriminate | ].
    destruct a as [ | x a].
    + exact (version_here_none _ E Ha).
    + assert (x = c) by (destruct Ha as (d & u & Eu & _); now injection Eu).
      subst x. apply version_starts_cons in Ha. exact (IH H a Ha).
Qed.

Lemma version_double_of (id : jsstring) :
  version_of (toLowerCase id) (version_double id).
Proof.
  unfold version_double.
  destruct (match_version (toLowerCase id)) as [v | ] eqn:E.
  - destruct (match_version_some _ _ E) as (a & t & ip & fp & Es & Hw & Hl & ->).
    now apply (version_found _ a t ip fp).
  - apply version_absent. now apply match_version_none.
Qed.

Lemma stability_of (m : jsstring) :
  stability m
    (if negb (includes (js "preview") m) && negb (includes (js "exp") m)
     then [of_Z 50]
     else if includes (js "preview") m then [of_Z 20] else []).
Proof.
  destruct (includes (js "preview") m) eqn:P.
  - cbn [negb andb]. apply preview_id. now apply includes_mentions.
  - assert (NP : ~ mentions (js "preview") m).
    { intros H. apply includes_mentions in H. congruence. }
    destruct (includes (js "exp") m) eqn:X; cbn [negb andb].
    + apply experimental_id; [exact NP | now apply includes_mentions].
    + apply stable_id; [exact NP | ].
      intros H. apply includes_mentions in H. congruence.
Qed.

(** The score is the one of the amended rule. *)
Lemma score_scored (id : jsstring) : scored id (score id).
Proof.
  unfold scored. cbv zeta.
  exists (if includes (js "latest") (toLowerCase id) then [of_Z 10000] else []),
    (version_double id),
    (if includes (js "flash") (toLowerCase id) then [of_Z 100] else []),
    (if negb (includes (js "preview") (toLowerCase id))
        && negb (includes (js "exp") (toLowerCase id))
     then [of_Z 50]
     else if includes (js "preview") (toLowerCase id) then [of_Z 20] else []).
  split; [apply includes_bonus | ].
  split; [apply version_double_of | ].
  split; [apply includes_bonus | ].
  split; [apply stability_of | ].
  unfold score. cbv zeta. fold (version_double id).
  destruct (includes (js "latest") (toLowerCase id));
    destruct (includes (js "flash") (toLowerCase id));
    destruct (includes (js "preview") (toLowerCase id));
    destruct (includes (js "exp") (toLowerCase id));
    reflexivity.
Qed.

(** *** The rule determines the score *)

Lemma bonus_unique (P : Prop) (amount : number) (l l' : list number) :
  bonus P amount l -> bonus P amount l' -> l = l'.
Proof. intros [H | H] [H' | H']; try reflexivity; contradiction. Qed.

Lemma stability_unique (m : jsstring) (l l' : list number) :
  stability m l -> stability m l' -> l = l'.
Proof.
  intros [H1 H2 | H1 | H1 H2] [H1' H2' | H1' | H1' H2'];
    try reflexivity; contradiction.
Qed.

(** A text has one run of digits at its head. *)
Lemma digit_run_unique (ip ip' rest rest' : jsstring) :
  ip ++ rest = ip' ++ rest' ->
  Forall digit ip -> Forall digit ip' ->
  no_digit_ahead rest -> no_digit_ahead rest' ->
  ip = ip' /\ rest = rest'.
Proof.
  revert ip'. induction ip as [ | c ip IH]; intros ip' E Hd Hd' Hn Hn'.
  - destruct ip' as [ | c' ip']; [now split | exfalso].
    simpl in E. subst rest. simpl in Hn. inversion Hd'; subst. contradiction.
  - destruct ip' as [ | c' ip'].
    + exfalso. simpl in E. subst rest'. simpl in Hn'.
      inversion Hd; subst. contradiction.
    + injection E as -> E. inversion Hd; subst. inversion Hd'; subst.
      destruct (IH ip' E) as [-> ->]; auto.
Qed.

Lemma fraction_unique (r : jsstring) (fp fp' : list N) :
  fraction_of r fp -> fraction_of r fp' -> fp = fp'.
Proof.
  intros H H'.
  destruct H as [fp rest Hne Hd Hn | r Hno].
  - remember (Json.ch "." :: fp ++ rest) as r eqn:Er.
    destruct H' as [fp2 rest2 Hne2 Hd2 Hn2 | r Hno2].
    + assert (E2 : fp ++ rest = fp2 ++ rest2) by congruence.
      now destruct (digit_run_unique _ _ _ _ E2 Hd Hd2 Hn Hn2).
    + exfalso. destruct fp as [ | f fp]; [contradiction | ].
      inversion Hd; subst. exact (Hno2 f (fp ++ rest) eq_refl H1).
  - destruct H' as [fp2 rest2 Hne2 Hd2 Hn2 | r Hno2]; [ | reflexivity].
    exfalso. destruct fp2 as [ | f fp2]; [contradiction | ].
    inversion Hd2; subst. exact (Hno f (fp2 ++ rest2) eq_refl H1).
Qed.

Lemma writes_unique (t : jsstring) (ip fp ip' fp' : list N) :
  writes t ip fp -> writes t ip' fp' -> ip = ip' /\ fp = fp'.
Proof.
  intros (rest & E & _ & Hd & Hn & Hf) (rest' & E' & _ & Hd' & Hn' & Hf').
  rewrite E in E'.
  destruct (digit_run_unique _ _ _ _ E' Hd Hd' Hn Hn') as [-> ->].
  split; [reflexivity | exact (fraction_unique _ _ _ Hf Hf')].
Qed.

Lemma writes_starts (s a t : jsstring) (ip fp : list N) :
  s = a ++ js "gemini-" ++ t -> writes t ip fp -> version_starts s a.
Proof.
  intros -> (rest & -> & Hne & Hd & _).
  destruct ip as [ | c ip]; [contradiction | ].
  inversion Hd; subst. now exists c, (ip ++ rest).
Qed.

Lemma prefix_unique (a a' b b' : jsstring) :
  a ++ b = a' ++ b' -> length a = length a' -> a = a' /\ b = b'.
Proof.
  revert a'. induction a as [ | x a IH]; intros [ | x' a'] E L;
    try discriminate; [now split | ].
  injection E as -> E. injection L as L.
  destruct (IH a' E L) as [-> ->]. now split.
Qed.

Lemma version_unique (s : jsstring) (v v' : number) :
  version_of s v -> version_of s v' -> v = v'.
Proof.
  intros [a t ip fp Es Hw Hl | Hno] [a' t' ip' fp' Es' Hw' Hl' | Hno'].
  - pose proof (writes_starts _ _ _ _ _ Es Hw) as S1.
    pose proof (writes_starts _ _ _ _ _ Es' Hw') as S2.
    assert (L : length a = length a') by (specialize (Hl _ S2); specialize (Hl' _ S1); lia).
    rewrite Es in Es'.
    destruct (prefix_unique _ _ _ _ Es' L) as [_ Et].
    apply app_inv_head in Et. subst t'.
    now destruct (writes_unique _ _ _ _ _ Hw Hw') as [-> ->].
  - exfalso. exact (Hno' a (writes_starts _ _ _ _ _ Es Hw)).
  - exfalso. exact (Hno a' (writes_starts _ _ _ _ _ Es' Hw')).
  - reflexivity.
Qed.

Lemma scored_unique (id : jsstring) (s s' : number) :
  scored id s -> scored id s' -> s = s'.
Proof.
  intros (L & v & F & S & HL & Hv & HF & HS & ->)
         (L' & v' & F' & S' & HL' & Hv' & HF' & HS' & ->).
  rewrite (bonus_unique _ _ _ _ HL HL'), (version_unique _ _ _ Hv Hv'),
    (bonus_unique _ _ _ _ HF HF'), (stability_unique _ _ _ HS HS').
  reflexivity.
Qed.

(** C7, amended.  An id is scored, in doubles added up in this order from
    0, with 10000 for a latest marker, 1000 times the number behind the
    first [gemini-] that a digit follows (0 when there is none, as in an
    id of another family), 100 for the flash tier, and 50 when neither
    preview nor experimental, 20 when preview, nothing when experimental
    only; [rankModels] returns the eligible ids rearranged in descending
    order of that score, ids of equal score keeping their discovery order;
    and on gemini-2.0-flash, gemini-2.5-pro-preview, gemini-1.5-flash-latest
    it returns the third, the second, the first. *)
Theorem rankModels_ranks (available : list GeminiModel) :
  (forall id s, scored id s <-> s = score id)
  /\ Permutation (textModels available) (rankModels available)
  /\ StronglySorted desc (rankModels available)
  /\ (forall s, with_score s (rankModels available)
                = with_score s (textModels available))
  /\ rankModels [ gen_content "gemini-2.0-flash";
                  gen_content "gemini-2.5-pro-preview";
                  gen_content "gemini-1.5-flash-latest" ]
     = [ js "gemini-1.5-flash-latest"; js "gemini-2.5-pro-preview";
         js "gemini-2.0-flash" ].
Proof.
  split; [ | split; [ | split; [ | split]]]; try rewrite rankModels_sort.
  - intros id s. split.
    + intros H. exact (scored_unique id _ _ H (score_scored id)).
    + intros ->. apply score_scored.
  - apply sort_perm.
  - apply sort_sorted.
  - intros s. apply with_score_sort.
  - vm_compute. reflexivity.
Qed.

(** C7 as stated fails, in three ways.  The claim's sum of real numbers
    gives gemini-16-flash and gemini-16.1-pro the same score, 16150, so that
    they would keep their discovery order; but 16.1 * 1000 is not 16100 in
    doubles, and the code puts gemini-16.1-pro first.  The claim reads a
    version number in any id; the code reads it behind [gemini-] only, so
    gemma-3-27b-it scores 50 and comes after gemini-1.0-pro.  And an id
    tagged both preview and experimental gets 20 in the code, and comes
    before the experimental-only id of the same version and tier. *)
Lemma rankModels_differs_from_claim :
  (claimed_score (js "gemini-16-flash") == claimed_score (js "gemini-16.1-pro"))%Q
  /\ claimed_ranking [js "gemini-16-flash"; js "gemini-16.1-pro"]
     = [js "gemini-16-flash"; js "gemini-16.1-pro"]
  /\ rankModels [gen_content "gemini-16-flash"; gen_content "gemini-16.1-pro"]
     = [js "gemini-16.1-pro"; js "gemini-16-flash"]
  /\ claimed_ranking [js "gemini-1.0-pro"; js "gemma-3-27b-it"]
     = [js "gemma-3-27b-it"; js "gemini-1.0-pro"]
  /\ rankModels [gen_content "gemini-1.0-pro"; gen_content "gemma-3-27b-it"]
     = [js "gemini-1.0-pro"; js "gemma-3-27b-it"]
  /\ claimed_ranking [js "gemini-2.0-flash-exp"; js "gemini-2.0-flash-preview-exp"]
     = [js "gemini-2.0-flash-exp"; js "gemini-2.0-flash-preview-exp"]
  /\ rankModels [ gen_content "gemini-2.0-flash-exp";
                  gen_content "gemini-2.0-flash-preview-exp" ]
     = [js "gemini-2.0-flash-preview-exp"; js "gemini-2.0-flash-exp"].
Proof.
  repeat split; vm_compute; reflexivity.
Qed.

End RankingFacts.

(** ** Indicators *)

Module IndicatorFacts.

Import Indicators IndicatorSpec.

Lemma skipn_nth_cons {T} (d : T) (l : list T) (i : nat) :
  (i < length l)%nat -> skipn i l = nth i l d :: skipn (S i) l.
Proof.
  revert i. induction l as [ | x l IH]; intros i Hi; simpl in Hi.
  - lia.
  - destruct i as [ | i]; [reflexivity | ].
    simpl. apply IH. lia.
Qed.

Section Arithmetic.

Variable A : Arithmetic.

(** The index loop moves the average over the values from index [i] on. *)
Lemma ema_loop_rec (values : list (value A)) (k : value A) (n i : nat)
  (ema : value A) :
  (i + n <= length values)%nat ->
  ema_loop A values k n i ema = ema_rec A k ema (firstn n (skipn i values)).
Proof.
  revert i ema. induction n as [ | n IH]; intros i ema Hn.
  - reflexivity.
  - cbn [ema_loop]. rewrite IH by lia.
    rewrite (skipn_nth_cons (count A 0) values i) by lia. reflexivity.
Qed.

(** The [reduce] adds the values up one after the other, from 0. *)
Lemma sum_total (xs : list (value A)) : sum A xs = total_from A (count A 0) xs.
Proof.
  unfold sum. generalize (count A 0).
  induction xs as [ | x xs IH]; intros acc; simpl; [reflexivity | apply IH].
Qed.

Lemma calculateEMA_spec (values : list (value A)) (period : nat) :
  (period <= length values)%nat ->
  calculateEMA A values period = Some (EMA A period values).
Proof.
  intros Hp. unfold calculateEMA.
  destruct (Nat.ltb_spec (length values) period) as [H | _]; [lia | ].
  cbv zeta. f_equal.
  rewrite ema_loop_rec by lia.
  rewrite (firstn_all2 (skipn period values)) by (rewrite length_skipn; lia).
  unfold EMA, simple_average.
  rewrite sum_total, length_firstn, Nat.min_l by exact Hp.
  reflexivity.
Qed.

Variable bar : Type.
Variable close_of : bar -> value A.

(** C9.  In any arithmetic, the doubles among them, [calculateMACD] returns
    null on a history of fewer than 26 bars; on any other history it
    returns a record whose [macd] is EMA(12) minus EMA(26) of the closing
    prices, each average seeded with the simple average of the first
    [period] closes and moved with the multiplier 2/(period+1), whose
    [signal] is [macd * 0.85] and whose [histogram] is [macd - signal]. *)
Theorem calculateMACD_spec (data : list bar) :
  if (length data <? 26)%nat
  then calculateMACD A bar close_of data = None
  else exists r,
      calculateMACD A bar close_of data = Some r
      /\ macd r = minus A (EMA A 12 (map close_of data))
                          (EMA A 26 (map close_of data))
      /\ signal r = times A (macd r) (literal A 85 (-2))
      /\ histogram r = minus A (macd r) (signal r).
Proof.
  unfold calculateMACD.
  destruct (Nat.ltb_spec (length data) 26) as [H | H]; [reflexivity | ].
  rewrite !calculateEMA_spec by (rewrite length_map; lia).
  eexists. split; [reflexivity | ]. cbn [macd signal histogram].
  split; [reflexivity | split; reflexivity].
Qed.

End Arithmetic.

Local Open Scope Q_scope.

(** On the exact rationals the recurrence is the textbook one, and the
    total does not depend on the order of the values. *)
Lemma ema_rec_textbook (k : Q) (l : list Q) (e e' : Q) :
  e == e' -> ema_rec exact k e l == ema_textbook k e' l.
Proof.
  revert e e'. induction l as [ | v l IH]; intros e e' He; simpl.
  - exact He.
  - apply IH. rewrite He. ring.
Qed.

(** In doubles the rounding shows: on 26 bars that all close at 100.1 the
    two averages differ, and the [macd] is 3 * 2^-46, about 4.26e-14, not
    0. *)
Lemma flat_history_in_doubles :
  option_map macd
    (calculateMACD binary64 Double.number (fun c => c)
       (repeat (Double.round64 (1001 # 10)) 26))
  = Some (Double.Finite (3 # 70368744177664)).
Proof. vm_compute. reflexivity. Qed.

End IndicatorFacts.

(** ** The market data cache *)

Module CacheFacts.

Import Cache.

Definition key (r : row) : jsstring * data_type := (symbol r, kind r).

(** The unique constraint on (symbol, data_type) that the upsert relies on. *)
Definition unique_keys (t : table) : Prop := NoDup (map key t).

(** The age of a row when the route reads the clock. *)
Definition age (now : Z) (r : row) : Z := (now - fetched_at r)%Z.

(** The table holds a row of this symbol and kind whose age passes [fresh]. *)
Definition holds_fresh (fresh : Z -> bool) (now : Z) (t : table)
  (s : jsstring) (k : data_type) : Prop :=
  exists r, In r t /\ symbol r = s /\ kind r = k /\ fresh (age now r) = true.

(** The live fetch is skipped exactly when both kinds are held fresh. *)
Definition skips_iff_both_fresh (fresh : Z -> bool) : Prop :=
  forall getStockQuote getDailyData now t_quote t_daily t sym,
    unique_keys t ->
    events (load_market_data getStockQuote getDailyData now t_quote t_daily t sym) = []
    <-> holds_fresh fresh now t (toUpperCase sym) quote
        /\ holds_fresh fresh now t (toUpperCase sym) daily.

(** Fresh as the specification words it: an age of two hours or more is
    stale. *)
Definition younger_than_window (a : Z) : bool := (a <? TWO_HOURS)%Z.

(** Fresh as the query tests it: [fetched_at >= now - 2h]. *)
Definition within_window (a : Z) : bool := (a <=? TWO_HOURS)%Z.

Lemma data_type_eqb_eq (a b : data_type) : data_type_eqb a b = true <-> a = b.
Proof. destruct a, b; simpl; split; congruence. Qed.

Lemma same_key_eq (a b : row) : same_key a b = true <-> key a = key b.
Proof.
  unfold same_key, key.
  rewrite andb_true_iff, JsFacts.str_eqb_eq, data_type_eqb_eq.
  split; [intros [-> ->]; reflexivity | intros H; injection H; auto].
Qed.

Lemma select_In (t : table) (s : jsstring) (k : data_type) (since : Z) (r : row) :
  In r (select t s k since)
  <-> In r t /\ symbol r = s /\ kind r = k /\ (since <= fetched_at r)%Z.
Proof.
  unfold select. rewrite filter_In, !andb_true_iff,
    JsFacts.str_eqb_eq, data_type_eqb_eq, Z.leb_le. tauto.
Qed.

(** The rows a query selects inherit the uniqueness of keys. *)
Lemma select_unique (t : table) (s : jsstring) (k : data_type) (since : Z) :
  unique_keys t -> unique_keys (select t s k since).
Proof.
  unfold unique_keys, select.
  set (wanted := fun r : row => _).
  induction t as [ | x t IH]; intros Hu; simpl; [constructor | ].
  apply NoDup_cons_iff in Hu. destruct Hu as [Hx Ht].
  destruct (wanted x); simpl; [ | now apply IH].
  apply NoDup_cons_iff. split; [ | now apply IH].
  intros Hin. apply in_map_iff in Hin. destruct Hin as (y & Hy & Hin).
  apply filter_In in Hin. apply Hx.
  apply in_map_iff. exists y. tauto.
Qed.

(** Under the unique constraint, [single] finds a row exactly when one
    matches the query. *)
Lemma single_select (t : table) (s : jsstring) (k : data_type) (since : Z) :
  unique_keys t ->
  (exists r, single (select t s k since) = Some r)
  <-> (exists r, In r t /\ symbol r = s /\ kind r = k /\ (since <= fetched_at r)%Z).
Proof.
  intros Hu. split.
  - intros (r & Hr). exists r. apply select_In.
    destruct (select t s k since) as [ | x [ | y l]]; try discriminate.
    injection Hr as ->. now left.
  - intros (r & Hr). apply select_In in Hr.
    assert (Hn : NoDup (map key (select t s k since)))
      by (apply select_unique; exact Hu).
    assert (Hk : forall x, In x (select t s k since) -> key x = (s, k)).
    { intros x Hx. apply select_In in Hx. unfold key.
      destruct Hx as (_ & -> & -> & _). reflexivity. }
    destruct (select t s k since) as [ | x [ | y l]].
    + destruct Hr.
    + exists x. reflexivity.
    + exfalso. simpl in Hn. inversion Hn as [ | ? ? Hx _]; subst.
      apply Hx. left.
      rewrite (Hk x), (Hk y); [reflexivity | right; now left | now left].
Qed.

Lemma single_some_or_none (o : option row) : (exists r, o = Some r) \/ o = None.
Proof. destruct o; [left; eauto | now right]. Qed.

Section Route.

Variable getStockQuote getDailyData : jsstring -> result json.
Variables now t_quote t_daily : Z.

Let load := load_market_data getStockQuote getDailyData now t_quote t_daily.

(** Case analysis on the answers of the two live fetches. *)
Ltac by_fetches :=
  destruct (getStockQuote _); try destruct (getDailyData _).

(** The route skips the live fetch exactly when both queries find a row. *)
Lemma skip_iff_both_found (t : table) (sym : jsstring) :
  events (load t sym) = []
  <-> (exists q, single (select t (toUpperCase sym) quote (now - TWO_HOURS)) = Some q)
      /\ (exists d, single (select t (toUpperCase sym) daily (now - TWO_HOURS)) = Some d).
Proof.
  unfold load, load_market_data. cbv zeta.
  destruct (single (select t (toUpperCase sym) quote (now - TWO_HOURS))) as [q | ];
    destruct (single (select t (toUpperCase sym) daily (now - TWO_HOURS))) as [d | ].
  - simpl. split; eauto.
  - split.
    + by_fetches; discriminate.
    + intros (_ & (d & Hd)). discriminate.
  - split.
    + by_fetches; discriminate.
    + intros ((q & Hq) & _). discriminate.
  - split.
    + by_fetches; discriminate.
    + intros ((q & Hq) & _). discriminate.
Qed.

(** On a miss both live fetches are issued, whether or not they succeed. *)
Lemma miss_fetches_both (t : table) (sym : jsstring) :
  events (load t sym) <> [] ->
  firstn 2 (events (load t sym))
  = [LiveFetch quote (toUpperCase sym); LiveFetch daily (toUpperCase sym)].
Proof.
  unfold load, load_market_data. cbv zeta.
  destruct (single (select t (toUpperCase sym) quote (now - TWO_HOURS))) as [q | ];
    destruct (single (select t (toUpperCase sym) daily (now - TWO_HOURS))) as [d | ];
    try (intros _; by_fetches; reflexivity).
  simpl. congruence.
Qed.

(** On a miss with both fetches answered, both rows are written. *)
Lemma miss_writes_both (t : table) (sym : jsstring) (q d : json) :
  events (load t sym) <> [] ->
  getStockQuote (toUpperCase sym) = Ok q ->
  getDailyData (toUpperCase sym) = Ok d ->
  let rq := {| symbol := toUpperCase sym; kind := quote; data := q;
               fetched_at := t_quote |} in
  let rd := {| symbol := toUpperCase sym; kind := daily; data := d;
               fetched_at := t_daily |} in
  outcome (load t sym) = Ok (q, d)
  /\ skipn 2 (events (load t sym)) = [CacheWrite rq; CacheWrite rd]
  /\ cache_after (load t sym) = upsert rd (upsert rq t).
Proof.
  unfold load, load_market_data. cbv zeta. intros Hm Hq Hd.
  destruct (single (select t (toUpperCase sym) quote (now - TWO_HOURS))) as [cq | ];
    destruct (single (select t (toUpperCase sym) daily (now - TWO_HOURS))) as [cd | ];
    try (rewrite Hq, Hd; repeat split; reflexivity).
  simpl in Hm. congruence.
Qed.

End Route.

Lemma upsert_In (r : row) (t : table) : In r (upsert r t).
Proof.
  induction t as [ | x t IH]; simpl; [now left | ].
  destruct (same_key x r); [now left | now right].
Qed.

Lemma upsert_keeps (r x : row) (t : table) :
  In x t -> same_key x r = false -> In x (upsert r t).
Proof.
  induction t as [ | y t IH]; simpl; [tauto | ].
  intros [-> | Hx] Hk.
  - rewrite Hk. now left.
  - destruct (same_key y r); right; [exact Hx | now apply IH].
Qed.

Lemma upsert_keys (r : row) (t : table) :
  forall k, In k (map key (upsert r t)) <-> k = key r \/ In k (map key t).
Proof.
  induction t as [ | x t IH]; intros k; simpl.
  - intuition.
  - destruct (same_key x r) eqn:E; simpl.
    + apply same_key_eq in E. rewrite E. intuition.
    + rewrite IH. intuition.
Qed.

Lemma upsert_unique (r : row) (t : table) :
  unique_keys t -> unique_keys (upsert r t).
Proof.
  unfold unique_keys. induction t as [ | x t IH]; simpl; intros H.
  - constructor; [tauto | constructor].
  - inversion H as [ | ? ? Hx Ht]; subst.
    destruct (same_key x r) eqn:E; simpl.
    + apply same_key_eq in E. rewrite <- E. now constructor.
    + constructor; [ | now apply IH].
      rewrite upsert_keys. intros [Hk | Hk]; [ | tauto].
      apply same_key_eq in Hk. congruence.
Qed.

Lemma holds_fresh_within (now : Z) (t : table) (s : jsstring) (k : data_type) :
  holds_fresh within_window now t s k
  <-> exists r, In r t /\ symbol r = s /\ kind r = k
                /\ (now - TWO_HOURS <= fetched_at r)%Z.
Proof.
  unfold holds_fresh, within_window, age.
  split; intros (r & Hin & Hs & Hk & Hf); exists r; repeat split; try assumption.
  - apply Z.leb_le in Hf. lia.
  - apply Z.leb_le. lia.
Qed.

(** C6, amended.  Under the unique constraint on (symbol, data_type), the
    route skips the live fetch if and only if the cache holds, for the
    upper-cased symbol, both a quote row and a daily row of age at most two
    hours (an age of exactly two hours still counts as fresh; only an older
    row is treated as absent).  On any miss it issues both live fetches, and
    when both answer it returns their payloads and writes both rows back,
    keeping the keys unique. *)
Theorem cache_skip_policy
  (getStockQuote getDailyData : jsstring -> result json)
  (now t_quote t_daily : Z) (t : table) (sym : jsstring) :
  unique_keys t ->
  let run := load_market_data getStockQuote getDailyData now t_quote t_daily t sym in
  let SYM := toUpperCase sym in
  (events run = []
   <-> holds_fresh within_window now t SYM quote
       /\ holds_fresh within_window now t SYM daily)
  /\ (events run <> [] ->
      firstn 2 (events run) = [LiveFetch quote SYM; LiveFetch daily SYM]
      /\ forall q d,
          getStockQuote SYM = Ok q -> getDailyData SYM = Ok d ->
          let rq := {| symbol := SYM; kind := quote; data := q;
                       fetched_at := t_quote |} in
          let rd := {| symbol := SYM; kind := daily; data := d;
                       fetched_at := t_daily |} in
          outcome run = Ok (q, d)
          /\ skipn 2 (events run) = [CacheWrite rq; CacheWrite rd]
          /\ In rq (cache_after run) /\ In rd (cache_after run)
          /\ unique_keys (cache_after run)).
Proof.
  intros Hu run SYM. split.
  - unfold run. rewrite skip_iff_both_found, !holds_fresh_within.
    rewrite !(single_select t) by exact Hu. reflexivity.
  - intros Hm. split; [now apply miss_fetches_both | ].
    intros q d Hq Hd rq rd.
    destruct (miss_writes_both _ _ _ _ _ t sym q d Hm Hq Hd) as (Ho & He & Hc).
    fold SYM in Ho, He, Hc. fold rq in He, Hc. fold rd in He, Hc.
    split; [exact Ho | ]. split; [exact He | ].
    unfold run. rewrite Hc. repeat split.
    + apply upsert_keeps; [apply upsert_In | reflexivity || (unfold same_key; simpl;
        now rewrite andb_false_r)].
    + apply upsert_In.
    + now apply upsert_unique, upsert_unique.
Qed.

Definition row_at (k : data_type) (fetched : Z) : row :=
  {| symbol := js "AAPL"; kind := k; data := JNull; fetched_at := fetched |}.

Definition unreachable (s : jsstring) : result json := Throw TypeError.

Lemma two_rows_unique (a b : Z) : unique_keys [row_at quote a; row_at daily b].
Proof.
  unfold unique_keys. simpl. constructor.
  - simpl. intros [H | []]. discriminate.
  - constructor; [intros [] | constructor].
Qed.

(** Both rows were fetched one hour ago: the live fetch is skipped. *)
Lemma cache_skip_policy_witness :
  events (load_market_data unreachable unreachable (3 * 3600000) 0 0
            [row_at quote 3600000; row_at daily 3600000] (js "aapl")) = []
  <-> holds_fresh within_window (3 * 3600000)
        [row_at quote 3600000; row_at daily 3600000] (js "AAPL") quote
      /\ holds_fresh within_window (3 * 3600000)
           [row_at quote 3600000; row_at daily 3600000] (js "AAPL") daily.
Proof.
  exact (proj1 (cache_skip_policy unreachable unreachable (3 * 3600000) 0 0
                  [row_at quote 3600000; row_at daily 3600000] (js "aapl")
                  (two_rows_unique 3600000 3600000))).
Defined.

(** C6 as stated fails: with both rows fetched exactly two hours ago the
    query [fetched_at >= now - 2h] still finds them and the live fetch is
    skipped, although rows of age two hours are to be treated as absent. *)
Lemma cache_boundary_counterexample :
  events (load_market_data unreachable unreachable TWO_HOURS 0 0
            [row_at quote 0; row_at daily 0] (js "aapl")) = []
  /\ age TWO_HOURS (row_at quote 0) = TWO_HOURS
  /\ ~ skips_iff_both_fresh younger_than_window.
Proof.
  split; [vm_compute; reflexivity | ]. split; [reflexivity | ].
  intros H.
  specialize (H unreachable unreachable TWO_HOURS 0%Z 0%Z
                [row_at quote 0; row_at daily 0] (js "aapl")
                (two_rows_unique 0 0)).
  destruct H as [H _].
  destruct (H ltac:(vm_compute; reflexivity)) as ((r & Hin & _ & _ & Hf) & _).
  destruct Hin as [<- | [<- | []]]; vm_compute in Hf; discriminate.
Qed.

End CacheFacts.

(** ** The fallback search *)

Module FallbackFacts.

Import Ranking Enrich Fallback.

(** Why an attempt counts as failed without ending the search: a success
    response without text, or a non-success status other than 429. *)
Definition failure_reason (r : fetch_result) : option jsstring :=
  match r with
  | NetworkFailure => None
  | Response status body =>
      if ok status then
        match Json.parse body with
        | Ok result =>
            match response_text result with
            | Ok text => if falsy text then Some (js "empty response") else None
            | Throw _ => None
            end
        | Throw _ => None
        end
      else if (status =? 429)%Z then None
      else Some (js "HTTP " ++ Z_to_js status)
  end.

Definition is_404 (r : fetch_result) : bool :=
  match r with
  | Response status _ => (status =? 404)%Z
  | NetworkFailure => false
  end.

(** What the search pushes on [errors] for an attempt. *)
Definition recorded (a : attempt) : list jsstring :=
  match failure_reason (snd a) with
  | Some reason =>
      if is_404 (snd a) then [] else [label (fst a) ++ js ": " ++ reason]
  | None => []
  end.

(** A success response that carries a non-empty text. *)
Definition answers_text (r : fetch_result) (t : jsstring) : Prop :=
  exists status body result,
    r = Response status body /\ ok status = true
    /\ Json.parse body = Ok result
    /\ response_text result = Ok (Some (JStr t)) /\ t <> [].

(** The aggregate error lists every attempted combination with its failure
    reason: the call throws an error whose message contains, for every
    request made, the model, the revision and the reason. *)
Definition lists_every_attempt {world : Type} (c : call world) : Prop :=
  exists msg,
    result c = Throw (Error msg)
    /\ forall a, In a (requests c) ->
         exists reason,
           failure_reason (snd a) = Some reason
           /\ includes (label (fst a) ++ js ": " ++ reason) msg = true.

(** A scripted network: the answers, in the order the requests arrive. *)
Definition scripted (w : list fetch_result) (rq : request)
  : fetch_result * list fetch_result :=
  match w with
  | r :: w' => (r, w')
  | [] => (NetworkFailure, [])
  end.

Definition no_indicators : Indicators.TechnicalIndicators :=
  {| Indicators.sma_20 := None; Indicators.sma_50 := None;
     Indicators.sma_200 := None; Indicators.rsi := None;
     Indicators.bb := None; Indicators.ind_macd := None |}.

Section Search.

Variable num_toString : Q -> jsstring.
Variable symbol : jsstring.
Variable price : Q.
Variable ind : Indicators.TechnicalIndicators.
Variable world : Type.
Variable fetch : world -> request -> fetch_result * world.

Let judge := Fallback.judge num_toString symbol price ind.
Let complete := Fallback.complete num_toString symbol price ind.
Let try_versions := Fallback.try_versions num_toString symbol price ind world fetch.
Let try_models := Fallback.try_models num_toString symbol price ind world fetch.
Let analyzeWithGemini :=
  Fallback.analyzeWithGemini num_toString symbol price ind world fetch.

Definition verdict_of (a : attempt) : verdict := judge (fst a) (snd a).

(** The turn of one model: the attempts made over the remaining versions,
    and how the inner loop ends. *)
Inductive turn (model : jsstring)
  : list api_version -> list attempt -> loop_exit -> Prop :=
| turn_done : turn model [] [] (Continue [])
| turn_leave v vs r res :
    judge {| req_model := model; req_version := v |} r = Leave res ->
    turn model (v :: vs) [({| req_model := model; req_version := v |}, r)] (Left res)
| turn_break v vs r err :
    judge {| req_model := model; req_version := v |} r = NextModel err ->
    turn model (v :: vs) [({| req_model := model; req_version := v |}, r)]
         (Continue [err])
| turn_continue v vs r tr ex :
    judge {| req_model := model; req_version := v |} r = NextVersion ->
    turn model vs tr ex ->
    turn model (v :: vs) (({| req_model := model; req_version := v |}, r) :: tr) ex.

(** The search over the candidates: the turns, one after the other. *)
Inductive search : list jsstring -> list attempt -> loop_exit -> Prop :=
| search_done : search [] [] (Continue [])
| search_left m ms tr res :
    turn m VERSIONS tr (Left res) -> search (m :: ms) tr (Left res)
| search_next m ms tr errs tr' ex :
    turn m VERSIONS tr (Continue errs) ->
    search ms tr' ex ->
    search (m :: ms) (tr ++ tr')
           (match ex with
            | Left res => Left res
            | Continue errs' => Continue (errs ++ errs')
            end).

Lemma try_versions_turn (model : jsstring) (vs : list api_version) (w : world) :
  turn model vs (trace (try_versions model vs w)) (exit (try_versions model vs w)).
Proof.
  revert w. induction vs as [ | v vs IH]; intros w.
  - constructor.
  - unfold try_versions. simpl.
    destruct (fetch w _) as [r w1].
    destruct (Fallback.judge _ _ _ _ _ r) as [res | | err] eqn:E; simpl.
    + now constructor.
    + constructor; [exact E | apply IH].
    + now constructor.
Qed.

Lemma try_models_search (candidates : list jsstring) (w : world) :
  search candidates (trace (try_models candidates w))
         (exit (try_models candidates w)).
Proof.
  revert w. induction candidates as [ | m ms IH]; intros w.
  - constructor.
  - unfold try_models. cbn [Fallback.try_models].
    generalize (try_versions_turn m VERSIONS w). unfold try_versions.
    destruct (Fallback.try_versions _ _ _ _ _ _ m VERSIONS w) as [ex tr w1].
    cbn [exit trace world_after]. intros Ht.
    destruct ex as [res | errs]; cbn [exit trace world_after].
    + now constructor.
    + apply search_next; [exact Ht | apply IH].
Qed.

(** An attempt that leaves the function is the last one, and decides how
    the loop ends. *)
Lemma turn_leave_last (model : jsstring) (vs : list api_version)
  (tr : list attempt) (ex : loop_exit) :
  turn model vs tr ex ->
  forall pre a post res,
    tr = pre ++ a :: post -> verdict_of a = Leave res ->
    post = [] /\ ex = Left res.
Proof.
  unfold verdict_of.
  induction 1 as [ | v vs r res0 Hj | v vs r err Hj | v vs r tr ex Hj Ht IH];
    intros pre a post res Htr Ha.
  - destruct pre; discriminate.
  - destruct pre as [ | p [ | p' pre]]; try discriminate.
    injection Htr as <- <-. simpl in Ha. split; [reflexivity | congruence].
  - destruct pre as [ | p [ | p' pre]]; try discriminate.
    injection Htr as <- <-. simpl in Ha. congruence.
  - destruct pre as [ | p pre].
    + injection Htr as <- <-. simpl in Ha. congruence.
    + injection Htr as _ Htr. now apply (IH pre a post res).
Qed.

Lemma search_leave_last (candidates : list jsstring) (tr : list attempt)
  (ex : loop_exit) :
  search candidates tr ex ->
  forall pre a post res,
    tr = pre ++ a :: post -> verdict_of a = Leave res ->
    post = [] /\ ex = Left res.
Proof.
  induction 1 as [ | m ms tr res0 Ht | m ms tr errs tr' ex Ht Hs IH];
    intros pre a post res Htr Ha.
  - destruct pre; discriminate.
  - exact (turn_leave_last _ _ _ _ Ht _ _ _ _ Htr Ha).
  - apply app_eq_app in Htr. destruct Htr as (l & [[H1 H2] | [H1 H2]]).
    + destruct l as [ | x l].
      * simpl in H2. destruct (IH [] a post res (eq_sym H2) Ha) as [-> ->]. auto.
      * simpl in H2. injection H2 as <- ->.
        destruct (turn_leave_last _ _ _ _ Ht _ _ _ _ H1 Ha) as [_ Hx].
        discriminate.
    + destruct (IH l a post res H2 Ha) as [-> ->]. auto.
Qed.

(** The turn of a model over the two revisions: one attempt on v1beta, and
    one on v1 exactly when the first asked for the next version. *)
Lemma turn_two_versions (model : jsstring) (tr : list attempt) (ex : loop_exit) :
  turn model VERSIONS tr ex ->
  exists r1,
    let a1 := ({| req_model := model; req_version := v1beta |}, r1) in
    (tr = [a1] /\ verdict_of a1 <> NextVersion)
    \/ (exists r2,
          tr = [a1; ({| req_model := model; req_version := v1 |}, r2)]
          /\ verdict_of a1 = NextVersion).
Proof.
  unfold VERSIONS, verdict_of. intros H.
  inversion H as [ | v vs r res Hj | v vs r err Hj | v vs r tr1 ex1 Hj H1]; subst;
    exists r; simpl.
  - left. split; [reflexivity | congruence].
  - left. split; [reflexivity | congruence].
  - right.
    inversion H1 as [ | v vs r2 res Hj2 | v vs r2 err Hj2 | v vs r2 tr2 ex2 Hj2 H2];
      subst; exists r2; split; try reflexivity; try exact Hj.
    inversion H2; subst. reflexivity.
Qed.

Lemma turn_retries_v1 (model : jsstring) (tr : list attempt) (ex : loop_exit) :
  turn model VERSIONS tr ex ->
  forall pre a post,
    tr = pre ++ a :: post ->
    req_version (fst a) = v1beta -> verdict_of a = NextVersion ->
    exists b post',
      post = b :: post'
      /\ fst b = {| req_model := req_model (fst a); req_version := v1 |}.
Proof.
  intros H pre a post Htr Hv Ha.
  destruct (turn_two_versions _ _ _ H) as (r1 & [[E Hn] | (r2 & E & _)]);
    cbv zeta in *; rewrite E in Htr.
  - destruct pre as [ | p [ | p' pre]]; try discriminate.
    injection Htr as Ea _. rewrite Ea in Hn. contradiction.
  - destruct pre as [ | p [ | p' [ | p'' pre]]]; try discriminate.
    + injection Htr as Ea Epost. rewrite <- Ea, <- Epost.
      eexists. exists []. split; reflexivity.
    + injection Htr as _ Ea _. rewrite <- Ea in Hv. discriminate.
Qed.

Lemma search_retries_v1 (candidates : list jsstring) (tr : list attempt)
  (ex : loop_exit) :
  search candidates tr ex ->
  forall pre a post,
    tr = pre ++ a :: post ->
    req_version (fst a) = v1beta -> verdict_of a = NextVersion ->
    exists b post',
      post = b :: post'
      /\ fst b = {| req_model := req_model (fst a); req_version := v1 |}.
Proof.
  induction 1 as [ | m ms tr res0 Ht | m ms tr errs tr' ex Ht Hs IH];
    intros pre a post Htr Hv Ha.
  - destruct pre; discriminate.
  - exact (turn_retries_v1 _ _ _ Ht _ _ _ Htr Hv Ha).
  - apply app_eq_app in Htr. destruct Htr as (l & [[H1 H2] | [H1 H2]]).
    + destruct l as [ | x l].
      * simpl in H2. exact (IH [] a post (eq_sym H2) Hv Ha).
      * simpl in H2. injection H2 as <- ->.
        destruct (turn_retries_v1 _ _ _ Ht _ _ _ H1 Hv Ha) as (b & post' & -> & Hb).
        exists b, (post' ++ tr'). split; [reflexivity | exact Hb].
    + exact (IH l a post H2 Hv Ha).
Qed.

(** How the loop judges an attempt that failed without ending the search. *)
Lemma judge_failure (rq : request) (r : fetch_result) (reason : jsstring) :
  failure_reason r = Some reason ->
  judge rq r = if is_404 r then NextVersion
               else NextModel (label rq ++ js ": " ++ reason).
Proof.
  unfold judge, Fallback.judge, failure_reason, is_404.
  destruct r as [ | status body]; [discriminate | ].
  destruct (ok status) eqn:Eok.
  - assert (E404 : (status =? 404)%Z = false).
    { unfold ok in Eok. apply andb_prop in Eok. destruct Eok as [_ Hle].
      apply Z.leb_le in Hle. apply Z.eqb_neq. lia. }
    rewrite E404.
    destruct (Json.parse body) as [res | e]; [ | discriminate].
    destruct (response_text res) as [text | e]; [ | discriminate].
    destruct (falsy text); [ | discriminate].
    intros H. injection H as <-. reflexivity.
  - destruct (status =? 429)%Z; [discriminate | ].
    intros H. injection H as <-.
    destruct (status =? 404)%Z; reflexivity.
Qed.

Lemma recorded_failure (rq : request) (r : fetch_result) (reason : jsstring) :
  failure_reason r = Some reason ->
  recorded (rq, r) = if is_404 r then [] else [label rq ++ js ": " ++ reason].
Proof. intros E. unfold recorded. cbn [fst snd]. now rewrite E. Qed.

Lemma turn_failures (model : jsstring) (vs : list api_version)
  (tr : list attempt) (ex : loop_exit) :
  turn model vs tr ex ->
  (forall a, In a tr -> failure_reason (snd a) <> None) ->
  ex = Continue (flat_map recorded tr).
Proof.
  induction 1 as [ | v vs r res0 Hj | v vs r err Hj | v vs r tr ex Hj Ht IH];
    intros Hall.
  - reflexivity.
  - specialize (Hall _ (or_introl eq_refl)). simpl in Hall.
    destruct (failure_reason r) as [reason | ] eqn:E; [ | contradiction].
    rewrite (judge_failure _ _ _ E) in Hj. destruct (is_404 r); discriminate.
  - specialize (Hall _ (or_introl eq_refl)). simpl in Hall.
    destruct (failure_reason r) as [reason | ] eqn:E; [ | contradiction].
    rewrite (judge_failure _ _ _ E) in Hj.
    cbn [flat_map]. rewrite (recorded_failure _ _ _ E), app_nil_r.
    destruct (is_404 r); [discriminate | ]. injection Hj as <-. reflexivity.
  - rewrite IH by (intros a Ha; apply Hall; now right).
    specialize (Hall _ (or_introl eq_refl)). simpl in Hall.
    destruct (failure_reason r) as [reason | ] eqn:E; [ | contradiction].
    rewrite (judge_failure _ _ _ E) in Hj.
    cbn [flat_map]. rewrite (recorded_failure _ _ _ E).
    destruct (is_404 r); [reflexivity | discriminate].
Qed.

Lemma search_failures (candidates : list jsstring) (tr : list attempt)
  (ex : loop_exit) :
  search candidates tr ex ->
  (forall a, In a tr -> failure_reason (snd a) <> None) ->
  ex = Continue (flat_map recorded tr).
Proof.
  induction 1 as [ | m ms tr res0 Ht | m ms tr errs tr' ex Ht Hs IH]; intros Hall.
  - reflexivity.
  - pose proof (turn_failures _ _ _ _ Ht Hall). discriminate.
  - assert (H1 : Continue errs = Continue (flat_map recorded tr)).
    { apply (turn_failures _ _ _ _ Ht). intros a Ha. apply Hall, in_or_app. now left. }
    rewrite IH by (intros a Ha; apply Hall, in_or_app; now right).
    injection H1 as ->. now rewrite flat_map_app.
Qed.

Lemma analyze_search (available : list GeminiModel) (w : world) :
  rankModels available <> [] ->
  exists ex,
    search (rankModels available) (requests (analyzeWithGemini available w)) ex
    /\ result (analyzeWithGemini available w)
       = match ex with
         | Left res => res
         | Continue errors =>
             Throw (Error (all_failed (rankModels available) errors))
         end.
Proof.
  intros Hc. unfold analyzeWithGemini, Fallback.analyzeWithGemini.
  destruct (rankModels available) as [ | m ms] eqn:E; [contradiction | ].
  cbn [result requests]. eexists. split; [apply try_models_search | reflexivity].
Qed.

Lemma requests_need_candidates (available : list GeminiModel) (w : world)
  (a : attempt) :
  In a (requests (analyzeWithGemini available w)) -> rankModels available <> [].
Proof.
  unfold analyzeWithGemini, Fallback.analyzeWithGemini.
  destruct (rankModels available); [intros [] | discriminate].
Qed.

(** C3.  If an attempt of the search, on any model and revision, is answered
    with HTTP 429, that attempt is the last request of the call, no other
    model or revision being asked, and the call throws the rate-limit error
    (the quota message when the body says that the limit is 0). *)
Theorem rate_limit_aborts_search (available : list GeminiModel) (w : world)
  (pre : list attempt) (a : attempt) (post : list attempt) (body : jsstring) :
  requests (analyzeWithGemini available w) = pre ++ a :: post ->
  snd a = Response 429 body ->
  post = []
  /\ result (analyzeWithGemini available w)
     = Throw (Error (if includes (js "limit: 0") body
                     then QUOTA_ZERO else RATE_LIMIT)).
Proof.
  intros Htr Ha.
  assert (Hc : rankModels available <> []).
  { apply (requests_need_candidates available w a). rewrite Htr.
    apply in_or_app. right. now left. }
  destruct (analyze_search available w Hc) as (ex & Hs & Hres).
  destruct (search_leave_last _ _ _ Hs pre a post
              (Throw (Error (if includes (js "limit: 0") body
                             then QUOTA_ZERO else RATE_LIMIT))) Htr)
    as [Hpost Hex].
  { unfold verdict_of. rewrite Ha. reflexivity. }
  split; [exact Hpost | ]. rewrite Hres, Hex. reflexivity.
Qed.

Lemma judge_text (rq : request) (r : fetch_result) (t : jsstring) :
  answers_text r t -> judge rq r = Leave (complete t).
Proof.
  intros (status & body & res & -> & Hok & Hp & Ht & Hne).
  unfold judge, Fallback.judge. rewrite Hok, Hp, Ht.
  destruct t as [ | c t]; [contradiction | reflexivity].
Qed.

(** C4.  An attempt on revision v1beta answered with HTTP 404 is followed by
    a request for the same model on revision v1; and if that request is
    answered with a success response carrying text, it is the last request
    of the call, no other model being asked; when the text parses and the
    parsed value sanitizes, the call returns a result: the sanitized
    analysis, enriched with the indicators. *)
Theorem not_found_retries_v1 (available : list GeminiModel) (w : world)
  (pre : list attempt) (a : attempt) (post : list attempt) (body : jsstring) :
  requests (analyzeWithGemini available w) = pre ++ a :: post ->
  req_version (fst a) = v1beta ->
  snd a = Response 404 body ->
  exists b post',
    post = b :: post'
    /\ fst b = {| req_model := req_model (fst a); req_version := v1 |}
    /\ (forall t, answers_text (snd b) t ->
        post' = []
        /\ forall raw analysis,
             Repair.parseJsonResponse t = Ok raw ->
             Sanitizer.sanitizeAnalysis num_toString raw symbol price = Ok analysis ->
             result (analyzeWithGemini available w)
             = Ok (enrichWithIndicators analysis ind)).
Proof.
  intros Htr Hv Ha.
  assert (Hc : rankModels available <> []).
  { apply (requests_need_candidates available w a). rewrite Htr.
    apply in_or_app. right. now left. }
  destruct (analyze_search available w Hc) as (ex & Hs & Hres).
  destruct (search_retries_v1 _ _ _ Hs pre a post Htr Hv) as (b & post' & Hpost & Hb).
  { unfold verdict_of. rewrite Ha. reflexivity. }
  exists b, post'. split; [exact Hpost | ]. split; [exact Hb | ].
  intros t Ht.
  destruct (search_leave_last _ _ _ Hs (pre ++ [a]) b post' (complete t))
    as [Hlast Hex].
  - rewrite Htr, Hpost, <- app_assoc. reflexivity.
  - apply judge_text. exact Ht.
  - split; [exact Hlast | ].
    intros raw analysis Hraw Hana. rewrite Hres, Hex.
    unfold complete, Fallback.complete. rewrite Hraw. cbn [bind].
    rewrite Hana. reflexivity.
Qed.

(** C5, amended.  When every attempt of a search over at least one candidate
    is answered with a non-success status other than 429 or with a success
    response without text, the call throws a single aggregate error that
    names every candidate model and lists, in order, the model, revision and
    reason (the HTTP status, or empty response) of every attempt that was
    not answered with 404; attempts answered with 404 are not listed. *)
Theorem exhaustion_reports_failures (available : list GeminiModel) (w : world) :
  rankModels available <> [] ->
  (forall a, In a (requests (analyzeWithGemini available w)) ->
             failure_reason (snd a) <> None) ->
  result (analyzeWithGemini available w)
  = Throw (Error (all_failed (rankModels available)
                    (flat_map recorded (requests (analyzeWithGemini available w))))).
Proof.
  intros Hc Hall.
  destruct (analyze_search available w Hc) as (ex & Hs & Hres).
  rewrite Hres, (search_failures _ _ _ Hs Hall). reflexivity.
Qed.

End Search.

End FallbackFacts.

Module FallbackExamples.

Import Ranking Enrich Fallback FallbackFacts SanitizerFacts RankingFacts.

Definition run_script (available : list GeminiModel) (script : list fetch_result)
  : call (list fetch_result) :=
  analyzeWithGemini no_digits (js "AAPL") (inject_Z 100) no_indicators
    (list fetch_result) scripted available script.

Definition two_models : list GeminiModel :=
  [gen_content "gemini-2.0-flash"; gen_content "gemini-2.5-pro"].

(** The body of a success response whose first candidate carries the text
    of an empty JSON object. *)
Definition body_with_object : jsstring :=
  jsq "{'candidates':[{'content':{'parts':[{'text':'{}'}]}}]}".

(** The first model is rate limited on its first revision. *)
Lemma rate_limit_aborts_search_witness :
  requests (run_script two_models [Response 429 (js "quota exceeded")])
  = [({| req_model := js "gemini-2.5-pro"; req_version := v1beta |},
      Response 429 (js "quota exceeded"))]
  /\ result (run_script two_models [Response 429 (js "quota exceeded")])
     = Throw (Error RATE_LIMIT).
Proof.
  split; [vm_compute; reflexivity | ].
  refine (proj2 (rate_limit_aborts_search no_digits (js "AAPL") (inject_Z 100)
                   no_indicators (list fetch_result) scripted two_models
                   [Response 429 (js "quota exceeded")] []
                   ({| req_model := js "gemini-2.5-pro"; req_version := v1beta |},
                    Response 429 (js "quota exceeded")) []
                   (js "quota exceeded") _ _)).
  - vm_compute; reflexivity.
  - reflexivity.
Defined.

(** The first model answers 404 on v1beta and succeeds on v1: the second
    model is never asked, and the call returns the sanitized analysis. *)
Lemma not_found_retries_v1_witness :
  exists b analysis,
    requests (run_script two_models [Response 404 []; Response 200 body_with_object])
    = [({| req_model := js "gemini-2.5-pro"; req_version := v1beta |}, Response 404 []); b]
    /\ fst b = {| req_model := js "gemini-2.5-pro"; req_version := v1 |}
    /\ Sanitizer.sanitizeAnalysis no_digits (JObj []) (js "AAPL") (inject_Z 100)
       = Ok analysis
    /\ Sanitizer.symbol analysis = JStr (js "AAPL")
    /\ result (run_script two_models [Response 404 []; Response 200 body_with_object])
       = Ok (enrichWithIndicators analysis no_indicators).
Proof.
  destruct (not_found_retries_v1 no_digits (js "AAPL") (inject_Z 100)
              no_indicators (list fetch_result) scripted two_models
              [Response 404 []; Response 200 body_with_object] []
              ({| req_model := js "gemini-2.5-pro"; req_version := v1beta |},
               Response 404 [])
              [({| req_model := js "gemini-2.5-pro"; req_version := v1 |},
                Response 200 body_with_object)] [])
    as (b & post' & Hpost & Hb & Hok).
  - vm_compute; reflexivity.
  - reflexivity.
  - reflexivity.
  - injection Hpost as <- <-.
    destruct (Hok (js "{}")) as [_ Hres].
    { exists 200%Z, body_with_object. eexists.
      split; [reflexivity | ]. split; [reflexivity | ].
      split; [vm_compute; reflexivity | ]. split; [reflexivity | discriminate]. }
    eexists. eexists.
    split; [vm_compute; reflexivity | ].
    split; [reflexivity | ].
    split; [vm_compute; reflexivity | ].
    split; [reflexivity | ].
    apply (Hres (JObj [])); vm_compute; reflexivity.
Defined.

(** One model, refused with HTTP 500 on its first revision. *)
Lemma exhaustion_reports_failures_witness :
  result (run_script [gen_content "gemini-pro"] [Response 500 []])
  = Throw (Error (all_failed [js "gemini-pro"] [js "gemini-pro/v1beta: HTTP 500"])).
Proof.
  unfold run_script.
  rewrite (exhaustion_reports_failures no_digits (js "AAPL") (inject_Z 100)
             no_indicators (list fetch_result) scripted
             [gen_content "gemini-pro"] [Response 500 []]).
  - vm_compute; reflexivity.
  - vm_compute; discriminate.
  - intros a Ha. vm_compute in Ha. destruct Ha as [<- | []]. vm_compute. discriminate.
Defined.

(** C5 as stated fails: one model answered with 404 on both revisions.  Both
    attempts failed, the aggregate error is thrown, and its message names
    the model but neither revision nor any reason. *)
Lemma exhaustion_omits_not_found :
  let c := run_script [gen_content "gemini-pro"] [Response 404 []; Response 404 []] in
  length (requests c) = 2
  /\ (forall a, In a (requests c) -> failure_reason (snd a) = Some (js "HTTP 404"))
  /\ result c = Throw (Error (all_failed [js "gemini-pro"] []))
  /\ ~ lists_every_attempt c.
Proof.
  cbv zeta. split; [vm_compute; reflexivity | ].
  split.
  { intros a Ha. vm_compute in Ha.
    destruct Ha as [<- | [<- | []]]; vm_compute; reflexivity. }
  split; [vm_compute; reflexivity | ].
  intros (msg & Hmsg & Hall).
  assert (E : result (run_script [gen_content "gemini-pro"]
                        [Response 404 []; Response 404 []])
              = Throw (Error (all_failed [js "gemini-pro"] [])))
    by (vm_compute; reflexivity).
  rewrite E in Hmsg. injection Hmsg as <-.
  destruct (Hall ({| req_model := js "gemini-pro"; req_version := v1beta |},
                  Response 404 [])) as (reason & Hr & Hin).
  - vm_compute. left. reflexivity.
  - vm_compute in Hr. injection Hr as <-. vm_compute in Hin. discriminate.
Qed.

End FallbackExamples.

(* ================================================================== *)
(** * Part III: the rest of the pipeline *)
(* ================================================================== *)


(** ** Moving average, RSI and Bollinger bands
    ([calculateSMA], [calculateRSI], [calculateBollingerBands]) *)

Module Averages.

Import Indicators.
Local Open Scope Q_scope.

(** [xs.slice(-n)]: the last [n] elements, all of them when there are fewer;
    [slice(-0)] is [slice(0)], the whole array. *)
Definition slice_last {A} (n : nat) (xs : list A) : list A :=
  match n with
  | O => xs
  | _ => skipn (length xs - n) xs
  end.

(** [xs.reduce((sum, d) => sum + f(d), 0)] *)
Definition sum_by {A} (f : A -> Q) (xs : list A) : Q :=
  fold_left (fun sum d => sum + f d) xs 0.

Definition calculateSMA (data : list StockDailyData) (period : nat) : option Q :=
  if (length data <? period)%nat then None
  else
    let slice := slice_last period data in
    Some (sum_by close slice / of_nat period).

(** One iteration of the loop of [calculateRSI] at index [i]. *)
Definition rsi_step (closes : list Q) (acc : Q * Q) (i : nat) : Q * Q :=
  let (gains, losses) := acc in
  let change := nth i closes 0 - nth (i - 1) closes 0 in
  if negb (Qle_bool change 0)   (* change > 0 *)
  then (gains + change, losses)
  else (gains, losses - change).

Definition calculateRSI (data : list StockDailyData) (period : nat) : option Q :=
  if (length data <? period + 1)%nat then None
  else
    let closes := map close data in
    let (gains, losses) :=
      fold_left (rsi_step closes) (seq (length data - period) period) (0, 0) in
    let avgGain := gains / of_nat period in
    let avgLoss := losses / of_nat period in
    if Qeq_bool avgLoss 0 then Some (inject_Z 100)
    else
      let rs := avgGain / avgLoss in
      Some (inject_Z 100 - inject_Z 100 / (1 + rs)).

Section Bands.

(** [Math.sqrt], left to the runtime. *)
Variable sqrt : Q -> Q.

Definition calculateBollingerBands (data : list StockDailyData) (period : nat)
  (stdDev : Q) : option Bands :=
  if (length data <? period)%nat then None
  else
    let slice := slice_last period data in
    let middle := sum_by close slice / of_nat period in
    let variance :=
      sum_by (fun d => (close d - middle) * (close d - middle)) slice
      / of_nat period in
    let sd := sqrt variance in
    Some {| upper := middle + stdDev * sd;
            middle := middle;
            lower := middle - stdDev * sd |}.

End Bands.

End Averages.

Module AveragesFacts.

Import Indicators Averages.
Local Open Scope Q_scope.

Lemma of_nat_pos (n : nat) : (0 < n)%nat -> 0 < of_nat n.
Proof.
  intros H. unfold of_nat, Qlt. simpl. lia.
Qed.

Definition flat_bar (c : Q) : StockDailyData :=
  {| date := []; open := c; high := c; low := c; close := c; volume := 1 |}.

(** The loop of [calculateRSI] keeps both sums non-negative. *)
Lemma rsi_fold_nonneg (closes : list Q) (idxs : list nat) (acc : Q * Q) :
  0 <= fst acc -> 0 <= snd acc ->
  0 <= fst (fold_left (rsi_step closes) idxs acc)
  /\ 0 <= snd (fold_left (rsi_step closes) idxs acc).
Proof.
  revert acc. induction idxs as [ | i idxs IH]; intros [g l] Hg Hl; simpl in *.
  - auto.
  - apply IH; unfold rsi_step;
      destruct (Qle_bool (nth i closes 0 - nth (i - 1) closes 0) 0) eqn:E;
      simpl; try assumption.
    + assert (~ nth i closes 0 - nth (i - 1) closes 0 <= 0)
        by (intros H; apply Qle_bool_iff in H; congruence).
      lra.
    + apply Qle_bool_iff in E. lra.
Qed.

(** With no falling step among the indices, nothing is added to the
    losses. *)
Lemma rsi_fold_no_loss (closes : list Q) (idxs : list nat) (acc : Q * Q) :
  (forall i, In i idxs -> nth (i - 1) closes 0 <= nth i closes 0) ->
  snd (fold_left (rsi_step closes) idxs acc) == snd acc.
Proof.
  revert acc. induction idxs as [ | i idxs IH]; intros [g l] H; simpl.
  - reflexivity.
  - rewrite IH by (intros j Hj; apply H; now right).
    specialize (H i (or_introl eq_refl)). unfold rsi_step.
    destruct (Qle_bool (nth i closes 0 - nth (i - 1) closes 0) 0) eqn:E; simpl.
    + apply Qle_bool_iff in E. lra.
    + reflexivity.
Qed.

(** X2.  For a positive period, [calculateRSI] returns null exactly when the
    history has fewer than [period + 1] bars, and otherwise a value between
    0 and 100. *)
Theorem calculateRSI_range (data : list StockDailyData) (period : nat) :
  (0 < period)%nat ->
  match calculateRSI data period with
  | None => (length data < period + 1)%nat
  | Some r => (period + 1 <= length data)%nat /\ 0 <= r <= inject_Z 100
  end.
Proof.
  intros Hp. unfold calculateRSI.
  destruct (Nat.ltb_spec (length data) (period + 1)) as [Hl | Hl]; [exact Hl | ].
  pose proof (rsi_fold_nonneg (map close data) (seq (length data - period) period)
                (0, 0) (Qle_refl 0) (Qle_refl 0)) as Hnn.
  destruct (fold_left _ _ (0, 0)) as [g l]. simpl in Hnn. destruct Hnn as [Hg Hlo].
  pose proof (of_nat_pos period Hp) as Hn.
  destruct (Qeq_bool (l / of_nat period) 0) eqn:E.
  - split; [exact Hl | ]. split; [discriminate | apply Qle_refl].
  - split; [exact Hl | ].
    assert (HL : 0 < l / of_nat period).
    { assert (0 <= l / of_nat period) by (apply Qle_shift_div_l; [exact Hn | lra]).
      assert (~ l / of_nat period == 0)
        by (intros H0; apply Qeq_bool_iff in H0; congruence).
      lra. }
    assert (HG : 0 <= g / of_nat period)
      by (apply Qle_shift_div_l; [exact Hn | lra]).
    set (rs := g / of_nat period / (l / of_nat period)).
    assert (Hrs : 0 <= rs) by (apply Qle_shift_div_l; [exact HL | lra]).
    assert (H1 : 0 <= inject_Z 100 / (1 + rs)).
    { apply Qle_shift_div_l; [lra | ]. change (inject_Z 100) with 100. lra. }
    assert (H2 : inject_Z 100 / (1 + rs) <= inject_Z 100).
    { apply Qle_shift_div_r; [lra | ]. change (inject_Z 100) with 100. lra. }
    split; lra.
Qed.

Lemma calculateRSI_range_witness :
  match calculateRSI [flat_bar 1; flat_bar 3; flat_bar 2] 2 with
  | None => False
  | Some r => 0 <= r <= inject_Z 100
  end.
Proof.
  pose proof (calculateRSI_range [flat_bar 1; flat_bar 3; flat_bar 2] 2) as H.
  destruct (calculateRSI _ 2) as [r | ].
  - apply H. lia.
  - assert (Hl : (3 < 2 + 1)%nat); [apply H | ]; lia.
Defined.

(** X3.  When no close of the window is below its predecessor (a flat window
    included), the loss sum is zero and [calculateRSI] returns exactly 100. *)
Theorem calculateRSI_without_losses (data : list StockDailyData) (period : nat) :
  (0 < period)%nat ->
  (period + 1 <= length data)%nat ->
  (forall i, (length data - period <= i < length data)%nat ->
             close (nth (i - 1) data (flat_bar 0)) <= close (nth i data (flat_bar 0))) ->
  calculateRSI data period = Some (inject_Z 100).
Proof.
  intros Hp Hl Hup. unfold calculateRSI.
  destruct (Nat.ltb_spec (length data) (period + 1)) as [Hl' | _]; [lia | ].
  pose proof (rsi_fold_no_loss (map close data) (seq (length data - period) period)
                (0, 0)) as Hno.
  destruct (fold_left _ _ (0, 0)) as [g l]. simpl in Hno.
  assert (El : l == 0).
  { apply Hno. intros i Hi. apply in_seq in Hi.
    change 0 with (close (flat_bar 0)). rewrite !map_nth. apply Hup. lia. }
  assert (E : Qeq_bool (l / of_nat period) 0 = true).
  { apply Qeq_bool_iff. rewrite El. unfold Qdiv. ring. }
  rewrite E. reflexivity.
Qed.

Lemma calculateRSI_without_losses_witness :
  calculateRSI [flat_bar 5; flat_bar 5; flat_bar 7] 2 = Some (inject_Z 100).
Proof.
  apply (calculateRSI_without_losses [flat_bar 5; flat_bar 5; flat_bar 7] 2).
  - lia.
  - simpl. lia.
  - intros i Hi. simpl in Hi.
    assert (Hc : i = 1%nat \/ i = 2%nat) by lia.
    destruct Hc as [-> | ->]; simpl; discriminate.
Defined.

Lemma sum_by_nonneg {A} (f : A -> Q) (xs : list A) :
  (forall d, 0 <= f d) -> 0 <= sum_by f xs.
Proof.
  intros Hf. unfold sum_by.
  assert (G : forall a, 0 <= a -> 0 <= fold_left (fun s d => s + f d) xs a).
  { induction xs as [ | x xs IH]; intros a Ha; simpl; [exact Ha | ].
    apply IH. specialize (Hf x). lra. }
  apply G. apply Qle_refl.
Qed.

Section Bands.

Variable sqrt : Q -> Q.

(** The population variance of the window, as [calculateBollingerBands]
    computes it. *)
Definition window_variance (data : list StockDailyData) (period : nat) : Q :=
  let slice := slice_last period data in
  let middle := sum_by close slice / of_nat period in
  sum_by (fun d => (close d - middle) * (close d - middle)) slice / of_nat period.

(** X5.  When the square root of a non-negative number is non-negative and
    [stdDev] is non-negative, the bands of a positive period are ordered:
    lower, middle, upper.  The variance under the root is a mean of
    squares. *)
Theorem bollinger_ordered (data : list StockDailyData) (period : nat)
  (stdDev : Q) (b : Bands) :
  (forall x, 0 <= x -> 0 <= sqrt x) ->
  (0 < period)%nat ->
  0 <= stdDev ->
  calculateBollingerBands sqrt data period stdDev = Some b ->
  lower b <= middle b <= upper b.
Proof.
  intros Hsqrt Hp Hk. unfold calculateBollingerBands.
  destruct (Nat.ltb_spec (length data) period) as [Hl | Hl]; [discriminate | ].
  intros H. injection H as <-. cbn [middle upper lower].
  fold (window_variance data period).
  pose proof (of_nat_pos period Hp) as Hn.
  assert (Hv : 0 <= window_variance data period).
  { unfold window_variance. cbv zeta. apply Qle_shift_div_l; [exact Hn | ].
    rewrite Qmult_0_l. apply sum_by_nonneg. intros d.
    generalize (close d - sum_by close (slice_last period data) / of_nat period).
    intros x. nra. }
  pose proof (Hsqrt _ Hv) as Hs.
  pose proof (Qmult_le_0_compat _ _ Hk Hs). split; lra.
Qed.

End Bands.

Lemma bollinger_ordered_witness :
  exists b,
    calculateBollingerBands (fun x => x) [flat_bar 5; flat_bar 9] 2 (inject_Z 2)
    = Some b
    /\ lower b <= middle b <= upper b.
Proof.
  eexists. split; [reflexivity | ].
  apply (bollinger_ordered (fun x => x) [flat_bar 5; flat_bar 9] 2 (inject_Z 2)).
  - intros x Hx. exact Hx.
  - lia.
  - discriminate.
  - reflexivity.
Defined.

End AveragesFacts.

(** ** Session middleware ([updateSession]) *)

Module Middleware.

Definition publicPaths : list jsstring := [js "/login"; js "/signup"; js "/auth"].

(** What the middleware answers: a redirect to the same URL with another
    pathname, or the response that lets the request through. *)
Inductive decision : Type :=
| Redirect (pathname : jsstring)
| Next.

(** The routing part of [updateSession]: [user] tells whether
    [supabase.auth.getUser()] found a user (the cookie refresh that comes
    with it does not bear on the decision). *)
Definition updateSession (user : bool) (pathname : jsstring) : decision :=
  let isPublicPath := existsb (fun path => starts_with path pathname) publicPaths in
  if negb user && negb isPublicPath && negb (str_eqb pathname (js "/"))
  then Redirect (js "/login")
  else if user && (str_eqb pathname (js "/login") || str_eqb pathname (js "/signup"))
  then Redirect (js "/dashboard")
  else if user && str_eqb pathname (js "/")
  then Redirect (js "/dashboard")
  else Next.

End Middleware.

Module MiddlewareFacts.

Import Middleware.

Definition is_public (pathname : jsstring) : Prop :=
  exists path, In path publicPaths /\ starts_with path pathname = true.

(** X7.  A request without a user is let through exactly when its pathname
    is the root or starts with a public prefix, and is otherwise sent to
    /login; a request with a user is never sent to /login, and is sent to
    /dashboard exactly on /login, /signup and the root. *)
Theorem updateSession_access (pathname : jsstring) :
  (updateSession false pathname = Next
   <-> pathname = js "/" \/ is_public pathname)
  /\ (updateSession false pathname <> Next
      -> updateSession false pathname = Redirect (js "/login"))
  /\ updateSession true pathname <> Redirect (js "/login")
  /\ (updateSession true pathname = Redirect (js "/dashboard")
      <-> pathname = js "/login" \/ pathname = js "/signup" \/ pathname = js "/")
  /\ (updateSession true pathname <> Redirect (js "/dashboard")
      -> updateSession true pathname = Next).
Proof.
  assert (Hpub : existsb (fun path => starts_with path pathname) publicPaths = true
                 <-> is_public pathname) by apply existsb_exists.
  assert (Hne : forall a b : jsstring, str_eqb a b = false -> a <> b).
  { intros a b H E. apply JsFacts.str_eqb_eq in E. congruence. }
  unfold updateSession. cbv zeta.
  destruct (str_eqb pathname (js "/")) eqn:Er.
  { apply JsFacts.str_eqb_eq in Er. subst pathname. cbn.
    repeat split; try tauto; try discriminate; auto. }
  destruct (str_eqb pathname (js "/login")) eqn:El.
  { apply JsFacts.str_eqb_eq in El. subst pathname. cbn.
    repeat split; try tauto; try discriminate; auto;
      try (intros _; right; apply Hpub; reflexivity). }
  destruct (str_eqb pathname (js "/signup")) eqn:Es.
  { apply JsFacts.str_eqb_eq in Es. subst pathname. cbn.
    repeat split; try tauto; try discriminate; auto;
      try (intros _; right; apply Hpub; reflexivity). }
  apply Hne in Er, El, Es. cbn [negb andb orb].
  destruct (existsb (fun path => starts_with path pathname) publicPaths) eqn:Ep;
    cbn [negb andb].
  - repeat split; try tauto; try discriminate;
      try (intros _; right; apply Hpub; reflexivity).
  - repeat split; try tauto; try discriminate;
      try (intros [H | H]; [contradiction | apply Hpub in H; discriminate]).
Qed.

(** X8.  A redirect never loops: the pathname a request is redirected to is
    let through for the same user. *)
Theorem updateSession_no_loop (user : bool) (pathname target : jsstring) :
  updateSession user pathname = Redirect target ->
  updateSession user target = Next.
Proof.
  unfold updateSession at 1. cbv zeta.
  destruct user; cbn [negb andb].
  - destruct (str_eqb pathname (js "/login") || str_eqb pathname (js "/signup")).
    + intros H. injection H as <-. reflexivity.
    + destruct (str_eqb pathname (js "/")); [ | discriminate].
      intros H. injection H as <-. reflexivity.
  - destruct (negb _ && negb _); [ | discriminate].
    intros H. injection H as <-. reflexivity.
Qed.

Lemma updateSession_no_loop_witness :
  updateSession false (js "/dashboard/watchlist") = Redirect (js "/login")
  /\ updateSession false (js "/login") = Next.
Proof.
  split; [reflexivity | ].
  apply (updateSession_no_loop false (js "/dashboard/watchlist") (js "/login")).
  reflexivity.
Defined.

End MiddlewareFacts.

(** ** The cache as a store: writes and later reads *)

Module CacheStoreFacts.

Import Cache CacheFacts.

Lemma unique_key_determines (t : table) (a b : row) :
  unique_keys t -> In a t -> In b t -> key a = key b -> a = b.
Proof.
  unfold unique_keys. induction t as [ | x t IH]; simpl; intros Hu Ha Hb Hk.
  - destruct Ha.
  - apply NoDup_cons_iff in Hu. destruct Hu as [Hx Ht].
    destruct Ha as [-> | Ha]; destruct Hb as [-> | Hb].
    + reflexivity.
    + exfalso. apply Hx. rewrite Hk. now apply in_map.
    + exfalso. apply Hx. rewrite <- Hk. now apply in_map.
    + now apply IH.
Qed.

(** Reading back the key just written finds the written row. *)
Lemma read_after_write (t : table) (r : row) (since : Z) :
  unique_keys t ->
  (since <= fetched_at r)%Z ->
  single (select (upsert r t) (symbol r) (kind r) since) = Some r.
Proof.
  intros Hu Hs.
  pose proof (upsert_unique r t Hu) as Hu'.
  destruct (proj2 (single_select (upsert r t) (symbol r) (kind r) since Hu'))
    as (r' & Hr').
  { exists r. split; [apply upsert_In | auto]. }
  rewrite Hr'. f_equal.
  assert (Hin : In r' (select (upsert r t) (symbol r) (kind r) since)).
  { destruct (select (upsert r t) (symbol r) (kind r) since) as [ | x [ | y l]];
      try discriminate.
    injection Hr' as ->. now left. }
  apply select_In in Hin. destruct Hin as (Hin & Hsym & Hkind & _).
  apply (unique_key_determines (upsert r t)); try assumption.
  - apply upsert_In.
  - unfold key. now rewrite Hsym, Hkind.
Qed.

(** A write leaves the reads of every other key as they were. *)
Lemma read_other_key (t : table) (r : row) (s : jsstring) (k : data_type)
  (since : Z) :
  (s, k) <> key r ->
  select (upsert r t) s k since = select t s k since.
Proof.
  intros Hk.
  assert (Hout : forall x, key x = key r ->
            (str_eqb (symbol x) s && data_type_eqb (kind x) k
             && (since <=? fetched_at x)%Z) = false).
  { intros x Hx.
    destruct (str_eqb (symbol x) s) eqn:E1; [ | reflexivity].
    destruct (data_type_eqb (kind x) k) eqn:E2; [ | reflexivity].
    exfalso. apply Hk. rewrite <- Hx. unfold key.
    apply JsFacts.str_eqb_eq in E1. apply data_type_eqb_eq in E2. congruence. }
  unfold select. induction t as [ | x t IH]; simpl.
  - now rewrite (Hout r eq_refl).
  - destruct (same_key x r) eqn:E; simpl.
    + apply same_key_eq in E. now rewrite (Hout r eq_refl), (Hout x E).
    + now rewrite IH.
Qed.

(** X9.  On a table with unique keys, an upsert is read back: the query for
    the written row's symbol and kind, with a bound no later than its
    timestamp, finds exactly that row; and the queries for any other symbol
    or kind return what they returned before the write. *)
Theorem upsert_then_select (t : table) (r : row) (since : Z) :
  unique_keys t ->
  (since <= fetched_at r)%Z ->
  single (select (upsert r t) (symbol r) (kind r) since) = Some r
  /\ unique_keys (upsert r t)
  /\ (forall s k since', (s, k) <> key r ->
        select (upsert r t) s k since' = select t s k since').
Proof.
  intros Hu Hs. split; [now apply read_after_write | ].
  split; [now apply upsert_unique | ].
  intros s k since' Hk. now apply read_other_key.
Qed.

Lemma upsert_then_select_witness :
  single (select (upsert (row_at quote 50) [row_at quote 10; row_at daily 20])
                 (js "AAPL") quote 30) = Some (row_at quote 50).
Proof.
  exact (proj1 (upsert_then_select [row_at quote 10; row_at daily 20]
                  (row_at quote 50) 30 (two_rows_unique 10 20)
                  ltac:(simpl; lia))).
Defined.

(** X10.  After a miss whose two live fetches were answered, a second
    analysis of the same symbol, at any time within two hours of both write
    timestamps, makes no live fetch, returns the payloads that were fetched,
    and leaves the cache as it is. *)
Theorem second_load_hits
  (getStockQuote getDailyData getStockQuote' getDailyData' : jsstring -> result json)
  (now t_quote t_daily now' t_quote' t_daily' : Z) (t : table)
  (sym : jsstring) (q d : json) :
  unique_keys t ->
  let first := load_market_data getStockQuote getDailyData now t_quote t_daily t sym in
  events first <> [] ->
  getStockQuote (toUpperCase sym) = Ok q ->
  getDailyData (toUpperCase sym) = Ok d ->
  (now' - TWO_HOURS <= t_quote)%Z ->
  (now' - TWO_HOURS <= t_daily)%Z ->
  let second :=
    load_market_data getStockQuote' getDailyData' now' t_quote' t_daily'
                     (cache_after first) sym in
  outcome second = Ok (q, d)
  /\ events second = []
  /\ cache_after second = cache_after first.
Proof.
  intros Hu first Hm Hq Hd Htq Htd second.
  destruct (miss_writes_both _ _ _ _ _ t sym q d Hm Hq Hd) as (_ & _ & Hc).
  fold first in Hc.
  set (rq := {| symbol := toUpperCase sym; kind := quote; data := q;
                fetched_at := t_quote |}) in *.
  set (rd := {| symbol := toUpperCase sym; kind := daily; data := d;
                fetched_at := t_daily |}) in *.
  assert (Hsq : single (select (cache_after first) (toUpperCase sym) quote
                               (now' - TWO_HOURS)) = Some rq).
  { rewrite Hc. rewrite read_other_key.
    - apply (read_after_write t rq); assumption.
    - unfold key, rd. simpl. congruence. }
  assert (Hsd : single (select (cache_after first) (toUpperCase sym) daily
                               (now' - TWO_HOURS)) = Some rd).
  { rewrite Hc. apply (read_after_write (upsert rq t) rd); [ | assumption].
    now apply upsert_unique. }
  unfold second, load_market_data. cbv zeta. rewrite Hsq, Hsd.
  repeat split.
Qed.

Lemma second_load_hits_witness :
  let first := load_market_data (fun _ => Ok (JStr (js "quote payload")))
                 (fun _ => Ok (JArr [])) 1000 1001 1002 [] (js "aapl") in
  events (load_market_data unreachable unreachable 5000 0 0
            (cache_after first) (js "aapl")) = [].
Proof.
  cbv zeta.
  refine (proj1 (proj2 (second_load_hits
            (fun _ => Ok (JStr (js "quote payload"))) (fun _ => Ok (JArr []))
            unreachable unreachable 1000 1001 1002 5000 0 0 [] (js "aapl")
            (JStr (js "quote payload")) (JArr []) _ _ _ _ _ _))).
  - constructor.
  - vm_compute. discriminate.
  - reflexivity.
  - reflexivity.
  - vm_compute. discriminate.
  - vm_compute. discriminate.
Defined.

End CacheStoreFacts.

(** ** The fallback search: bounds, order and returns *)

Module FallbackOrderFacts.

Import Ranking Enrich Fallback FallbackFacts.

Section Search.

Variable num_toString : Q -> jsstring.
Variable symbol : jsstring.
Variable price : Q.
Variable ind : Indicators.TechnicalIndicators.
Variable world : Type.
Variable fetch : world -> request -> fetch_result * world.

Let judge := Fallback.judge num_toString symbol price ind.
Let complete := Fallback.complete num_toString symbol price ind.
Let analyzeWithGemini :=
  Fallback.analyzeWithGemini num_toString symbol price ind world fetch.
Let turn := FallbackFacts.turn num_toString symbol price ind.
Let search := FallbackFacts.search num_toString symbol price ind.
Let verdict_of := FallbackFacts.verdict_of num_toString symbol price ind.

Lemma turn_size (model : jsstring) (vs : list api_version) (tr : list attempt)
  (ex : loop_exit) :
  turn model vs tr ex ->
  length tr <= length vs /\ Forall (fun a => req_model (fst a) = model) tr.
Proof.
  induction 1 as [ | v vs r res Hj | v vs r err Hj | v vs r tr ex Hj Ht IH]; simpl.
  - split; [lia | constructor].
  - split; [lia | repeat constructor].
  - split; [lia | repeat constructor].
  - destruct IH as [IH1 IH2]. split; [lia | now constructor].
Qed.

Lemma search_size (candidates : list jsstring) (tr : list attempt) (ex : loop_exit) :
  search candidates tr ex ->
  length tr <= 2 * length candidates
  /\ Forall (fun a => In (req_model (fst a)) candidates) tr.
Proof.
  induction 1 as [ | m ms tr res Ht | m ms tr errs tr' ex Ht Hs IH].
  - split; [simpl; lia | constructor].
  - destruct (turn_size _ _ _ _ Ht) as [H1 H2]. simpl in *. split; [lia | ].
    eapply Forall_impl; [ | exact H2]. intros a Ha. now left.
  - destruct (turn_size _ _ _ _ Ht) as [H1 H2]. destruct IH as [IH1 IH2].
    rewrite length_app. simpl in *. split; [lia | ].
    apply Forall_app. split.
    + eapply Forall_impl; [ | exact H2]. intros a Ha. now left.
    + eapply Forall_impl; [ | exact IH2]. intros a Ha. now right.
Qed.

(** The requests of one turn: one or two, all for the model of the turn. *)
Definition turn_of (model : jsstring) (tr : list attempt) : Prop :=
  1 <= length tr <= 2 /\ Forall (fun a => req_model (fst a) = model) tr.

Lemma turn_nonempty (model : jsstring) (v : api_version) (vs : list api_version)
  (tr : list attempt) (ex : loop_exit) :
  turn model (v :: vs) tr ex -> 1 <= length tr.
Proof. intros H. inversion H; subst; simpl; lia. Qed.

Lemma search_turns (candidates : list jsstring) (tr : list attempt)
  (ex : loop_exit) :
  search candidates tr ex ->
  exists turns,
    tr = concat turns
    /\ length turns <= length candidates
    /\ Forall2 turn_of (firstn (length turns) candidates) turns.
Proof.
  induction 1 as [ | m ms tr res Ht | m ms tr errs tr' ex Ht Hs (turns & E & Hl & Hf)].
  - exists []. split; [reflexivity | ]. split; [simpl; lia | constructor].
  - exists [tr]. split; [simpl; now rewrite app_nil_r | ].
    split; [simpl; lia | ]. simpl. constructor; [ | constructor].
    destruct (turn_size _ _ _ _ Ht) as [H1 H2].
    pose proof (turn_nonempty _ _ _ _ _ Ht) as H0. simpl in H1.
    split; [lia | exact H2].
  - exists (tr :: turns). split; [simpl; now rewrite E | ].
    split; [simpl; lia | ]. simpl. constructor; [ | exact Hf].
    destruct (turn_size _ _ _ _ Ht) as [H1 H2].
    pose proof (turn_nonempty _ _ _ _ _ Ht) as H0. simpl in H1.
    split; [lia | exact H2].
Qed.

(** X11.  The requests of a call fall into consecutive turns, one for each
    candidate of an initial segment of the ranking, in its order; a turn
    holds one or two requests, all naming its candidate.  So no candidate is
    asked more than twice in its turn, and with no candidate no request is
    made at all. *)
Theorem requests_bounded (available : list GeminiModel) (w : world) :
  exists turns,
    requests (analyzeWithGemini available w) = concat turns
    /\ length turns <= length (rankModels available)
    /\ Forall2 turn_of (firstn (length turns) (rankModels available)) turns.
Proof.
  destruct (rankModels available) as [ | m ms] eqn:E.
  - unfold analyzeWithGemini, Fallback.analyzeWithGemini. rewrite E.
    exists []. split; [reflexivity | ]. split; [simpl; lia | constructor].
  - destruct (analyze_search num_toString symbol price ind world fetch available w)
      as (ex & Hs & _); [rewrite E; discriminate | ].
    rewrite E in Hs. exact (search_turns _ _ _ Hs).
Qed.

(** Only a 404 asks for the next revision. *)
Lemma next_version_is_404 (rq : request) (r : fetch_result) :
  judge rq r = NextVersion -> exists body, r = Response 404 body.
Proof.
  unfold judge, Fallback.judge. destruct r as [ | status body]; [discriminate | ].
  destruct (ok status).
  - destruct (Json.parse body) as [res | e]; [ | discriminate].
    destruct (response_text res) as [text | e]; [ | discriminate].
    destruct (falsy text); [discriminate | ].
    destruct text as [[ | | | | | ] | ]; discriminate.
  - destruct (status =? 429)%Z; [discriminate | ].
    destruct (status =? 404)%Z eqn:E; [ | discriminate].
    apply Z.eqb_eq in E. subst status. intros _. now exists body.
Qed.

Lemma search_v1_follows_404 (candidates : list jsstring) (tr : list attempt)
  (ex : loop_exit) :
  search candidates tr ex ->
  forall pre b post,
    tr = pre ++ b :: post -> req_version (fst b) = v1 ->
    exists pre' a,
      pre = pre' ++ [a]
      /\ fst a = {| req_model := req_model (fst b); req_version := v1beta |}
      /\ verdict_of a = NextVersion.
Proof.
  assert (Hturn : forall m tr ex pre b post,
            turn m VERSIONS tr ex ->
            tr = pre ++ b :: post -> req_version (fst b) = v1 ->
            exists a,
              pre = [a]
              /\ fst a = {| req_model := req_model (fst b); req_version := v1beta |}
              /\ verdict_of a = NextVersion).
  { intros m tr0 ex0 pre b post Ht Htr Hv.
    destruct (turn_two_versions _ _ _ _ _ _ _ Ht) as (r1 & [[E _] | (r2 & E & Hn)]);
      cbv zeta in *; rewrite E in Htr.
    - destruct pre as [ | p [ | p' pre]]; try discriminate.
      injection Htr as Eb _. rewrite <- Eb in Hv. discriminate.
    - destruct pre as [ | p [ | p' [ | p'' pre]]]; try discriminate.
      + injection Htr as Eb _. rewrite <- Eb in Hv. discriminate.
      + injection Htr as Ep Eb _. subst p b. eexists. split; [reflexivity | ].
        split; [reflexivity | exact Hn]. }
  induction 1 as [ | m ms tr res Ht | m ms tr errs tr' ex Ht Hs IH];
    intros pre b post Htr Hv.
  - destruct pre; discriminate.
  - destruct (Hturn _ _ _ _ _ _ Ht Htr Hv) as (a & -> & Ha).
    exists [], a. split; [reflexivity | exact Ha].
  - apply app_eq_app in Htr. destruct Htr as (l & [[H1 H2] | [H1 H2]]).
    + destruct l as [ | x l].
      * simpl in H2. rewrite app_nil_r in H1. subst tr.
        destruct (IH [] b post (eq_sym H2) Hv) as (pre' & a & Hp & _).
        destruct pre'; discriminate.
      * simpl in H2. injection H2 as <- ->.
        destruct (Hturn _ _ _ _ _ _ Ht H1 Hv) as (a & -> & Ha).
        exists [], a. split; [reflexivity | exact Ha].
    + destruct (IH l b post H2 Hv) as (pre' & a & -> & Ha).
      exists (tr ++ pre'), a. split; [ | exact Ha].
      rewrite H1. now rewrite app_assoc.
Qed.

(** X12.  Revision v1 of a model is requested only right after the request
    for the same model on v1beta was answered with HTTP 404: never first, and
    never after an empty response or another failure, which move on to the
    next model. *)
Theorem v1_only_after_404 (available : list GeminiModel) (w : world)
  (pre : list attempt) (b : attempt) (post : list attempt) :
  requests (analyzeWithGemini available w) = pre ++ b :: post ->
  req_version (fst b) = v1 ->
  exists pre' a body,
    pre = pre' ++ [a]
    /\ fst a = {| req_model := req_model (fst b); req_version := v1beta |}
    /\ snd a = Response 404 body.
Proof.
  intros Htr Hv.
  assert (Hc : rankModels available <> []).
  { apply (requests_need_candidates num_toString symbol price ind world fetch
             available w b).
    fold analyzeWithGemini. rewrite Htr. apply in_or_app. right. now left. }
  destruct (analyze_search num_toString symbol price ind world fetch available w Hc)
    as (ex & Hs & _).
  destruct (search_v1_follows_404 _ _ _ Hs pre b post Htr Hv)
    as (pre' & a & Hp & Ha & Hn).
  destruct (next_version_is_404 _ _ Hn) as (body & Hb).
  exists pre', a, body. auto.
Qed.

(** A loop that leaves the function does so on its last attempt. *)
Lemma search_left_last (candidates : list jsstring) (tr : list attempt)
  (res : Js.result EnrichedResponse) :
  search candidates tr (Left res) ->
  exists pre a, tr = pre ++ [a] /\ verdict_of a = Leave res.
Proof.
  assert (Hturn : forall m vs tr0,
            turn m vs tr0 (Left res) ->
            exists pre a, tr0 = pre ++ [a] /\ verdict_of a = Leave res).
  { intros m vs tr0 H. remember (Left res) as ex eqn:Eex.
    induction H as [ | v vs r res0 Hj | v vs r err Hj | v vs r tr1 ex Hj Ht IH].
    - discriminate.
    - injection Eex as ->. exists [], ({| req_model := m; req_version := v |}, r).
      split; [reflexivity | exact Hj].
    - discriminate.
    - destruct (IH Eex) as (pre & a & -> & Ha).
      exists (({| req_model := m; req_version := v |}, r) :: pre), a.
      split; [reflexivity | exact Ha]. }
  intros H. remember (Left res) as ex eqn:Eex.
  induction H as [ | m ms tr res0 Ht | m ms tr errs tr' ex Ht Hs IH].
  - discriminate.
  - injection Eex as ->. exact (Hturn _ _ _ Ht).
  - destruct ex as [res1 | errs']; [ | discriminate].
    injection Eex as ->. destruct (IH eq_refl Hturn) as (pre & a & -> & Ha).
    exists (tr ++ pre), a. split; [now rewrite app_assoc | exact Ha].
Qed.

Lemma leave_ok_is_text (rq : request) (r : fetch_result) (e : EnrichedResponse) :
  judge rq r = Leave (Ok e) ->
  exists t, answers_text r t /\ complete t = Ok e.
Proof.
  unfold judge, Fallback.judge, answers_text.
  destruct r as [ | status body]; [discriminate | ].
  destruct (ok status) eqn:Eok.
  - destruct (Json.parse body) as [res | x] eqn:Ep; [ | discriminate].
    destruct (response_text res) as [text | x] eqn:Et; [ | discriminate].
    destruct (falsy text) eqn:Ef; [discriminate | ].
    destruct text as [[ | b | q | t | l | m] | ]; try discriminate.
    intros H. injection H as H. exists t. split; [ | exact H].
    exists status, body, res. repeat split; try assumption.
    intros ->. discriminate.
  - destruct (status =? 429)%Z; [discriminate | ].
    destruct (status =? 404)%Z; discriminate.
Qed.

(** X13.  A call returns a result only from a success response that
    carried text: when it returns, its last request was answered with such
    a response, and the result is what the parse-sanitize-enrich path makes
    of that text. *)
Theorem return_comes_from_text (available : list GeminiModel) (w : world)
  (e : EnrichedResponse) :
  result (analyzeWithGemini available w) = Ok e ->
  exists pre a t,
    requests (analyzeWithGemini available w) = pre ++ [a]
    /\ answers_text (snd a) t
    /\ complete t = Ok e.
Proof.
  intros Hres.
  assert (Hc : rankModels available <> []).
  { intros E. unfold analyzeWithGemini, Fallback.analyzeWithGemini in Hres.
    rewrite E in Hres. discriminate. }
  destruct (analyze_search num_toString symbol price ind world fetch available w Hc)
    as (ex & Hs & Hr).
  fold analyzeWithGemini in Hr, Hs. rewrite Hres in Hr.
  destruct ex as [res | errs]; [ | discriminate]. subst res.
  destruct (search_left_last _ _ _ Hs) as (pre & a & Htr & Ha).
  destruct (leave_ok_is_text _ _ _ Ha) as (t & Ht & Hct).
  exists pre, a, t. auto.
Qed.

End Search.

End FallbackOrderFacts.

Module FallbackOrderExamples.

Import Ranking Enrich Fallback FallbackFacts FallbackExamples SanitizerFacts
  FallbackOrderFacts.

Definition not_found_then_text : list fetch_result :=
  [Response 404 []; Response 200 body_with_object].

Lemma v1_only_after_404_witness :
  exists pre' a body,
    [({| req_model := js "gemini-2.5-pro"; req_version := v1beta |}, Response 404 [])]
    = pre' ++ [a]
    /\ fst a = {| req_model := js "gemini-2.5-pro"; req_version := v1beta |}
    /\ snd a = Response 404 body.
Proof.
  exact (v1_only_after_404 no_digits (js "AAPL") (inject_Z 100) no_indicators
           (list fetch_result) scripted two_models not_found_then_text
           [({| req_model := js "gemini-2.5-pro"; req_version := v1beta |},
             Response 404 [])]
           ({| req_model := js "gemini-2.5-pro"; req_version := v1 |},
            Response 200 body_with_object)
           []
           ltac:(vm_compute; reflexivity) eq_refl).
Defined.

Lemma return_comes_from_text_witness :
  exists e pre a t,
    result (run_script two_models not_found_then_text) = Ok e
    /\ requests (run_script two_models not_found_then_text) = pre ++ [a]
    /\ answers_text (snd a) t
    /\ complete no_digits (js "AAPL") (inject_Z 100) no_indicators t = Ok e.
Proof.
  assert (He : exists e, result (run_script two_models not_found_then_text) = Ok e)
    by (eexists; vm_compute; reflexivity).
  destruct He as (e & He).
  destruct (return_comes_from_text no_digits (js "AAPL") (inject_Z 100)
              no_indicators (list fetch_result) scripted two_models
              not_found_then_text e He) as (pre & a & t & H).
  exists e, pre, a, t. split; [exact He | exact H].
Defined.

End FallbackOrderExamples.

(** ** Model discovery and the single-model provider
    ([listAvailableModels], [getGroqKey], [analyzeWithGroq]) *)

Module Providers.

Import Enrich Fallback.

Definition key_rejected (status : Z) (body : jsstring) : jsstring :=
  js "Gemini API key rejected (HTTP " ++ Z_to_js status ++ js "). "
  ++ jsq "Make sure: 1) the key is correct, 2) 'Generative Language API' is enabled "
  ++ js "at https://console.cloud.google.com/apis/library " ++ [8212%N]
  ++ js " Details: " ++ body.

Definition COULD_NOT_REACH : jsstring :=
  js "Could not reach Gemini API to list models. Check your network connection.".

Record listing (world : Type) : Type := {
  listed : Js.result json;                       (* [data.models ?? []] *)
  list_requests : list (api_version * fetch_result);
  list_world : world
}.
Arguments listed {world} l.
Arguments list_requests {world} l.
Arguments list_world {world} l.

Section Discovery.

Variable world : Type.
(** The answer of the network to a request for the model list on a
    revision. *)
Variable fetch_models : world -> api_version -> fetch_result * world.

(** The loop of [listAvailableModels] over the remaining revisions. *)
Fixpoint list_on (versions : list api_version) (w : world) : listing world :=
  match versions with
  | [] => {| listed := Throw (Error COULD_NOT_REACH); list_requests := [];
             list_world := w |}
  | v :: versions' =>
      let (r, w1) := fetch_models w v in
      match r with
      | NetworkFailure =>
          {| listed := Throw TypeError; list_requests := [(v, r)]; list_world := w1 |}
      | Response status body =>
          if ok status then
            {| listed :=
                 match Json.parse body with
                 | Throw e => Throw e
                 | Ok JNull => Throw TypeError
                 | Ok data => Ok (nullish (opt_prop (Some data) (js "models")) (JArr []))
                 end;
               list_requests := [(v, r)]; list_world := w1 |}
          else if (status =? 400)%Z || (status =? 403)%Z then
            {| listed := Throw (Error (key_rejected status body));
               list_requests := [(v, r)]; list_world := w1 |}
          else
            let k := list_on versions' w1 in
            {| listed := listed k; list_requests := (v, r) :: list_requests k;
               list_world := list_world k |}
      end
  end.

Definition listAvailableModels (w : world) : listing world := list_on VERSIONS w.

End Discovery.

Definition GROQ_KEY_MISSING : jsstring :=
  js "Groq API key not configured. Get a free key at https://console.groq.com".
Definition GROQ_RATE_LIMIT : jsstring :=
  js "Groq rate limit reached. Wait a moment and try again.".
Definition groq_api_error (status : Z) (err : jsstring) : jsstring :=
  js "Groq API error (" ++ Z_to_js status ++ js "): " ++ err.

(** [getGroqKey]: the key of the environment, unless it is missing, empty or
    the placeholder. *)
Definition getGroqKey (env_key : option jsstring) : Js.result jsstring :=
  match env_key with
  | None | Some [] => Throw (Error GROQ_KEY_MISSING)
  | Some key =>
      if str_eqb key (js "your_groq_api_key_here")
      then Throw (Error GROQ_KEY_MISSING) else Ok key
  end.

(** [result.choices?.[0]?.message?.content] *)
Definition groq_text (result : json) : Js.result (option json) :=
  match result with
  | JNull => Throw TypeError
  | _ =>
      let choices := opt_prop (Some result) (js "choices") in
      let message := opt_prop (opt_first choices) (js "message") in
      Ok (opt_prop message (js "content"))
  end.

Record groq_call : Type := {
  groq_result : Js.result EnrichedResponse;
  groq_requests : list fetch_result    (* the answers to the requests made *)
}.

Section Groq.

Variable num_toString : Q -> jsstring.
Variable symbol : jsstring.
Variable price : Q.
Variable ind : Indicators.TechnicalIndicators.

(** [analyzeWithGroq]: [env_key] is [process.env.GROQ_API_KEY], [answer] what
    the one [fetch] of the function gives when it is reached. *)
Definition analyzeWithGroq (env_key : option jsstring) (answer : fetch_result)
  : groq_call :=
  match getGroqKey env_key with
  | Throw e => {| groq_result := Throw e; groq_requests := [] |}
  | Ok _ =>
      {| groq_requests := [answer];
         groq_result :=
           match answer with
           | NetworkFailure => Throw TypeError
           | Response status body =>
               if negb (ok status) then
                 if (status =? 429)%Z then Throw (Error GROQ_RATE_LIMIT)
                 else Throw (Error (groq_api_error status body))
               else
                 match Json.parse body with
                 | Throw e => Throw e
                 | Ok result =>
                     match groq_text result with
                     | Throw e => Throw e
                     | Ok text =>
                         if falsy text then Throw (Error (js "No response from Groq"))
                         else
                           match text with
                           | Some (JStr t) =>
                               complete num_toString symbol price ind t
                           | _ => Throw TypeError
                           end
                     end
                 end
           end |}
  end.

End Groq.

End Providers.

Module ProviderFacts.

Import Enrich Fallback FallbackFacts Providers.

(** *** What the completion path can throw *)

Definition parse_failure (text : jsstring) : jsstring :=
  js "Failed to parse AI response as JSON. "
  ++ js "Raw response (first 500 chars): " ++ firstn 500 text.

Lemma parseJsonResponse_throws (text : jsstring) (e : exn) :
  Repair.parseJsonResponse text = Throw e -> e = Error (parse_failure text).
Proof.
  unfold Repair.parseJsonResponse. cbv zeta.
  destruct (Json.parse (Repair.extract_object (Repair.strip_fences text)));
    [discriminate | ].
  destruct (Json.parse (Repair.repair _)); [discriminate | ].
  intros H. injection H as <-. reflexivity.
Qed.

(** Induction on a value through the elements of its arrays. *)
Section JsonInduction.

Variable P : json -> Prop.
Hypothesis Hnull : P JNull.
Hypothesis Hbool : forall b, P (JBool b).
Hypothesis Hnum : forall q, P (JNum q).
Hypothesis Hstr : forall s, P (JStr s).
Hypothesis Harr : forall l, Forall P l -> P (JArr l).
Hypothesis Hobj : forall m, P (JObj m).

Fixpoint json_array_ind (v : json) : P v :=
  match v with
  | JNull => Hnull
  | JBool b => Hbool b
  | JNum q => Hnum q
  | JStr s => Hstr s
  | JArr l =>
      Harr l ((fix all (l : list json) : Forall P l :=
                 match l with
                 | [] => Forall_nil P
                 | x :: l' => Forall_cons x (json_array_ind x) (all l')
                 end) l)
  | JObj m => Hobj m
  end.

End JsonInduction.

Section Conversions.

Variable num_toString : Q -> jsstring.

Lemma toString_throws (v : json) (e : exn) :
  Sanitizer.toString num_toString v = Throw e -> e = TypeError.
Proof.
  revert e. induction v as [ | b | q | s | l IHl | m] using json_array_ind;
    intros e; simpl; try discriminate.
  - destruct b; discriminate.
  - assert (Hl : forall ss,
        (fix elems (l : list json) : Js.result (list jsstring) :=
           match l with
           | [] => Ok []
           | x :: l' =>
               bind (match x with
                     | JNull => Ok []
                     | _ => Sanitizer.toString num_toString x
                     end)
                    (fun s => bind (elems l') (fun ss => Ok (s :: ss)))
           end) l = Throw ss -> ss = TypeError).
    { induction IHl as [ | x l Hx Hxs IH]; intros ss; [discriminate | ].
      destruct (match x with
                | JNull => Ok []
                | _ => Sanitizer.toString num_toString x
                end) as [s0 | e0] eqn:Ex.
      - simpl.
        match goal with
        | |- context [bind ?r _] => destruct r as [ss0 | e1] eqn:El
        end; simpl; [discriminate | ].
        intros H. injection H as <-. now apply IH.
      - simpl. intros H. injection H as <-.
        destruct x; try discriminate; now apply Hx in Ex. }
    match goal with
    | |- bind ?r _ = _ -> _ => destruct r as [ss0 | e1] eqn:El
    end; simpl; [discriminate | ].
    intros H. injection H as <-. now apply Hl.
  - destruct (lookup (js "toString") m); [ | discriminate].
    intros H. now injection H as <-.
Qed.

Lemma sanitizeAnalysis_throws (raw : json) (sym : jsstring) (p : Q) (e : exn) :
  Sanitizer.sanitizeAnalysis num_toString raw sym p = Throw e -> e = TypeError.
Proof.
  assert (Htrim : forall v d x,
            (forall y, d = Throw y -> y = TypeError) ->
            Sanitizer.trim_or v d = Throw x -> x = TypeError).
  { intros v d x Hd. unfold Sanitizer.trim_or.
    destruct v as [[ | b | q | s | l | m] | ]; try apply Hd;
      try (intros H; now injection H as <-).
    destruct (trim s); [apply Hd | discriminate]. }
  unfold Sanitizer.sanitizeAnalysis.
  destruct raw as [ | b | q | s | l | m];
    try (intros H; now injection H as <-); cbv zeta;
    (match goal with
     | |- bind ?r _ = _ -> _ => destruct r as [t | x] eqn:Er
     end;
     [ cbv beta iota delta [bind];
       match goal with
       | |- match ?r with _ => _ end = _ -> _ => destruct r as [h | x] eqn:Eh
       end;
       [ discriminate
       | intros H; injection H as <-;
         apply Htrim in Eh; [exact Eh | discriminate] ]
     | cbv beta iota delta [bind]; intros H; injection H as <-;
       apply Htrim in Er; [exact Er | ];
       intros y Hy;
       match type of Hy with
       | bind ?r _ = _ => destruct r as [lvl | z] eqn:El
       end;
       [ discriminate
       | cbv beta iota delta [bind] in Hy; injection Hy as <-;
         now apply toString_throws in El ] ]).
Qed.

Variable symbol : jsstring.
Variable price : Q.
Variable ind : Indicators.TechnicalIndicators.

(** The parse-sanitize-enrich path throws a TypeError or the diagnostic
    error of the parser, nothing else. *)
Lemma complete_throws (t : jsstring) (e : exn) :
  complete num_toString symbol price ind t = Throw e ->
  e = TypeError \/ e = Error (parse_failure t).
Proof.
  unfold complete.
  destruct (Repair.parseJsonResponse t) as [raw | x] eqn:Ep; simpl.
  - destruct (Sanitizer.sanitizeAnalysis num_toString raw symbol price)
      as [a | x] eqn:Es; simpl; [discriminate | ].
    intros H. injection H as <-. left. now apply sanitizeAnalysis_throws in Es.
  - intros H. injection H as <-. right. now apply parseJsonResponse_throws.
Qed.

End Conversions.

Lemma json_parse_throws (text : jsstring) (e : exn) :
  Json.parse text = Throw e -> e = SyntaxError.
Proof.
  unfold Json.parse.
  destruct (Json.parse_value _ _) as [[v r] | ].
  - destruct (Json.skip_ws r); [discriminate | ]. intros H. now injection H as <-.
  - intros H. now injection H as <-.
Qed.

(** Two strings that start with different code units, or whose tails
    differ, are different. *)
Lemma rate_limit_messages_apart (cands errs : list jsstring)
  (available : list Ranking.GeminiModel) (t : jsstring) (m : jsstring) :
  m = RATE_LIMIT \/ m = QUOTA_ZERO ->
  m <> all_failed cands errs
  /\ m <> no_usable_model available
  /\ m <> parse_failure t.
Proof.
  assert (Hd : forall (c d : N) (x y : jsstring), c <> d -> c :: x <> d :: y)
    by (intros c d x y Hc H; injection H as H _; contradiction).
  intros [-> | ->]; (split; [ | split]); apply Hd; discriminate.
Qed.

Section GeminiErrors.

Variable num_toString : Q -> jsstring.
Variable symbol : jsstring.
Variable price : Q.
Variable ind : Indicators.TechnicalIndicators.
Variable world : Type.
Variable fetch : world -> request -> fetch_result * world.

Let judge := Fallback.judge num_toString symbol price ind.
Let analyzeWithGemini :=
  Fallback.analyzeWithGemini num_toString symbol price ind world fetch.

Lemma leave_error_cases (rq : request) (r : fetch_result) (m : jsstring) :
  judge rq r = Leave (Throw (Error m)) ->
  (exists body, r = Response 429 body) \/ (exists t, m = parse_failure t).
Proof.
  unfold judge, Fallback.judge. destruct r as [ | status body]; [discriminate | ].
  destruct (ok status).
  - destruct (Json.parse body) as [res | x] eqn:Ep.
    + destruct (response_text res) as [text | x] eqn:Et.
      * destruct (falsy text); [discriminate | ].
        destruct text as [[ | b | q | t | l | o] | ]; try discriminate.
        intros H. injection H as H.
        destruct (complete_throws _ _ _ _ _ _ H) as [H1 | H1];
          [discriminate | ].
        injection H1 as ->. right. now exists t.
      * unfold response_text in Et. destruct res; try discriminate.
        injection Et as <-. discriminate.
    + apply json_parse_throws in Ep. subst x. discriminate.
  - destruct (status =? 429)%Z eqn:E.
    + apply Z.eqb_eq in E. subst status. intros _. left. now exists body.
    + destruct (status =? 404)%Z; discriminate.
Qed.

(** X14.  The rate-limit error and the quota error are raised by nothing but
    a 429: when a call ends with either, its last request was answered with
    HTTP 429. *)
Theorem rate_limit_error_means_429 (available : list Ranking.GeminiModel)
  (w : world) (m : jsstring) :
  m = RATE_LIMIT \/ m = QUOTA_ZERO ->
  result (analyzeWithGemini available w) = Throw (Error m) ->
  exists pre a body,
    requests (analyzeWithGemini available w) = pre ++ [a]
    /\ snd a = Response 429 body.
Proof.
  intros Hm Hres.
  assert (Hc : Ranking.rankModels available <> []).
  { intros E. unfold analyzeWithGemini, Fallback.analyzeWithGemini in Hres.
    rewrite E in Hres. injection Hres as Hres.
    destruct (rate_limit_messages_apart [] [] available [] m Hm) as (_ & H & _).
    congruence. }
  destruct (analyze_search num_toString symbol price ind world fetch available w Hc)
    as (ex & Hs & Hr).
  fold analyzeWithGemini in Hr, Hs. rewrite Hres in Hr.
  destruct ex as [res | errs].
  - subst res.
    destruct (FallbackOrderFacts.search_left_last _ _ _ _ _ _ _ Hs)
      as (pre & a & Htr & Ha).
    destruct (leave_error_cases _ _ _ Ha) as [(body & Hb) | (t & Ht)].
    + exists pre, a, body. auto.
    + destruct (rate_limit_messages_apart [] [] available t m Hm) as (_ & _ & H).
      contradiction.
  - injection Hr as Hr.
    destruct (rate_limit_messages_apart (Ranking.rankModels available) errs
                available [] m Hm) as (H & _).
    contradiction.
Qed.

End GeminiErrors.

(** X15.  [analyzeWithGroq] makes no request when the key is missing, empty
    or the placeholder, and one request otherwise; it ends with the
    rate-limit error exactly when the key is configured and the answer is
    an HTTP 429, whatever the body says. *)
Theorem groq_rate_limit_distinct (num_toString : Q -> jsstring)
  (symbol : jsstring) (price : Q) (ind : Indicators.TechnicalIndicators)
  (env_key : option jsstring) (answer : fetch_result) :
  let c := analyzeWithGroq num_toString symbol price ind env_key answer in
  (groq_requests c = []
   <-> getGroqKey env_key = Throw (Error GROQ_KEY_MISSING))
  /\ (groq_requests c <> [] -> groq_requests c = [answer])
  /\ (groq_result c = Throw (Error GROQ_RATE_LIMIT)
      <-> (exists key, getGroqKey env_key = Ok key)
          /\ exists body, answer = Response 429 body).
Proof.
  cbv zeta. unfold analyzeWithGroq.
  assert (Hkey : (exists key, getGroqKey env_key = Ok key)
                 \/ getGroqKey env_key = Throw (Error GROQ_KEY_MISSING)).
  { unfold getGroqKey. destruct env_key as [[ | c k] | ]; auto.
    destruct (str_eqb (c :: k) _); eauto. }
  destruct Hkey as [(key & Hk) | Hk]; rewrite Hk; cbn [groq_result groq_requests].
  - split; [split; discriminate | ]. split; [reflexivity | ].
    split.
    + intros H. split; [now exists key | ].
      destruct answer as [ | status body]; [discriminate | ].
      destruct (ok status); cbn [negb] in H.
      * destruct (Json.parse body) as [res | x] eqn:Ep;
          [ | apply json_parse_throws in Ep; subst x; discriminate].
        destruct (groq_text res) as [text | x] eqn:Et;
          [ | unfold groq_text in Et; destruct res; try discriminate;
              injection Et as <-; discriminate].
        destruct (falsy text); [vm_compute in H; discriminate | ].
        destruct text as [[ | b | q | t | l | o] | ]; try discriminate.
        destruct (complete_throws _ _ _ _ _ _ H) as [H1 | H1];
          [discriminate | ].
        vm_compute in H1. discriminate.
      * destruct (status =? 429)%Z eqn:E.
        -- apply Z.eqb_eq in E. subst status. now exists body.
        -- exfalso. injection H as H. unfold groq_api_error in H.
           vm_compute in H. discriminate.
    + intros (_ & body & ->). reflexivity.
  - split; [split; reflexivity | ]. split; [intros H; now elim H | ].
    split.
    + intros H. vm_compute in H. discriminate.
    + intros ((key & Hk') & _). discriminate.
Qed.

(** A listing answer that lets the loop try the next revision: a
    non-success status other than 400 and 403. *)
Definition tries_next (r : fetch_result) : Prop :=
  exists status body,
    r = Response status body /\ ok status = false
    /\ status <> 400%Z /\ status <> 403%Z.

(** X16.  [listAvailableModels] asks revision v1beta first and revision v1
    only when v1beta answered with a non-success status other than 400 and
    403; an answer of 400 or 403, on either revision, ends the listing with
    the key-rejected error carrying that status and body; and when both
    revisions answer with other non-success statuses the listing ends with
    the could-not-reach error. *)
Theorem listAvailableModels_order (world : Type)
  (fetch_models : world -> api_version -> fetch_result * world) (w : world) :
  let l := listAvailableModels world fetch_models w in
  ((exists r1, list_requests l = [(v1beta, r1)] /\ ~ tries_next r1)
   \/ (exists r1 r2,
         list_requests l = [(v1beta, r1); (v1, r2)] /\ tries_next r1
         /\ (tries_next r2 -> listed l = Throw (Error COULD_NOT_REACH))))
  /\ (forall v status body,
        In (v, Response status body) (list_requests l) ->
        status = 400%Z \/ status = 403%Z ->
        listed l = Throw (Error (key_rejected status body))).
Proof.
  cbv zeta. unfold listAvailableModels, VERSIONS. cbn [list_on].
  assert (Hnot : forall st b, ok st = true -> ~ tries_next (Response st b)).
  { intros st b Hok (st' & b' & E & Hno & _). injection E as <- <-. congruence. }
  assert (Hnot' : forall st b, ((st =? 400) || (st =? 403))%Z = true ->
                               ~ tries_next (Response st b)).
  { intros st b H (st' & b' & E & _ & H400 & H403). injection E as <- <-.
    apply orb_prop in H. destruct H as [H | H]; apply Z.eqb_eq in H; congruence. }
  assert (Hnet : ~ tries_next NetworkFailure).
  { intros (st & b & E & _). discriminate. }
  assert (Hyes : forall st b, ok st = false ->
                   ((st =? 400) || (st =? 403))%Z = false ->
                   tries_next (Response st b)).
  { intros st b Hok H. exists st, b. apply orb_false_elim in H. destruct H as [H1 H2].
    apply Z.eqb_neq in H1. apply Z.eqb_neq in H2. auto. }
  assert (Hok4 : forall st, st = 400%Z \/ st = 403%Z -> ok st = false
                   /\ ((st =? 400) || (st =? 403))%Z = true).
  { intros st [-> | ->]; split; reflexivity. }
  destruct (fetch_models w v1beta) as [r1 w1].
  destruct r1 as [ | st1 b1]; cbn [listed list_requests].
  { split; [left; eauto | ].
    intros v st b [H | []]. discriminate. }
  destruct (ok st1) eqn:Eok1; cbn [listed list_requests].
  { split; [left; exists (Response st1 b1); split; [reflexivity | now apply Hnot] | ].
    intros v st b [H | []] H4. injection H as _ <- <-.
    destruct (Hok4 _ H4). congruence. }
  destruct ((st1 =? 400) || (st1 =? 403))%Z eqn:E1; cbn [listed list_requests].
  { split; [left; exists (Response st1 b1); split; [reflexivity | now apply Hnot'] | ].
    intros v st b [H | []] _. injection H as _ <- <-. reflexivity. }
  pose proof (Hyes st1 b1 Eok1 E1) as Ht1.
  destruct (fetch_models w1 v1) as [r2 w2].
  destruct r2 as [ | st2 b2]; cbn [listed list_requests].
  { split.
    - right. exists (Response st1 b1), NetworkFailure.
      split; [reflexivity | ]. split; [exact Ht1 | ]. intros H. now elim Hnet.
    - intros v st b [H | [H | []]] H4; [ | discriminate].
      injection H as _ <- <-. destruct (Hok4 _ H4). congruence. }
  destruct (ok st2) eqn:Eok2; cbn [listed list_requests].
  { split.
    - right. exists (Response st1 b1), (Response st2 b2).
      split; [reflexivity | ]. split; [exact Ht1 | ].
      intros H. exfalso. now apply (Hnot st2 b2).
    - intros v st b [H | [H | []]] H4; injection H as _ <- <-;
        destruct (Hok4 _ H4); congruence. }
  destruct ((st2 =? 400) || (st2 =? 403))%Z eqn:E2; cbn [listed list_requests].
  { split.
    - right. exists (Response st1 b1), (Response st2 b2).
      split; [reflexivity | ]. split; [exact Ht1 | ].
      intros H. exfalso. now apply (Hnot' st2 b2).
    - intros v st b [H | [H | []]] H4; injection H as _ <- <-.
      + destruct (Hok4 _ H4). congruence.
      + reflexivity. }
  split.
  - right. exists (Response st1 b1), (Response st2 b2).
    split; [reflexivity | ]. split; [exact Ht1 | reflexivity].
  - intros v st b [H | [H | []]] H4; injection H as _ <- <-;
      destruct (Hok4 _ H4); congruence.
Qed.

End ProviderFacts.

Module ProviderExamples.

Import Ranking Enrich Fallback FallbackFacts FallbackExamples SanitizerFacts
  ProviderFacts.

Lemma rate_limit_error_means_429_witness :
  exists pre a body,
    requests (run_script two_models [Response 429 (js "quota exceeded")])
    = pre ++ [a]
    /\ snd a = Response 429 body.
Proof.
  apply (rate_limit_error_means_429 no_digits (js "AAPL") (inject_Z 100)
           no_indicators (list fetch_result) scripted two_models
           [Response 429 (js "quota exceeded")] RATE_LIMIT).
  - left. reflexivity.
  - vm_compute. reflexivity.
Defined.

End ProviderExamples.

(** ** The sanitizer applied to its own result, and the enrichment *)

Module SanitizerRoundTrip.

Import Sanitizer Enrich.

(** The result of the sanitizer as the object it is: the properties of the
    object literal, in order. *)
Definition as_raw (r : AnalysisResponse) : json :=
  JObj [ (js "symbol", symbol r);
         (js "signal_level", JStr (signal_level r));
         (js "action", JStr (action r));
         (js "suggested_buy_price", suggested_buy_price r);
         (js "suggested_sell_price", suggested_sell_price r);
         (js "stop_loss_price", stop_loss_price r);
         (js "risk_estimation", JStr (risk_estimation r));
         (js "reasoning", JStr (reasoning r));
         (js "technical_summary", JObj (technical_summary r));
         (js "confidence", JNum (confidence r));
         (js "time_horizon", JStr (time_horizon r)) ].

(** Two objects with the same value under every key. *)
Definition same_properties (a b : object) : Prop :=
  forall k, lookup k a = lookup k b.

(** Two results that agree field by field: summaries as objects, confidences
    as numbers. *)
Definition same_result (a b : AnalysisResponse) : Prop :=
  symbol a = symbol b
  /\ signal_level a = signal_level b
  /\ action a = action b
  /\ suggested_buy_price a = suggested_buy_price b
  /\ suggested_sell_price a = suggested_sell_price b
  /\ stop_loss_price a = stop_loss_price b
  /\ risk_estimation a = risk_estimation b
  /\ reasoning a = reasoning b
  /\ same_properties (technical_summary a) (technical_summary b)
  /\ (confidence a == confidence b)%Q
  /\ time_horizon a = time_horizon b.

(** Property lookup in an object whose properties can hold [undefined]: the
    last definition of the key wins, and [undefined] reads as absent. *)
Fixpoint lookup_defined (k : jsstring) (m : list (jsstring * option json))
  : option json :=
  match m with
  | [] => None
  | (k', v) :: m' =>
      if existsb (fun kv => str_eqb k (fst kv)) m' then lookup_defined k m'
      else if str_eqb k k' then v else None
  end.

Definition INDICATOR_KEYS : list jsstring :=
  [js "bb_upper"; js "bb_lower"; js "bb_middle"; js "sma_20"; js "sma_50";
   js "sma_200"; js "rsi"; js "macd"].

End SanitizerRoundTrip.

Module SanitizerRoundTripFacts.

Import Sanitizer Enrich SanitizerRoundTrip JsFacts SanitizerFacts.

(** *** Trimming *)

Lemma trimStart_idem (s : jsstring) : trimStart (trimStart s) = trimStart s.
Proof.
  induction s as [ | c s IH]; simpl; [reflexivity | ].
  destruct (is_space c) eqn:E; [exact IH | ]. simpl. now rewrite E.
Qed.

Lemma trimStart_suffix (s : jsstring) : exists ws, s = ws ++ trimStart s.
Proof.
  induction s as [ | c s (ws & IH)]; simpl.
  - now exists [].
  - destruct (is_space c).
    + exists (c :: ws). simpl. now f_equal.
    + now exists [].
Qed.

Lemma trimStart_length (s : jsstring) : length (trimStart s) <= length s.
Proof.
  destruct (trimStart_suffix s) as (ws & E). rewrite E at 2.
  rewrite length_app. lia.
Qed.

Lemma trimStart_fixed_prefix (a b : jsstring) :
  trimStart (a ++ b) = a ++ b -> trimStart a = a.
Proof.
  destruct a as [ | c a]; [reflexivity | ]. simpl.
  destruct (is_space c); [ | reflexivity].
  intros H. pose proof (trimStart_length (a ++ b)) as Hl.
  rewrite H in Hl. simpl in Hl. lia.
Qed.

(** A string that neither starts nor ends with a blank. *)
Definition trimmed (s : jsstring) : Prop :=
  trimStart s = s /\ trimStart (rev s) = rev s.

Lemma trim_of_trimmed (s : jsstring) : trimmed s -> trim s = s.
Proof.
  intros [H1 H2]. unfold trim, trimEnd. rewrite H1, H2. apply rev_involutive.
Qed.

Lemma trim_trimmed (s : jsstring) : trimmed (trim s).
Proof.
  unfold trimmed, trim, trimEnd. rewrite rev_involutive, trimStart_idem.
  split; [ | reflexivity].
  destruct (trimStart_suffix (rev (trimStart s))) as (ws & E).
  apply (trimStart_fixed_prefix _ (rev ws)).
  rewrite <- rev_app_distr, <- E, rev_involutive. apply trimStart_idem.
Qed.

Section Runtime.

Variable num_toString : Q -> jsstring.

Lemma synthesized_trimmed (sym : jsstring) (p : Q) (lvl : jsstring) :
  trimmed (synthesized_reasoning num_toString sym p lvl).
Proof.
  unfold trimmed, synthesized_reasoning. split; [reflexivity | ].
  rewrite !rev_app_distr, <- !app_assoc. reflexivity.
Qed.

Lemma synthesized_nonempty (sym : jsstring) (p : Q) (lvl : jsstring) :
  synthesized_reasoning num_toString sym p lvl <> [].
Proof. unfold synthesized_reasoning. apply literal_prefix_nonempty. Qed.

(** What every result of the sanitizer satisfies. *)
Definition well_formed (r : AnalysisResponse) : Prop :=
  symbol r <> JNull
  /\ In (signal_level r) VALID_SIGNALS
  /\ In (action r) VALID_ACTIONS
  /\ In (risk_estimation r) VALID_RISKS
  /\ (reasoning r <> [] /\ trimmed (reasoning r))
  /\ (time_horizon r <> [] /\ trimmed (time_horizon r))
  /\ (0 <= confidence r <= 1)%Q
  /\ (forall k, lookup k (technical_summary r) = None ->
        ~ In k [js "trend"; js "support_levels"; js "resistance_levels";
                js "key_indicators"]).

Lemma trim_or_trimmed (v : option json) (d t : jsstring) :
  d <> [] -> trimmed d -> trim_or v (Ok d) = Ok t -> t <> [] /\ trimmed t.
Proof.
  intros Hd Ht. unfold trim_or.
  destruct v as [[ | b | q | s | l | m] | ];
    try discriminate; try (intros H; injection H as <-; auto).
  destruct (trim s) as [ | c u] eqn:E.
  - intros H. injection H as <-. auto.
  - intros H. injection H as <-. split; [discriminate | ].
    rewrite <- E. apply trim_trimmed.
Qed.

(** What a returning call went through: both trimmed fields were obtained,
    and the result is the object literal over them. *)
Lemma sanitize_returns (raw : json) (sym : jsstring) (p : Q)
  (r : AnalysisResponse) :
  sanitizeAnalysis num_toString raw sym p = Ok r ->
  let g := opt_prop (Some raw) in
  let ts := g (js "technical_summary") in
  exists t h,
    trim_or (g (js "reasoning"))
      (bind (toString num_toString (nullish (g (js "signal_level")) (JStr (js "weak"))))
            (fun lvl => Ok (synthesized_reasoning num_toString sym p lvl))) = Ok t
    /\ trim_or (g (js "time_horizon")) (Ok (js "N/A")) = Ok h
    /\ r = {|
        symbol := nullish (g (js "symbol")) (JStr sym);
        signal_level := enum_or VALID_SIGNALS (g (js "signal_level")) (js "weak");
        action := enum_or VALID_ACTIONS (g (js "action")) (js "watch");
        suggested_buy_price := nullish (g (js "suggested_buy_price")) JNull;
        suggested_sell_price := nullish (g (js "suggested_sell_price")) JNull;
        stop_loss_price := nullish (g (js "stop_loss_price")) JNull;
        risk_estimation := enum_or VALID_RISKS (g (js "risk_estimation")) (js "moderate");
        reasoning := t;
        technical_summary :=
          [ (js "trend", JStr (enum_or VALID_TRENDS (opt_prop ts (js "trend")) (js "neutral")));
            (js "support_levels", array_or_empty (opt_prop ts (js "support_levels")));
            (js "resistance_levels", array_or_empty (opt_prop ts (js "resistance_levels")));
            (js "key_indicators", nullish (opt_prop ts (js "key_indicators")) (JStr [])) ]
          ++ own_props ts;
        confidence := clamp_confidence (g (js "confidence"));
        time_horizon := h
      |}.
Proof.
  cbv zeta. unfold sanitizeAnalysis.
  destruct raw as [ | b | q | s | l | m]; try discriminate; cbv zeta;
    (match goal with
     | |- bind ?c _ = _ -> _ => destruct c as [t | x]; [ | discriminate]
     end;
     cbv beta iota delta [bind];
     match goal with
     | |- match ?c with _ => _ end = _ -> _ =>
         destruct c as [h | x]; [ | discriminate]
     end;
     intros H; injection H as <-; exists t, h; repeat split).
Qed.

Lemma sanitize_well_formed (raw : json) (sym : jsstring) (p : Q)
  (r : AnalysisResponse) :
  sanitizeAnalysis num_toString raw sym p = Ok r -> well_formed r.
Proof.
  intros H. destruct (sanitize_returns raw sym p r H) as (t & h & Er & Eh & ->).
  clear H. unfold well_formed.
  cbn [symbol signal_level action risk_estimation reasoning time_horizon
       confidence technical_summary].
  split.
  { destruct (opt_prop (Some raw) (js "symbol")) as [[ | ? | ? | ? | ? | ?] | ];
      discriminate. }
  split; [apply enum_or_in; vm_compute; tauto | ].
  split; [apply enum_or_in; vm_compute; tauto | ].
  split; [apply enum_or_in; vm_compute; tauto | ].
  split.
  { destruct (toString num_toString _) as [lvl | z];
      cbv beta iota delta [bind] in Er.
    - exact (trim_or_trimmed _ _ _ (synthesized_nonempty sym p lvl)
               (synthesized_trimmed sym p lvl) Er).
    - unfold trim_or in Er.
      destruct (opt_prop (Some raw) (js "reasoning"))
        as [[ | ? | ? | s0 | ? | ?] | ]; try discriminate.
      destruct (trim s0) as [ | c u] eqn:E; [discriminate | ].
      injection Er as <-. split; [discriminate | ].
      rewrite <- E. apply trim_trimmed. }
  split.
  { eapply trim_or_trimmed; [ | | exact Eh];
      [discriminate | split; reflexivity]. }
  split; [apply clamp_confidence_range | ].
  intros k Hk.
  rewrite lookup_app in Hk.
  destruct (lookup k (own_props _)); [discriminate | ].
  intros Hin. simpl in Hin.
  destruct Hin as [<- | [<- | [<- | [<- | []]]]]; discriminate.
Qed.

End Runtime.

Definition raw_props (r : AnalysisResponse) : object :=
  match as_raw r with
  | JObj m => m
  | _ => []
  end.

Lemma raw_props_lookup (r : AnalysisResponse) :
  lookup (js "symbol") (raw_props r) = Some (symbol r)
  /\ lookup (js "signal_level") (raw_props r) = Some (JStr (signal_level r))
  /\ lookup (js "action") (raw_props r) = Some (JStr (action r))
  /\ lookup (js "suggested_buy_price") (raw_props r) = Some (suggested_buy_price r)
  /\ lookup (js "suggested_sell_price") (raw_props r) = Some (suggested_sell_price r)
  /\ lookup (js "stop_loss_price") (raw_props r) = Some (stop_loss_price r)
  /\ lookup (js "risk_estimation") (raw_props r) = Some (JStr (risk_estimation r))
  /\ lookup (js "reasoning") (raw_props r) = Some (JStr (reasoning r))
  /\ lookup (js "technical_summary") (raw_props r) = Some (JObj (technical_summary r))
  /\ lookup (js "confidence") (raw_props r) = Some (JNum (confidence r))
  /\ lookup (js "time_horizon") (raw_props r) = Some (JStr (time_horizon r)).
Proof. repeat split; reflexivity. Qed.

Lemma enum_or_member (valid : list jsstring) (s d : jsstring) :
  In s valid -> enum_or valid (Some (JStr s)) d = s.
Proof.
  intros H. apply enum_or_valid. apply existsb_exists. exists s.
  split; [exact H | now apply str_eqb_eq].
Qed.

Lemma trim_or_fixed (s : jsstring) (d : result jsstring) :
  s <> [] -> trimmed s -> trim_or (Some (JStr s)) d = Ok s.
Proof.
  intros Hne Ht. unfold trim_or. rewrite (trim_of_trimmed s Ht).
  destruct s; [contradiction | reflexivity].
Qed.

Lemma clamp_fixed (c : Q) :
  (0 <= c <= 1)%Q -> (clamp_confidence (Some (JNum c)) == c)%Q.
Proof.
  intros [H0 H1]. unfold clamp_confidence, math_min, math_max.
  apply Qle_bool_iff in H0. rewrite H0.
  destruct (Qle_bool 1 c) eqn:E; [ | reflexivity].
  apply Qle_bool_iff in E. apply Qle_antisym; assumption.
Qed.

Lemma sanitize_fixed (ns : Q -> jsstring) (r : AnalysisResponse)
  (sym : jsstring) (p : Q) :
  well_formed r ->
  exists r', sanitizeAnalysis ns (as_raw r) sym p = Ok r' /\ same_result r r'.
Proof.
  intros (Hsym & Hsig & Hact & Hrisk & (Hr1 & Hr2) & (Hh1 & Hh2) & Hconf & Hts).
  change (as_raw r) with (JObj (raw_props r)).
  destruct (raw_props_lookup r)
    as (L1 & L2 & L3 & L4 & L5 & L6 & L7 & L8 & L9 & L10 & L11).
  unfold sanitizeAnalysis. cbv zeta. rewrite !opt_prop_object.
  rewrite L1, L2, L3, L4, L5, L6, L7, L8, L9, L10, L11.
  rewrite (trim_or_fixed _ _ Hr1 Hr2), (trim_or_fixed _ _ Hh1 Hh2).
  cbv beta iota delta [bind].
  eexists. split; [reflexivity | ].
  unfold same_result.
  cbn [symbol signal_level action risk_estimation reasoning time_horizon
       confidence technical_summary suggested_buy_price suggested_sell_price
       stop_loss_price].
  rewrite !enum_or_member by assumption.
  split; [destruct (symbol r); try reflexivity; now elim Hsym | ].
  split; [reflexivity | ]. split; [reflexivity | ].
  split; [now destruct (suggested_buy_price r) | ].
  split; [now destruct (suggested_sell_price r) | ].
  split; [now destruct (stop_loss_price r) | ].
  split; [reflexivity | ]. split; [reflexivity | ].
  split.
  - intros k. rewrite lookup_app. cbn [own_props].
    destruct (lookup k (technical_summary r)) eqn:E; [reflexivity | ].
    specialize (Hts k E). simpl.
    destruct (str_eqb k (js "key_indicators")) eqn:E4;
      [apply str_eqb_eq in E4; elim Hts; rewrite E4; cbn [In]; auto 6 | ].
    destruct (str_eqb k (js "resistance_levels")) eqn:E3;
      [apply str_eqb_eq in E3; elim Hts; rewrite E3; cbn [In]; auto 6 | ].
    destruct (str_eqb k (js "support_levels")) eqn:E2;
      [apply str_eqb_eq in E2; elim Hts; rewrite E2; cbn [In]; auto 6 | ].
    destruct (str_eqb k (js "trend")) eqn:E1;
      [apply str_eqb_eq in E1; elim Hts; rewrite E1; cbn [In]; auto 6 | ].
    reflexivity.
  - split; [ | reflexivity]. symmetry. now apply clamp_fixed.
Qed.

(** X17.  The sanitizer is idempotent: whatever value it returned a result
    for, sanitizing that result again, with any symbol and price, returns a
    result with the same fields (the technical summary holding the same
    value under every key, the confidence the same number). *)
Theorem sanitize_idempotent (ns ns' : Q -> jsstring) (raw : json)
  (sym sym' : jsstring) (p p' : Q) (r : AnalysisResponse) :
  sanitizeAnalysis ns raw sym p = Ok r ->
  exists r', sanitizeAnalysis ns' (as_raw r) sym' p' = Ok r' /\ same_result r r'.
Proof.
  intros H. apply sanitize_fixed. exact (sanitize_well_formed ns raw sym p r H).
Qed.

Lemma sanitize_idempotent_witness :
  exists r r',
    sanitizeAnalysis no_digits (JObj [(js "confidence", JNum (inject_Z 7))])
                     (js "AAPL") (inject_Z 100) = Ok r
    /\ sanitizeAnalysis no_digits (as_raw r) (js "MSFT") (inject_Z 5) = Ok r'
    /\ same_result r r'.
Proof.
  assert (H : exists r,
             sanitizeAnalysis no_digits (JObj [(js "confidence", JNum (inject_Z 7))])
               (js "AAPL") (inject_Z 100) = Ok r)
    by (eexists; vm_compute; reflexivity).
  destruct H as (r & Hr).
  destruct (sanitize_idempotent no_digits no_digits _ (js "AAPL") (js "MSFT")
              (inject_Z 100) (inject_Z 5) r Hr) as (r' & Hr' & Hsame).
  exists r, r'. auto.
Defined.

(** *** Enrichment *)

(** The value [enrichWithIndicators] writes under an indicator key. *)
Definition indicator_value (ind : Indicators.TechnicalIndicators) (k : jsstring)
  : option json :=
  if str_eqb k (js "bb_upper") then num (option_map Indicators.upper (Indicators.bb ind))
  else if str_eqb k (js "bb_lower") then num (option_map Indicators.lower (Indicators.bb ind))
  else if str_eqb k (js "bb_middle") then num (option_map Indicators.middle (Indicators.bb ind))
  else if str_eqb k (js "sma_20") then num (Indicators.sma_20 ind)
  else if str_eqb k (js "sma_50") then num (Indicators.sma_50 ind)
  else if str_eqb k (js "sma_200") then num (Indicators.sma_200 ind)
  else if str_eqb k (js "rsi") then num (Indicators.rsi ind)
  else num (option_map Indicators.macd (Indicators.ind_macd ind)).

Lemma lookup_defined_app (k : jsstring) (a b : list (jsstring * option json)) :
  lookup_defined k (a ++ b) =
  if existsb (fun kv => str_eqb k (fst kv)) b then lookup_defined k b
  else lookup_defined k a.
Proof.
  induction a as [ | [k' v] a IH]; simpl.
  - destruct (existsb _ b) eqn:E; [reflexivity | ].
    induction b as [ | [k2 v2] b IHb]; [reflexivity | ].
    simpl in *. apply orb_false_elim in E. destruct E as [E1 E2].
    rewrite E2, E1. reflexivity.
  - rewrite existsb_app, IH.
    destruct (existsb (fun kv => str_eqb k (fst kv)) b); [now rewrite orb_true_r | ].
    now rewrite orb_false_r.
Qed.

Lemma lookup_defined_values (k : jsstring) (m : object) :
  lookup_defined k (map (fun kv => (fst kv, Some (snd kv))) m) = lookup k m.
Proof.
  induction m as [ | [k' v] m IH]; [reflexivity | ]. simpl.
  rewrite <- IH.
  destruct (existsb _ _) eqn:E.
  - destruct (lookup_defined k _) eqn:El; [reflexivity | ].
    exfalso. clear IH. induction m as [ | [k2 v2] m IHm]; [discriminate | ].
    simpl in *. destruct (existsb _ (map _ m)) eqn:E2.
    + now apply IHm.
    + rewrite orb_false_r in E. rewrite E in El. discriminate.
  - assert (Hn : lookup_defined k (map (fun kv => (fst kv, Some (snd kv))) m) = None).
    { clear IH. induction m as [ | [k2 v2] m IHm]; [reflexivity | ].
      simpl in *. apply orb_false_elim in E. destruct E as [E1 E2].
      now rewrite E2, E1. }
    rewrite Hn. reflexivity.
Qed.

(** X18.  After [enrichWithIndicators], each of the eight indicator
    properties of the technical summary holds the computed indicator
    (undefined when the indicator is null), whatever the analysis held under
    that key, and every other property reads as it did in the analysis. *)
Theorem enrich_overwrites_indicators (a : AnalysisResponse)
  (ind : Indicators.TechnicalIndicators) (k : jsstring) :
  lookup_defined k (enriched_summary (enrichWithIndicators a ind))
  = if existsb (str_eqb k) INDICATOR_KEYS then indicator_value ind k
    else lookup k (technical_summary a).
Proof.
  unfold enrichWithIndicators. cbn [enriched_summary].
  rewrite lookup_defined_app, lookup_defined_values.
  unfold INDICATOR_KEYS, indicator_value. cbn [existsb fst].
  destruct (str_eqb k (js "bb_upper")) eqn:E1.
  { apply str_eqb_eq in E1. subst k. reflexivity. }
  destruct (str_eqb k (js "bb_lower")) eqn:E2.
  { apply str_eqb_eq in E2. subst k. reflexivity. }
  destruct (str_eqb k (js "bb_middle")) eqn:E3.
  { apply str_eqb_eq in E3. subst k. reflexivity. }
  destruct (str_eqb k (js "sma_20")) eqn:E4.
  { apply str_eqb_eq in E4. subst k. reflexivity. }
  destruct (str_eqb k (js "sma_50")) eqn:E5.
  { apply str_eqb_eq in E5. subst k. reflexivity. }
  destruct (str_eqb k (js "sma_200")) eqn:E6.
  { apply str_eqb_eq in E6. subst k. reflexivity. }
  destruct (str_eqb k (js "rsi")) eqn:E7.
  { apply str_eqb_eq in E7. subst k. reflexivity. }
  destruct (str_eqb k (js "macd")) eqn:E8.
  { apply str_eqb_eq in E8. subst k. reflexivity. }
  reflexivity.
Qed.

End SanitizerRoundTripFacts.

(** ** The ranking and the order of the requests *)

Module RankingOrderFacts.

Import Ranking RankingFacts Fallback FallbackFacts Double DoubleFacts.

Lemma at_most_more (n m : Z) (a : number) :
  (n <= m)%Z -> at_most n a -> at_most m a.
Proof.
  intros Hnm. destruct a as [x | | | ]; simpl; try tauto.
  intros [H0 H]. split; [exact H0 | ]. rewrite Zle_Qle in Hnm.
  eapply Qle_trans; eassumption.
Qed.

Lemma amount_nonneg (a : number) : amount a -> nonneg a.
Proof. destruct a; simpl; tauto. Qed.

Lemma of_Z_at_most (n : Z) : (0 < n < 2 ^ 53)%Z -> at_most n (of_Z n).
Proof.
  intros H. apply round64_at_most; [exact H | ].
  split; [ | apply Qle_refl]. change 0%Q with (inject_Z 0).
  rewrite <- Zle_Qle. lia.
Qed.

(** With a latest marker the score is at least 10000. *)
Lemma latest_score (a : jsstring) :
  includes (js "latest") (toLowerCase a) = true -> at_least 10000 (score a).
Proof.
  intros Ha. unfold score. cbv zeta. rewrite Ha. fold (version_double a).
  pose proof (amount_nonneg _ (times_1000_amount _ (version_double_amount a))) as Hv.
  assert (H0 : at_least 10000 (add (of_Z 0) (of_Z 10000)))
    by (vm_compute; discriminate).
  assert (R : (0 < 10000 < 2 ^ 53)%Z) by (split; reflexivity).
  assert (N1 : nonneg (of_Z 100)) by (apply amount_nonneg, of_Z_amount; lia).
  assert (N2 : nonneg (of_Z 50)) by (apply amount_nonneg, of_Z_amount; lia).
  assert (N3 : nonneg (of_Z 20)) by (apply amount_nonneg, of_Z_amount; lia).
  pose proof (add_at_least 10000 _ _ R H0 Hv) as H1.
  remember (add (add (of_Z 0) (of_Z 10000))
                (mul (version_double a) (of_Z 1000))) as base eqn:Ebase.
  clear Ebase H0 Hv.
  assert (H2 : at_least 10000
                 (if includes (js "flash") (toLowerCase a)
                  then add base (of_Z 100) else base)).
  { destruct (includes (js "flash") (toLowerCase a)); [ | exact H1].
    apply add_at_least; assumption. }
  remember (if includes (js "flash") (toLowerCase a)
            then add base (of_Z 100) else base) as tier eqn:Etier.
  clear Etier H1.
  destruct (includes (js "preview") (toLowerCase a));
    destruct (includes (js "exp") (toLowerCase a)); cbn [negb andb].
  - apply add_at_least; assumption.
  - apply add_at_least; assumption.
  - exact H2.
  - apply add_at_least; assumption.
Qed.

(** Without one, and with a version number of at most 9, it is at most
    9150. *)
Lemma plain_score (b : jsstring) :
  includes (js "latest") (toLowerCase b) = false ->
  (version_number b <= inject_Z 9)%Q ->
  at_most 9150 (score b).
Proof.
  intros Hb Hv. unfold score. cbv zeta. rewrite Hb. fold (version_double b).
  assert (V : at_most 9 (version_double b)).
  { unfold version_double. unfold version_number in Hv.
    destruct (match_version (toLowerCase b)) as [v | ] eqn:E.
    - apply round64_at_most; [split; reflexivity | ].
      split; [exact (match_version_nonneg _ _ E) | exact Hv].
    - vm_compute. split; discriminate. }
  assert (T : at_most 9000 (mul (version_double b) (of_Z 1000))).
  { apply (mul_at_most 9 1000); [split; reflexivity | exact V | ].
    apply of_Z_at_most. split; reflexivity. }
  assert (Z0 : at_most 0 (of_Z 0)) by (vm_compute; split; discriminate).
  pose proof (add_at_most 0 9000 _ _ ltac:(split; reflexivity) Z0 T) as S1.
  assert (S2 : at_most 9100
                 (if includes (js "flash") (toLowerCase b)
                  then add (add (of_Z 0) (mul (version_double b) (of_Z 1000)))
                           (of_Z 100)
                  else add (of_Z 0) (mul (version_double b) (of_Z 1000)))).
  { destruct (includes (js "flash") (toLowerCase b)).
    - apply (add_at_most 9000 100); [split; reflexivity | exact S1 | ].
      apply of_Z_at_most. split; reflexivity.
    - apply (at_most_more 9000); [lia | exact S1]. }
  destruct (includes (js "preview") (toLowerCase b));
    destruct (includes (js "exp") (toLowerCase b)); cbn [negb andb].
  - apply (at_most_more 9120); [lia | ].
    apply (add_at_most 9100 20); [split; reflexivity | exact S2 | ].
    apply of_Z_at_most. split; reflexivity.
  - apply (at_most_more 9120); [lia | ].
    apply (add_at_most 9100 20); [split; reflexivity | exact S2 | ].
    apply of_Z_at_most. split; reflexivity.
  - apply (at_most_more 9100); [lia | exact S2].
  - apply (add_at_most 9100 50); [split; reflexivity | exact S2 | ].
    apply of_Z_at_most. split; reflexivity.
Qed.

(** A latest marker outweighs the rest of the score of any id whose version
    number is at most 9, whatever the rounding. *)
Lemma latest_outscores (a b : jsstring) :
  includes (js "latest") (toLowerCase a) = true ->
  includes (js "latest") (toLowerCase b) = false ->
  (version_number b <= inject_Z 9)%Q ->
  ltb (score b) (score a) = true.
Proof.
  intros Ha Hb Hv.
  apply (at_most_below_at_least 9150 10000); [lia | | ].
  - now apply plain_score.
  - now apply latest_score.
Qed.

Lemma sorted_split (l1 l2 l3 : list jsstring) (x y : jsstring) :
  StronglySorted desc (l1 ++ x :: l2 ++ y :: l3) -> leb (score y) (score x) = true.
Proof.
  induction l1 as [ | z l1 IH]; simpl; intros H.
  - apply StronglySorted_inv in H. destruct H as [_ H].
    rewrite Forall_forall in H. apply (H y).
    apply in_or_app. right. now left.
  - apply StronglySorted_inv in H. destruct H as [H _]. now apply IH.
Qed.

(** X19.  In the ranking, an id with a latest marker stands before every id
    without one whose version number is at most 9: the list reads
    [.. a .. b ..], and never [.. b .. a ..]. *)
Theorem latest_ranked_first (available : list GeminiModel) (a b : jsstring) :
  In a (rankModels available) -> In b (rankModels available) ->
  includes (js "latest") (toLowerCase a) = true ->
  includes (js "latest") (toLowerCase b) = false ->
  (version_number b <= inject_Z 9)%Q ->
  (exists l1 l2 l3, rankModels available = l1 ++ a :: l2 ++ b :: l3)
  /\ (forall l1 l2 l3, rankModels available <> l1 ++ b :: l2 ++ a :: l3).
Proof.
  intros Ia Ib Ha Hb Hv.
  pose proof (latest_outscores a b Ha Hb Hv) as Hlt.
  assert (Hs : StronglySorted desc (rankModels available))
    by (rewrite rankModels_sort; apply sort_sorted).
  assert (Hno : forall l1 l2 l3, rankModels available <> l1 ++ b :: l2 ++ a :: l3).
  { intros l1 l2 l3 E. rewrite E in Hs. apply sorted_split in Hs.
    rewrite leb_real in Hs by apply score_real.
    rewrite Hlt in Hs. discriminate. }
  split; [ | exact Hno].
  destruct (in_split _ _ Ia) as (l1 & r & E).
  assert (Hab : a <> b) by (intros ->; congruence).
  rewrite E in Ib. apply in_app_or in Ib. destruct Ib as [Ib | [Ib | Ib]].
  - exfalso. destruct (in_split _ _ Ib) as (p & q & E').
    apply (Hno p q r). rewrite E, E', <- app_assoc. reflexivity.
  - contradiction.
  - destruct (in_split _ _ Ib) as (l2 & l3 & E'). exists l1, l2, l3.
    now rewrite E, E'.
Qed.

Lemma latest_ranked_first_witness :
  (exists l1 l2 l3,
     rankModels [gen_content "gemini-2.5-pro"; gen_content "gemini-1.5-flash-latest"]
     = l1 ++ js "gemini-1.5-flash-latest" :: l2 ++ js "gemini-2.5-pro" :: l3)
  /\ (forall l1 l2 l3,
        rankModels [gen_content "gemini-2.5-pro"; gen_content "gemini-1.5-flash-latest"]
        <> l1 ++ js "gemini-2.5-pro" :: l2 ++ js "gemini-1.5-flash-latest" :: l3).
Proof.
  apply latest_ranked_first.
  - vm_compute. left. reflexivity.
  - vm_compute. right. left. reflexivity.
  - vm_compute. reflexivity.
  - vm_compute. reflexivity.
  - vm_compute. discriminate.
Defined.

(** The ids of the ranking are those of the eligible models of the
    directory. *)
Lemma ranked_is_eligible (available : list GeminiModel) (id : jsstring) :
  In id (rankModels available) ->
  exists m, In m available /\ is_text_model m = true
            /\ id = replace_first (js "models/") [] (name m).
Proof.
  intros H. rewrite rankModels_sort in H.
  apply (Permutation_in _ (Permutation_sym (sort_perm _))) in H.
  unfold textModels in H. apply in_map_iff in H. destruct H as (m & E & Hm).
  apply filter_In in Hm. destruct Hm as [Hm Ht]. now exists m.
Qed.

(** The first request of each turn. *)
Definition first_try (rq : request) : bool :=
  match req_version rq with
  | v1beta => true
  | v1 => false
  end.

Definition models_tried (tr : list attempt) : list jsstring :=
  map req_model (filter first_try (map fst tr)).

Section Search.

Variable num_toString : Q -> jsstring.
Variable symbol : jsstring.
Variable price : Q.
Variable ind : Indicators.TechnicalIndicators.
Variable world : Type.
Variable fetch : world -> request -> fetch_result * world.

Let analyzeWithGemini :=
  Fallback.analyzeWithGemini num_toString symbol price ind world fetch.
Let turn := FallbackFacts.turn num_toString symbol price ind.
Let search := FallbackFacts.search num_toString symbol price ind.

Lemma turn_first_try (m : jsstring) (tr : list attempt) (ex : loop_exit) :
  turn m VERSIONS tr ex -> models_tried tr = [m].
Proof.
  unfold VERSIONS. intros H.
  inversion H as [ | v vs r res Hj | v vs r err Hj | v vs r tr1 ex1 Hj H1];
    subst; try reflexivity.
  inversion H1 as [ | v vs r2 res Hj2 | v vs r2 err Hj2 | v vs r2 tr2 ex2 Hj2 H2];
    subst; try reflexivity.
  inversion H2; subst. reflexivity.
Qed.

Lemma search_prefix (candidates : list jsstring) (tr : list attempt)
  (ex : loop_exit) :
  search candidates tr ex -> exists rest, candidates = models_tried tr ++ rest.
Proof.
  induction 1 as [ | m ms tr res Ht | m ms tr errs tr' ex Ht Hs (rest & IH)].
  - now exists [].
  - exists ms. now rewrite (turn_first_try _ _ _ Ht).
  - exists rest.
    assert (Happ : models_tried (tr ++ tr') = models_tried tr ++ models_tried tr')
      by (unfold models_tried; now rewrite map_app, filter_app, map_app).
    rewrite Happ, (turn_first_try _ _ _ Ht). simpl. now rewrite IH.
Qed.

(** X20.  The models are tried in the order of the ranking, none skipped:
    the first requests of the turns, in the order they were made, name an
    initial segment of the ranking, and every model requested is an eligible
    model of the directory. *)
Theorem tries_follow_ranking (available : list GeminiModel) (w : world) :
  (exists rest,
     rankModels available
     = models_tried (requests (analyzeWithGemini available w)) ++ rest)
  /\ Forall (fun a =>
               exists m, In m available /\ is_text_model m = true
                         /\ req_model (fst a)
                            = replace_first (js "models/") [] (name m))
            (requests (analyzeWithGemini available w)).
Proof.
  destruct (rankModels available) as [ | c cs] eqn:E.
  - unfold analyzeWithGemini, Fallback.analyzeWithGemini. rewrite E.
    split; [now exists [] | constructor].
  - destruct (analyze_search num_toString symbol price ind world fetch available w)
      as (ex & Hs & _); [rewrite E; discriminate | ].
    split.
    + rewrite <- E. exact (search_prefix _ _ _ Hs).
    + destruct (FallbackOrderFacts.search_size _ _ _ _ _ _ _ Hs) as [_ Hin].
      eapply Forall_impl; [ | exact Hin].
      intros a Ha. now apply ranked_is_eligible.
Qed.

End Search.

End RankingOrderFacts.

(** ** Fences and prose around the object ([parseJsonResponse]) *)

Module UnwrapFacts.

Import Repair.
Local Open Scope N_scope.

Definition BACKTICK : N := 96.
Definition OPEN : N := Json.ch "{".
Definition CLOSE : N := Json.ch "}".

(** A reply in which a JSON object stands between a lead and a tail. *)
Definition wrapped (lead inner tail : jsstring) : jsstring :=
  lead ++ OPEN :: inner ++ CLOSE :: tail.

Lemma skipn_keeps (k : nat) (s : jsstring) (c : N) :
  In c (skipn k s) -> In c s.
Proof.
  intros H. rewrite <- (firstn_skipn k s). apply in_or_app. now right.
Qed.

Lemma remove_all_keeps (m : jsstring -> option nat) (c : N) (fuel : nat)
  (s : jsstring) :
  In c (remove_all m fuel s) -> In c s.
Proof.
  revert s. induction fuel as [ | f IH]; intros s; simpl; [auto | ].
  destruct s as [ | x s]; [auto | ].
  destruct (m (x :: s)) as [[ | k] | ].
  - intros [H | H]; [now left | right; now apply IH].
  - intros H. right. apply (skipn_keeps k). now apply IH.
  - intros [H | H]; [now left | right; now apply IH].
Qed.

Lemma count_leading_space_lead (q rest : jsstring) :
  (count_leading_space (q ++ OPEN :: rest) <= length q)%nat.
Proof.
  induction q as [ | c q IH]; simpl.
  - lia.
  - destruct (is_space c); lia.
Qed.

Lemma lower_unit_open (y : N) : lower_unit y = OPEN -> y = OPEN.
Proof.
  unfold lower_unit, OPEN.
  destruct (N.leb 65 y && N.leb y 90)%bool eqn:E; [ | auto].
  apply andb_prop in E. destruct E as [E1 E2].
  apply N.leb_le in E1. apply N.leb_le in E2.
  change (Json.ch "{") with 123. lia.
Qed.

Lemma fence_within_lead (ci : bool) (fence p rest : jsstring) :
  ~ In OPEN fence -> ~ In OPEN p ->
  (if ci then starts_with_ci fence (p ++ OPEN :: rest)
   else starts_with fence (p ++ OPEN :: rest)) = true ->
  (length fence <= length p)%nat.
Proof.
  revert p. induction fence as [ | x fence IH]; intros p Hf Hp H; simpl; [lia | ].
  destruct p as [ | y p].
  - exfalso. apply Hf. left. simpl in H.
    destruct ci; apply andb_prop in H; destruct H as [H _];
      apply N.eqb_eq in H; rewrite H; reflexivity.
  - simpl. apply le_n_S. apply IH.
    + intros Hin. apply Hf. now right.
    + intros Hin. apply Hp. now right.
    + simpl in H. destruct ci; apply andb_prop in H; now destruct H.
Qed.

Lemma match_fence_within_lead (ci : bool) (fence p rest : jsstring) (k : nat) :
  ~ In OPEN fence -> ~ In OPEN p ->
  match_fence ci fence (p ++ OPEN :: rest) = Some k -> (k <= length p)%nat.
Proof.
  intros Hf Hp. unfold match_fence.
  destruct (if ci then starts_with_ci fence (p ++ OPEN :: rest)
            else starts_with fence (p ++ OPEN :: rest)) eqn:E; [ | discriminate].
  intros H. injection H as <-.
  pose proof (fence_within_lead ci fence p rest Hf Hp E) as Hlen.
  rewrite skipn_app.
  replace (length fence - length p)%nat with O by lia.
  cbn [skipn].
  pose proof (count_leading_space_lead (skipn (length fence) p) rest) as Hc.
  rewrite length_skipn in Hc. lia.
Qed.

Lemma match_fence_backtick (ci : bool) (fence s : jsstring) (k : nat) :
  match_fence ci (BACKTICK :: fence) s = Some k -> exists s', s = BACKTICK :: s'.
Proof.
  unfold match_fence. destruct s as [ | y s]; [destruct ci; simpl; discriminate | ].
  destruct ci; cbn [starts_with_ci starts_with].
  - destruct (BACKTICK =? lower_unit y) eqn:E; [ | simpl; discriminate].
    intros _. exists s. f_equal. apply N.eqb_eq in E. unfold lower_unit in E.
    destruct (N.leb 65 y && N.leb y 90)%bool eqn:E'; [ | now symmetry].
    apply andb_prop in E'. destruct E' as [E1 E2].
    apply N.leb_le in E1. apply N.leb_le in E2. unfold BACKTICK in *. lia.
  - destruct (BACKTICK =? y) eqn:E; [ | simpl; discriminate].
    intros _. exists s. f_equal. apply N.eqb_eq in E. now symmetry.
Qed.

Section Pass.

(** One of the two fence patterns. *)
Variable ci : bool.
Variable fence : jsstring.
Hypothesis fence_plain : ~ In OPEN fence.

Let m := match_fence ci (BACKTICK :: fence).

Lemma fence_plain' : ~ In OPEN (BACKTICK :: fence).
Proof. intros [H | H]; [discriminate | contradiction]. Qed.

(** No fence starts inside a text without backticks. *)
Lemma pass_plain (o rest : jsstring) (fuel : nat) :
  ~ In BACKTICK o -> (length o <= fuel)%nat ->
  remove_all m fuel (o ++ rest) = o ++ remove_all m (fuel - length o) rest.
Proof.
  revert fuel. induction o as [ | c o IH]; intros fuel Ho Hl; simpl.
  - now rewrite Nat.sub_0_r.
  - destruct fuel as [ | f]; [simpl in Hl; lia | ].
    cbn [remove_all Nat.sub].
    destruct (m (c :: o ++ rest)) as [[ | k] | ] eqn:E.
    + f_equal. apply IH; [intros H; apply Ho; now right | simpl in Hl; lia].
    + exfalso. destruct (match_fence_backtick _ _ _ _ E) as (s' & Es).
      injection Es as -> _. apply Ho. now left.
    + f_equal. apply IH; [intros H; apply Ho; now right | simpl in Hl; lia].
Qed.

(** A fence that starts in the lead ends in the lead. *)
Lemma pass_lead (fuel : nat) (lead rest : jsstring) :
  ~ In OPEN lead -> (length lead <= fuel)%nat ->
  exists lead' fuel',
    remove_all m fuel (lead ++ OPEN :: rest)
    = lead' ++ remove_all m fuel' (OPEN :: rest)
    /\ ~ In OPEN lead' /\ (fuel - length lead <= fuel')%nat.
Proof.
  revert lead. induction fuel as [ | f IH]; intros lead Hp Hl.
  - destruct lead; [ | simpl in Hl; lia]. exists [], O. simpl. auto.
  - destruct lead as [ | c p].
    + exists [], (S f). simpl. split; [reflexivity | split; [auto | lia]].
    + simpl in Hl.
      assert (Hp' : ~ In OPEN p) by (intros H; apply Hp; now right).
      change ((c :: p) ++ OPEN :: rest) with (c :: p ++ OPEN :: rest).
      cbn [remove_all].
      destruct (m (c :: p ++ OPEN :: rest)) as [[ | k] | ] eqn:E.
      * destruct (IH p Hp') as (l' & f' & E' & Hl' & Hf'); [lia | ].
        exists (c :: l'), f'. rewrite E'. split; [reflexivity | ].
        split; [ | simpl; lia].
        intros [H | H]; [apply Hp; now left | contradiction].
      * pose proof (match_fence_within_lead ci (BACKTICK :: fence) (c :: p) rest
                      (S k) fence_plain' Hp E) as Hk.
        simpl in Hk. rewrite skipn_app.
        replace (k - length p)%nat with O by lia. cbn [skipn].
        destruct (IH (skipn k p)) as (l' & f' & E' & Hl' & Hf').
        { intros H. apply Hp'. now apply (skipn_keeps k). }
        { rewrite length_skipn. lia. }
        exists l', f'. rewrite E'. split; [reflexivity | ].
        split; [exact Hl' | ]. rewrite length_skipn in Hf'. simpl. lia.
      * destruct (IH p Hp') as (l' & f' & E' & Hl' & Hf'); [lia | ].
        exists (c :: l'), f'. rewrite E'. split; [reflexivity | ].
        split; [ | simpl; lia].
        intros [H | H]; [apply Hp; now left | contradiction].
Qed.

Lemma pass_wrapped (lead inner tail : jsstring) (fuel : nat) :
  ~ In OPEN lead -> ~ In BACKTICK inner -> ~ In CLOSE tail ->
  (length (wrapped lead inner tail) <= fuel)%nat ->
  exists lead' tail',
    remove_all m fuel (wrapped lead inner tail) = wrapped lead' inner tail'
    /\ ~ In OPEN lead' /\ ~ In CLOSE tail'.
Proof.
  intros Hl Hi Ht Hfuel. unfold wrapped in *.
  rewrite length_app in Hfuel. cbn [length] in Hfuel.
  rewrite length_app in Hfuel. cbn [length] in Hfuel.
  destruct (pass_lead fuel lead (inner ++ CLOSE :: tail) Hl) as (l' & f' & E & Hl' & Hf');
    [lia | ].
  rewrite E.
  change (OPEN :: inner ++ CLOSE :: tail)
    with ((OPEN :: inner) ++ ([CLOSE] ++ tail)).
  rewrite app_assoc.
  rewrite pass_plain.
  - exists l', (remove_all m (f' - length ((OPEN :: inner) ++ [CLOSE])) tail).
    split.
    + rewrite <- app_assoc. reflexivity.
    + split; [exact Hl' | ]. intros H. apply Ht. eapply remove_all_keeps, H.
  - intros H. apply in_app_or in H. destruct H as [[H | H] | [H | []]].
    + discriminate.
    + contradiction.
    + discriminate.
  - rewrite length_app. simpl. lia.
Qed.

End Pass.

Lemma strip_passes (lead inner tail : jsstring) :
  ~ In OPEN lead -> ~ In BACKTICK inner -> ~ In CLOSE tail ->
  exists lead' tail',
    strip_fences (wrapped lead inner tail) = trim (wrapped lead' inner tail')
    /\ ~ In OPEN lead' /\ ~ In CLOSE tail'.
Proof.
  intros Hl Hi Ht. unfold strip_fences. cbv zeta.
  assert (P1 : ~ In OPEN (skipn 1 (js "```json")))
    by (simpl; intuition discriminate).
  assert (P2 : ~ In OPEN (skipn 1 (js "```")))
    by (simpl; intuition discriminate).
  destruct (pass_wrapped true _ P1 lead inner tail
              (length (wrapped lead inner tail)) Hl Hi Ht (le_n _))
    as (l1 & t1 & E1 & Hl1 & Ht1).
  change (match_fence true (js "```json"))
    with (match_fence true (BACKTICK :: skipn 1 (js "```json"))).
  rewrite E1.
  destruct (pass_wrapped false _ P2 l1 inner t1
              (length (wrapped l1 inner t1)) Hl1 Hi Ht1 (le_n _))
    as (l2 & t2 & E2 & Hl2 & Ht2).
  change (match_fence false (js "```"))
    with (match_fence false (BACKTICK :: skipn 1 (js "```"))).
  rewrite E2. now exists l2, t2.
Qed.

Lemma trimStart_app_plain (lead rest : jsstring) (c : N) :
  is_space c = false ->
  trimStart (lead ++ c :: rest) = trimStart lead ++ c :: rest.
Proof.
  intros Hc. induction lead as [ | x lead IH]; simpl.
  - now rewrite Hc.
  - destruct (is_space x); [exact IH | reflexivity].
Qed.

Lemma trimEnd_app_plain (body tail : jsstring) (c : N) :
  is_space c = false ->
  trimEnd (body ++ c :: tail) = body ++ c :: trimEnd tail.
Proof.
  intros Hc. unfold trimEnd.
  rewrite rev_app_distr. simpl. rewrite <- app_assoc. simpl.
  rewrite (trimStart_app_plain _ _ _ Hc).
  rewrite rev_app_distr. simpl. rewrite rev_involutive, <- app_assoc.
  reflexivity.
Qed.

Lemma trimStart_keeps (s : jsstring) (c : N) : In c (trimStart s) -> In c s.
Proof.
  induction s as [ | x s IH]; simpl; [auto | ].
  destruct (is_space x); [intros H; right; now apply IH | auto].
Qed.

Lemma trim_wrapped (lead inner tail : jsstring) :
  ~ In OPEN lead -> ~ In CLOSE tail ->
  exists lead' tail',
    trim (wrapped lead inner tail) = wrapped lead' inner tail'
    /\ ~ In OPEN lead' /\ ~ In CLOSE tail'.
Proof.
  intros Hl Ht. exists (trimStart lead), (trimEnd tail).
  split; [ | split].
  - unfold trim, wrapped.
    rewrite trimStart_app_plain by reflexivity.
    change (trimStart lead ++ OPEN :: inner ++ CLOSE :: tail)
      with (trimStart lead ++ (OPEN :: inner) ++ CLOSE :: tail).
    rewrite app_assoc, trimEnd_app_plain by reflexivity.
    rewrite <- app_assoc. reflexivity.
  - intros H. apply Hl. now apply trimStart_keeps.
  - intros H. apply Ht. unfold trimEnd in H. apply in_rev in H.
    apply trimStart_keeps in H. now apply in_rev.
Qed.

Lemma indexOf_from_lead (c : N) (lead rest : jsstring) (i : Z) :
  ~ In c lead ->
  indexOf_from c i (lead ++ c :: rest) = (i + Z.of_nat (length lead))%Z.
Proof.
  revert i. induction lead as [ | x lead IH]; intros i H; simpl indexOf_from.
  - rewrite N.eqb_refl. simpl. lia.
  - destruct (x =? c) eqn:E.
    + exfalso. apply H. left. now apply N.eqb_eq.
    + rewrite IH by (intros Hin; apply H; now right).
      cbn [length]. lia.
Qed.

Lemma lastIndexOf_from_absent (c : N) (s : jsstring) (i last : Z) :
  ~ In c s -> lastIndexOf_from c i last s = last.
Proof.
  revert i. induction s as [ | x s IH]; intros i H; simpl; [reflexivity | ].
  destruct (x =? c) eqn:E.
  - exfalso. apply H. left. now apply N.eqb_eq.
  - apply IH. intros Hin. apply H. now right.
Qed.

Lemma lastIndexOf_from_tail (c : N) (body tail : jsstring) (i last : Z) :
  ~ In c tail ->
  lastIndexOf_from c i last (body ++ c :: tail) = (i + Z.of_nat (length body))%Z.
Proof.
  revert i last. induction body as [ | x body IH]; intros i last H.
  - simpl. rewrite N.eqb_refl. rewrite lastIndexOf_from_absent by exact H. lia.
  - simpl app. cbn [lastIndexOf_from length]. rewrite IH by exact H. lia.
Qed.

Lemma extract_wrapped (lead inner tail : jsstring) :
  ~ In OPEN lead -> ~ In CLOSE tail ->
  extract_object (wrapped lead inner tail) = OPEN :: inner ++ [CLOSE].
Proof.
  intros Hl Ht. unfold extract_object, wrapped. cbv zeta.
  fold OPEN. fold CLOSE. unfold indexOf, lastIndexOf.
  rewrite (indexOf_from_lead OPEN lead _ 0 Hl).
  change (lead ++ OPEN :: inner ++ CLOSE :: tail)
    with (lead ++ (OPEN :: inner) ++ CLOSE :: tail).
  rewrite app_assoc.
  rewrite (lastIndexOf_from_tail CLOSE _ tail 0 (-1) Ht).
  rewrite length_app. cbn [length].
  assert (Hs : (negb (0 + Z.of_nat (length lead) =? -1)%Z
                && (0 + Z.of_nat (length lead)
                    <? 0 + Z.of_nat (length lead + S (length inner)))%Z)%bool = true).
  { apply andb_true_intro. split.
    - apply negb_true_iff. apply Z.eqb_neq. lia.
    - apply Z.ltb_lt. lia. }
  rewrite Hs. unfold slice.
  replace (Z.to_nat (0 + Z.of_nat (length lead))) with (length lead) by lia.
  replace (Z.to_nat (0 + Z.of_nat (length lead + S (length inner)) + 1
                     - (0 + Z.of_nat (length lead))))
    with (length ((OPEN :: inner) ++ [CLOSE]))
    by (rewrite length_app; simpl; lia).
  rewrite <- app_assoc, skipn_app, skipn_all, Nat.sub_diag. cbn [skipn app].
  change (OPEN :: inner ++ CLOSE :: tail)
    with ((OPEN :: inner) ++ [CLOSE] ++ tail).
  rewrite app_assoc, firstn_app, firstn_all, Nat.sub_diag.
  cbn [firstn]. now rewrite app_nil_r.
Qed.

(** X21.  A reply that holds one JSON object between a lead and a tail (code
    fences, prose) is read as that object: when the text between the braces
    has no backtick, the lead no opening brace and the tail no closing
    brace, the cleaned text is the object itself, and when it parses,
    [parseJsonResponse] returns its value. *)
Theorem parseJsonResponse_unwraps (lead inner tail : jsstring) (v : json) :
  ~ In OPEN lead -> ~ In BACKTICK inner -> ~ In CLOSE tail ->
  Json.parse (OPEN :: inner ++ [CLOSE]) = Ok v ->
  extract_object (strip_fences (wrapped lead inner tail)) = OPEN :: inner ++ [CLOSE]
  /\ parseJsonResponse (wrapped lead inner tail) = Ok v.
Proof.
  intros Hl Hi Ht Hv.
  assert (Hc : extract_object (strip_fences (wrapped lead inner tail))
               = OPEN :: inner ++ [CLOSE]).
  { destruct (strip_passes lead inner tail Hl Hi Ht) as (l1 & t1 & E1 & Hl1 & Ht1).
    rewrite E1.
    destruct (trim_wrapped l1 inner t1 Hl1 Ht1) as (l2 & t2 & E2 & Hl2 & Ht2).
    rewrite E2. now apply extract_wrapped. }
  split; [exact Hc | ].
  unfold parseJsonResponse. cbv zeta. rewrite Hc, Hv. reflexivity.
Qed.

Lemma parseJsonResponse_unwraps_witness :
  extract_object
    (strip_fences
       (wrapped (js "Here you go: ```json ") (jsq "'action':'buy'") (js " ``` Done.")))
  = OPEN :: jsq "'action':'buy'" ++ [CLOSE]
  /\ parseJsonResponse
       (wrapped (js "Here you go: ```json ") (jsq "'action':'buy'") (js " ``` Done."))
     = Ok (JObj [(js "action", JStr (js "buy"))]).
Proof.
  apply parseJsonResponse_unwraps.
  - vm_compute. intuition discriminate.
  - vm_compute. intuition discriminate.
  - vm_compute. intuition discriminate.
  - vm_compute. reflexivity.
Defined.

End UnwrapFacts.

(** ** The indicators of a price history ([buildTechnicalIndicators]) *)

Module Builder.

Import Indicators Averages.

Section Runtime.

Variable sqrt : Q -> Q.

Definition buildTechnicalIndicators (data : list StockDailyData)
  : TechnicalIndicators :=
  {| sma_20 := calculateSMA data 20;
     sma_50 := calculateSMA data 50;
     sma_200 := calculateSMA data 200;
     rsi := calculateRSI data 14;
     bb := calculateBollingerBands sqrt data 20 (inject_Z 2);
     ind_macd := calculateMACD exact StockDailyData close data |}.

End Runtime.

End Builder.

Module BuilderFacts.

Import Sanitizer Indicators Averages Enrich Builder SanitizerRoundTrip.

Lemma enriched_lookup (a : AnalysisResponse) (ind : TechnicalIndicators)
  (k : jsstring) :
  lookup_defined k (enriched_summary (enrichWithIndicators a ind))
  = if existsb (str_eqb k) INDICATOR_KEYS
    then SanitizerRoundTripFacts.indicator_value ind k
    else lookup k (technical_summary a).
Proof.
  unfold enrichWithIndicators. cbn [enriched_summary].
  rewrite SanitizerRoundTripFacts.lookup_defined_app,
    SanitizerRoundTripFacts.lookup_defined_values.
  unfold INDICATOR_KEYS, SanitizerRoundTripFacts.indicator_value.
  cbn [existsb fst].
  repeat match goal with
         | |- context [str_eqb k ?lit] =>
             let E := fresh "E" in
             destruct (str_eqb k lit) eqn:E;
             [apply JsFacts.str_eqb_eq in E; subst k; reflexivity | ]
         end.
  reflexivity.
Qed.

Lemma calculateSMA_none (data : list StockDailyData) (period : nat) :
  calculateSMA data period = None <-> length data < period.
Proof.
  unfold calculateSMA. destruct (length data <? period)%nat eqn:E.
  - apply Nat.ltb_lt in E. tauto.
  - apply Nat.ltb_ge in E. split; [discriminate | lia].
Qed.

Lemma calculateRSI_none (data : list StockDailyData) (period : nat) :
  calculateRSI data period = None <-> length data < period + 1.
Proof.
  unfold calculateRSI. destruct (length data <? period + 1)%nat eqn:E.
  - apply Nat.ltb_lt in E. tauto.
  - apply Nat.ltb_ge in E.
    destruct (fold_left _ _ _) as [gains losses].
    destruct (Qeq_bool _ _); (split; [discriminate | lia]).
Qed.

Lemma calculateMACD_none (data : list StockDailyData) :
  calculateMACD exact StockDailyData close data = None <-> length data < 26.
Proof.
  unfold calculateMACD, calculateEMA. rewrite length_map.
  destruct (length data <? 26)%nat eqn:E.
  - apply Nat.ltb_lt in E. tauto.
  - apply Nat.ltb_ge in E.
    assert (E12 : (length data <? 12)%nat = false) by (apply Nat.ltb_ge; lia).
    rewrite E12. split; [discriminate | lia].
Qed.

Section Runtime.

Variable sqrt : Q -> Q.

Lemma calculateBollingerBands_none (data : list StockDailyData) (period : nat)
  (stdDev : Q) :
  calculateBollingerBands sqrt data period stdDev = None <-> length data < period.
Proof.
  unfold calculateBollingerBands. destruct (length data <? period)%nat eqn:E.
  - apply Nat.ltb_lt in E. tauto.
  - apply Nat.ltb_ge in E. split; [discriminate | lia].
Qed.

Lemma indicators_by_length (data : list StockDailyData) :
  length data < 15 ->
  sma_20 (buildTechnicalIndicators sqrt data) = None
  /\ sma_50 (buildTechnicalIndicators sqrt data) = None
  /\ sma_200 (buildTechnicalIndicators sqrt data) = None
  /\ rsi (buildTechnicalIndicators sqrt data) = None
  /\ bb (buildTechnicalIndicators sqrt data) = None
  /\ ind_macd (buildTechnicalIndicators sqrt data) = None.
Proof.
  intros H. unfold buildTechnicalIndicators.
  cbn [sma_20 sma_50 sma_200 rsi bb ind_macd].
  split; [apply calculateSMA_none; lia | ].
  split; [apply calculateSMA_none; lia | ].
  split; [apply calculateSMA_none; lia | ].
  split; [apply (calculateRSI_none data 14); lia | ].
  split; [apply calculateBollingerBands_none; lia | apply calculateMACD_none; lia].
Qed.

(** X22.  Which indicators a history yields depends on its length alone:
    the 20, 50 and 200 day averages are null below 20, 50 and 200 bars, the
    RSI below 15, the bands below 20 and the MACD below 26, and each is
    computed from there on. *)
Theorem indicators_by_history (data : list StockDailyData) :
  (sma_20 (buildTechnicalIndicators sqrt data) = None <-> length data < 20)
  /\ (sma_50 (buildTechnicalIndicators sqrt data) = None <-> length data < 50)
  /\ (sma_200 (buildTechnicalIndicators sqrt data) = None <-> length data < 200)
  /\ (rsi (buildTechnicalIndicators sqrt data) = None <-> length data < 15)
  /\ (bb (buildTechnicalIndicators sqrt data) = None <-> length data < 20)
  /\ (ind_macd (buildTechnicalIndicators sqrt data) = None <-> length data < 26).
Proof.
  unfold buildTechnicalIndicators. cbn [sma_20 sma_50 sma_200 rsi bb ind_macd].
  split; [apply calculateSMA_none | ].
  split; [apply calculateSMA_none | ].
  split; [apply calculateSMA_none | ].
  split; [apply (calculateRSI_none data 14) | ].
  split; [apply calculateBollingerBands_none | apply calculateMACD_none].
Qed.

(** X23.  With a history shorter than 15 bars no indicator can be computed,
    and the enriched technical summary then reads as undefined under each of
    the eight indicator keys, whatever the analysis held there. *)
Theorem short_history_erases (a : AnalysisResponse) (data : list StockDailyData)
  (k : jsstring) :
  length data < 15 ->
  existsb (str_eqb k) INDICATOR_KEYS = true ->
  lookup_defined k
    (enriched_summary (enrichWithIndicators a (buildTechnicalIndicators sqrt data)))
  = None.
Proof.
  intros Hlen Hk. rewrite enriched_lookup, Hk.
  destruct (indicators_by_length data Hlen) as (E1 & E2 & E3 & E4 & E5 & E6).
  unfold SanitizerRoundTripFacts.indicator_value.
  rewrite E1, E2, E3, E4, E5, E6. cbn [option_map num].
  repeat match goal with
         | |- context [if ?b then _ else _] => destruct b
         end; reflexivity.
Qed.

End Runtime.

(** An analysis whose summary came with an RSI of its own. *)
Definition with_own_rsi : AnalysisResponse :=
  {| symbol := JStr (js "AAPL");
     signal_level := js "buy";
     action := js "buy";
     suggested_buy_price := JNull;
     suggested_sell_price := JNull;
     stop_loss_price := JNull;
     risk_estimation := js "low";
     reasoning := js "Momentum.";
     technical_summary := [(js "rsi", JNum (inject_Z 55))];
     confidence := 1 # 2;
     time_horizon := js "1 week" |}.

Lemma short_history_erases_witness :
  lookup (js "rsi") (technical_summary with_own_rsi) = Some (JNum (inject_Z 55))
  /\ lookup_defined (js "rsi")
       (enriched_summary
          (enrichWithIndicators with_own_rsi
             (buildTechnicalIndicators (fun q => q) [])))
     = None.
Proof.
  split; [reflexivity | ].
  apply short_history_erases; [simpl; lia | reflexivity].
Defined.

End BuilderFacts.
